(** * CDP support agent: the retrieval and query-classification core

    A shallow embedding of [app/query_engine.py] (classes [QueryEngine] and
    [CDPComparator]) together with the properties of its specification.

    Conventions of the embedding.
    - A Python [str] is a [string]; a character is an [ascii] read as the
      code point U+0000..U+00FF, and the character classes of [re] and of
      [str.strip]/[str.lower] are the ones Python has on that range.
    - A relevance score (a Python float produced by the sparse product) is a
      rational [Q]; weights of the matrix and of the query vector are
      rationals as well. Rounding and NaN are outside the model: on the
      scores of an index, which are finite, comparing floats is comparing
      numbers.
    - A Python [dict] is a [gmap string _]; dict objects live in a heap and
      are referred to by location, so that copying and annotating a chunk
      is an allocation followed by a store.
    - Code that can raise returns [py], a sum of a value and an exception. *)

From Stdlib Require Import QArith Ascii NArith DecimalString.
From stdpp Require Import gmap strings list fin_maps sorting.

(** ** Python strings *)

Module PyStr.

Definition code (c : ascii) : N := N_of_ascii c.

(** [str.isspace] on one character, which is also the class [\s] of [re]
    for [str] patterns. *)
Definition is_space (c : ascii) : bool :=
  let n := code c in
  ((9 <=? n) && (n <=? 13) || (28 <=? n) && (n <=? 32)
   || (n =? 133) || (n =? 160))%N.

(** The class [\w] of [re] for [str] patterns: alphanumeric or underscore. *)
Definition is_word (c : ascii) : bool :=
  let n := code c in
  ((48 <=? n) && (n <=? 57) || (65 <=? n) && (n <=? 90) || (n =? 95)
   || (97 <=? n) && (n <=? 122)
   || (n =? 170) || (n =? 178) || (n =? 179) || (n =? 181) || (n =? 185)
   || (n =? 186) || (188 <=? n) && (n <=? 190)
   || (192 <=? n) && (n <=? 214) || (216 <=? n) && (n <=? 246)
   || (248 <=? n) && (n <=? 255))%N.

(** [str.lower] on one character. *)
Definition lower_char (c : ascii) : ascii :=
  let n := code c in
  if ((65 <=? n) && (n <=? 90)
      || (192 <=? n) && (n <=? 222) && negb (n =? 215))%N
  then ascii_of_N (n + 32) else c.

Global Arguments is_space : simpl never.
Global Arguments is_word : simpl never.
Global Arguments lower_char : simpl never.

Fixpoint map (f : ascii -> ascii) (s : string) : string :=
  match s with
  | EmptyString => EmptyString
  | String c s' => String (f c) (map f s')
  end.

(** [s.lower()] *)
Definition lower (s : string) : string := map lower_char s.

(** [s.lstrip()] *)
Fixpoint lstrip (s : string) : string :=
  match s with
  | EmptyString => EmptyString
  | String c s' => if is_space c then lstrip s' else s
  end.

(** [s.rstrip()] *)
Fixpoint rstrip (s : string) : string :=
  match s with
  | EmptyString => EmptyString
  | String c s' =>
      match rstrip s' with
      | EmptyString => if is_space c then EmptyString else String c EmptyString
      | r => String c r
      end
  end.

(** [s.strip()] *)
Definition strip (s : string) : string := rstrip (lstrip s).

(** [needle in hay] *)
Fixpoint contains (needle hay : string) : bool :=
  String.prefix needle hay ||
  match hay with
  | EmptyString => false
  | String _ hay' => contains needle hay'
  end.

(** [re.sub(r'[^\w\s]', ' ', s)]: the pattern matches exactly one character,
    so the substitution acts character by character. *)
Definition sub_non_word_space (s : string) : string :=
  map (fun c => if is_word c || is_space c then c else " "%char) s.

(** [re.sub(r'\s+', ' ', s)]: matches are the maximal runs of whitespace,
    found left to right; [in_run] tells that the previous character was
    part of the run being replaced. *)
Fixpoint sub_spaces_from (in_run : bool) (s : string) : string :=
  match s with
  | EmptyString => EmptyString
  | String c s' =>
      if is_space c
      then if in_run then sub_spaces_from true s'
           else String " "%char (sub_spaces_from true s')
      else String c (sub_spaces_from false s')
  end.

Definition sub_spaces (s : string) : string := sub_spaces_from false s.

End PyStr.

(** ** [QueryEngine.preprocess_query] *)

Definition preprocess_query (query : string) : string :=
  let query := PyStr.sub_non_word_space query in
  let query := PyStr.strip (PyStr.sub_spaces query) in
  query.

(** ** Regular expressions of Python's [re], as far as the patterns of the
       program need them *)

Module Re.

Inductive regex : Type :=
| Fail                               (* matches nothing *)
| Eps                                (* the empty pattern *)
| Bol                                (* [^], without re.MULTILINE *)
| Cls (p : ascii -> bool)            (* one character of a class *)
| Seq (r1 r2 : regex)
| Alt (r1 r2 : regex)                (* [r1|r2] *)
| Star (r : regex).                  (* [r*] *)

(** [r+] *)
Definition Plus (r : regex) : regex := Seq r (Star r).

(** a literal character and a literal word *)
Definition Chr (c : ascii) : regex := Cls (Ascii.eqb c).

Fixpoint Lit (s : string) : regex :=
  match s with
  | EmptyString => Eps
  | String c s' => Seq (Chr c) (Lit s')
  end.

(** [\s] *)
Definition Space : regex := Cls PyStr.is_space.

(** [.], without re.DOTALL: any character but a newline *)
Definition Dot : regex := Cls (fun c => negb (Ascii.eqb c "010"%char)).

Definition Any : regex := Cls (fun _ => true).

Fixpoint seqs (rs : list regex) : regex :=
  match rs with
  | [] => Eps
  | [r] => r
  | r :: rs' => Seq r (seqs rs')
  end.

Fixpoint alts (rs : list regex) : regex :=
  match rs with
  | [] => Fail
  | [r] => r
  | r :: rs' => Alt r (alts rs')
  end.

Definition is_empty (s : string) : bool :=
  match s with EmptyString => true | _ => false end.

(** The words a pattern matches; [bol] tells whether the word starts at
    the beginning of the subject string. *)
Inductive lang : bool -> regex -> string -> Prop :=
| lang_eps bol : lang bol Eps EmptyString
| lang_bol : lang true Bol EmptyString
| lang_cls bol p c : p c = true -> lang bol (Cls p) (String c EmptyString)
| lang_seq bol r1 r2 s1 s2 :
    lang bol r1 s1 -> lang (bol && is_empty s1) r2 s2 ->
    lang bol (Seq r1 r2) (s1 +:+ s2)
| lang_alt_l bol r1 r2 s : lang bol r1 s -> lang bol (Alt r1 r2) s
| lang_alt_r bol r1 r2 s : lang bol r2 s -> lang bol (Alt r1 r2) s
| lang_star_nil bol r : lang bol (Star r) EmptyString
| lang_star_cons bol r c s1 s2 :
    lang bol r (String c s1) -> lang false (Star r) s2 ->
    lang bol (Star r) (String c s1 +:+ s2).

(** Matching by derivatives. *)
Fixpoint nullable (bol : bool) (r : regex) : bool :=
  match r with
  | Fail => false
  | Eps => true
  | Bol => bol
  | Cls _ => false
  | Seq r1 r2 => nullable bol r1 && nullable bol r2
  | Alt r1 r2 => nullable bol r1 || nullable bol r2
  | Star _ => true
  end.

Fixpoint deriv (bol : bool) (c : ascii) (r : regex) : regex :=
  match r with
  | Fail | Eps | Bol => Fail
  | Cls p => if p c then Eps else Fail
  | Seq r1 r2 =>
      Alt (Seq (deriv bol c r1) r2)
          (if nullable bol r1 then deriv bol c r2 else Fail)
  | Alt r1 r2 => Alt (deriv bol c r1) (deriv bol c r2)
  | Star r1 => Seq (deriv bol c r1) (Star r1)
  end.

(** the whole of [s] matches [r] *)
Fixpoint fullmatch_from (bol : bool) (r : regex) (s : string) : bool :=
  match s with
  | EmptyString => nullable bol r
  | String c s' => fullmatch_from false (deriv bol c r) s'
  end.

(** [re.search(r, s)] is not [None]: some substring of [s] matches [r]. *)
Definition search (r : regex) (s : string) : bool :=
  fullmatch_from true (Seq (Star Any) (Seq r (Star Any))) s.

End Re.

(** ** More of Python's [str] *)

Module PyStr2.
Import PyStr.

(** [str.upper] on one character (letters whose capital lies in
    U+0000..U+00FF). *)
Definition upper_char (c : ascii) : ascii :=
  let n := code c in
  if ((97 <=? n) && (n <=? 122)
      || (224 <=? n) && (n <=? 254) && negb (n =? 247))%N
  then ascii_of_N (n - 32) else c.

(** [s.capitalize()] *)
Definition capitalize (s : string) : string :=
  match s with
  | EmptyString => EmptyString
  | String c s' => String (upper_char c) (lower s')
  end.

Fixpoint intersperse (new s : string) : string :=
  match s with
  | EmptyString => new
  | String c s' => new +:+ String c (intersperse new s')
  end.

(** [s.replace(old, new)], occurrences found left to right without
    overlap; [skip] counts the characters of the occurrence just replaced
    that are still to be passed over. *)
Fixpoint replace_from (skip : nat) (old new s : string) : string :=
  match s with
  | EmptyString => EmptyString
  | String c s' =>
      match skip with
      | S n => replace_from n old new s'
      | O =>
          if String.prefix old s
          then new +:+ replace_from (String.length old - 1) old new s'
          else String c (replace_from 0 old new s')
      end
  end.

Definition replace (old new s : string) : string :=
  match old with
  | EmptyString => intersperse new s
  | _ => replace_from 0 old new s
  end.

End PyStr2.

(** ** The query classifier *)

Section Patterns.
Import Re.

Let sp : regex := Plus Space.

(** The loop [for pattern in patterns: if re.search(pattern, s): return True]
    followed by [return False]. *)
Fixpoint any_pattern (patterns : list regex) (s : string) : bool :=
  match patterns with
  | [] => false
  | pattern :: rest => if search pattern s then true else any_pattern rest s
  end.

Definition how_to_patterns : list regex :=
  [ seqs [Bol; Lit "how"; sp; Lit "to"; sp];
    seqs [Bol; Lit "how"; sp;
          alts [Lit "do"; Lit "can"; Lit "would"; Lit "should"]; sp;
          Lit "i"; sp];
    seqs [Bol; Lit "how"; sp;
          alts [Lit "do"; Lit "can"; Lit "would"; Lit "should"]; sp;
          Lit "you"; sp];
    seqs [Bol; Lit "what's"; sp; Lit "the"; sp; Lit "best"; sp; Lit "way";
          sp; Lit "to"; sp];
    seqs [Bol; Lit "what"; sp; Lit "is"; sp; Lit "the"; sp; Lit "process";
          sp; Lit "for"; sp];
    seqs [Bol; Lit "how"; sp; Lit "do"; sp; Lit "i"; sp; Lit "set"; sp;
          Lit "up"; sp];
    seqs [Bol; Lit "how"; sp; Lit "do"; sp; Lit "i"; sp; Lit "create"; sp] ].

(** [QueryEngine.is_how_to_question] *)
Definition is_how_to_question (query : string) : bool :=
  let query_lower := PyStr.lower query in
  any_pattern how_to_patterns query_lower.

Definition comparison_patterns : list regex :=
  [ Lit "compare";
    Lit "difference between";
    seqs [Lit "how does "; Plus Dot; Lit " compare to"];
    Lit "versus";
    Lit "vs" ].

(** [CDPComparator.is_comparison_question] *)
Definition is_comparison_question (query : string) : bool :=
  let query_lower := PyStr.lower query in
  any_pattern comparison_patterns query_lower.

Definition feature_patterns : list (regex * string) :=
  [ (seqs [Lit "audience ";
           alts [Lit "creation"; Lit "building"; Lit "segmentation"]],
     "audience creation");
    (seqs [Lit "data "; alts [Lit "integration"; Lit "ingestion"]],
     "data integration");
    (seqs [Lit "user "; alts [Lit "profiles"; Lit "identification"]],
     "user profiles");
    (seqs [alts [Lit "source"; Lit "destination"]; Lit " ";
           alts [Lit "connection"; Lit "integration"]],
     "connections");
    (seqs [Lit "event "; alts [Lit "tracking"; Lit "collection"]],
     "event tracking");
    (seqs [Lit "privacy "; alts [Lit "compliance"; Lit "management"]],
     "privacy");
    (seqs [Lit "identity "; alts [Lit "resolution"; Lit "matching"]],
     "identity resolution") ].

Fixpoint first_feature (patterns : list (regex * string)) (s : string)
  : option string :=
  match patterns with
  | [] => None
  | (pattern, feature) :: rest =>
      if search pattern s then Some feature else first_feature rest s
  end.

(** [CDPComparator.extract_feature_to_compare] *)
Definition extract_feature_to_compare (query : string) : option string :=
  let query_lower := PyStr.lower query in
  first_feature feature_patterns query_lower.

End Patterns.

Definition cdp_names : list string :=
  ["segment"; "mparticle"; "lytics"; "zeotap"].

(** The loop [for cdp in cdp_names: if cdp in query_lower: return cdp]. *)
Fixpoint first_mentioned (names : list string) (query_lower : string)
  : option string :=
  match names with
  | [] => None
  | cdp :: rest =>
      if PyStr.contains cdp query_lower then Some cdp
      else first_mentioned rest query_lower
  end.

(** [QueryEngine.extract_cdp_name] *)
Definition extract_cdp_name (query : string) : option string :=
  let query_lower := PyStr.lower query in
  first_mentioned cdp_names query_lower.

(** The loop [for cdp in cdp_names: if cdp in query_lower:
    mentioned_cdps.append(cdp)], with the list built so far. *)
Fixpoint mentioned_from (names : list string) (query_lower : string)
    (mentioned_cdps : list string) : list string :=
  match names with
  | [] => mentioned_cdps
  | cdp :: rest =>
      if PyStr.contains cdp query_lower
      then mentioned_from rest query_lower (mentioned_cdps ++ [cdp])
      else mentioned_from rest query_lower mentioned_cdps
  end.

(** [CDPComparator.extract_cdps_to_compare] *)
Definition extract_cdps_to_compare (query : string) : option (list string) :=
  let query_lower := PyStr.lower query in
  let mentioned_cdps := mentioned_from cdp_names query_lower [] in
  if (2 <=? length mentioned_cdps)%nat then Some mentioned_cdps else None.

(** ** Python values, exceptions and the heap of dict objects *)

Inductive pyval : Type :=
| PNone
| PBool (b : bool)
| PInt (z : Z)
| PFloat (q : Q)
| PStr (s : string).

Inductive exn : Type :=
| KeyError (key : string)
| IndexError
| AttributeError
| ValueError
| FileNotFoundError (path : string)
| DecodeError (path : string)      (* the deserializer of a file raised *)
| DanglingRef.                     (* a location that names no object *)

Inductive py (A : Type) : Type :=
| Ok (a : A)
| Raise (e : exn).
Arguments Ok {A} a.
Arguments Raise {A} e.

Global Instance py_ret : MRet py := fun A a => Ok a.
Global Instance py_bind : MBind py := fun A B f m =>
  match m with
  | Ok a => f a
  | Raise e => Raise e
  end.

Abbreviation loc := nat (only parsing).

(** The heap: the dict objects allocated so far, a location being the
    position of its object. *)
Abbreviation heap := (list (gmap string pyval)) (only parsing).

(** Computations that may allocate and mutate dicts and may raise. *)
Definition M (A : Type) : Type := heap -> py A * heap.

Definition ret {A} (a : A) : M A := fun h => (Ok a, h).
Definition raise {A} (e : exn) : M A := fun h => (Raise e, h).
Definition bind {A B} (m : M A) (f : A -> M B) : M B := fun h =>
  match m h with
  | (Ok a, h') => f a h'
  | (Raise e, h') => (Raise e, h')
  end.
(** a computation that only reads the heap *)
Definition reading {A} (f : heap -> py A) : M A := fun h => (f h, h).

Notation "x <- c1 ;; c2" := (bind c1 (fun x => c2))
  (at level 100, c1 at next level, right associativity).

(** [d[key]] for the dict at [l] *)
Definition dict_getitem (l : loc) (key : string) (h : heap) : py pyval :=
  match h !! l with
  | None => Raise DanglingRef
  | Some d =>
      match d !! key with
      | Some v => Ok v
      | None => Raise (KeyError key)
      end
  end.

(** [d.copy()]: a new dict object with the same items *)
Definition dict_copy (l : loc) : M loc := fun h =>
  match h !! l with
  | None => (Raise DanglingRef, h)
  | Some d => (Ok (length h), h ++ [d])
  end.

(** [d[key] = v]: the dict at [l] is updated in place *)
Definition dict_setitem (l : loc) (key : string) (v : pyval) : M unit := fun h =>
  match h !! l with
  | None => (Raise DanglingRef, h)
  | Some d => (Ok tt, <[l := <[key := v]> d]> h)
  end.

(** a new dict object with the given items *)
Definition dict_new (d : gmap string pyval) : M loc := fun h =>
  (Ok (length h), h ++ [d]).

(** [v.lower()] *)
Definition lower_method (v : pyval) : py string :=
  match v with
  | PStr s => Ok (PyStr.lower s)
  | _ => Raise AttributeError
  end.

(** [l[i]] for a list and an index that is not negative *)
Definition list_getitem {A} (l : list A) (i : nat) : py A :=
  match l !! i with
  | Some a => Ok a
  | None => Raise IndexError
  end.

(** [l[:k]] *)
Definition slice_to {A} (k : Z) (l : list A) : list A :=
  if (0 <=? k)%Z then take (Z.to_nat k) l
  else take (length l - Z.to_nat (- k)) l.

(** ** The index: vectorizer, term-vector matrix and chunk records *)

(** A sparse row: the (column, weight) entries that are stored. *)
Definition sparse_row : Type := list (nat * Q).

(** The fitted [TfidfVectorizer]: its vocabulary size and the row it
    produces for one document. *)
Record Vectorizer : Type := {
  n_features : nat;
  transform : string -> sparse_row
}.

(** A [csr_matrix], row by row. *)
Record csr_matrix : Type := {
  n_cols : nat;
  rows : list sparse_row
}.

Definition n_rows (m : csr_matrix) : nat := length (rows m).

(** the weight of column [j] in a sparse row *)
Definition weight_at (r : sparse_row) (j : nat) : Q :=
  foldr (fun e acc => if (e.1 =? j)%nat then (e.2 + acc)%Q else acc) 0%Q r.

(** the product of a row of the matrix and the (transposed) query row *)
Definition row_dot (r qv : sparse_row) : Q :=
  foldr (fun e acc => (e.2 * weight_at qv e.1 + acc)%Q) 0%Q r.

Record QueryEngine : Type := {
  index_dir : string;
  vectorizer : Vectorizer;
  chunk_vectors : csr_matrix;
  chunks : list loc
}.

(** JSON values as [json.load] builds them, numbers and strings given by
    the scalar they decode to. *)
#[local] Unset Elimination Schemes.
Inductive json : Type :=
| JScalar (v : pyval)
| JArray (items : list json)
| JObject (members : list (string * json)).
#[local] Set Elimination Schemes.

(** What a file of the index directory holds: bytes that none of the
    three loaders reads, a pickle (of a fitted vectorizer, or of a scalar
    such as the number 42), an archive with the arrays of a sparse matrix,
    or a JSON text (an array of flat objects, given by the records it
    decodes to, or any JSON value). *)
Inductive blob : Type :=
| Garbage
| Pickled (v : Vectorizer)
| Npz (m : csr_matrix)
| Json (records : list (gmap string pyval))
| PickledObject (o : pyval)
| JsonValue (v : json).

Definition filesystem : Type := gmap string blob.

Definition ends_with_slash (s : string) : bool :=
  match String.get (String.length s - 1) s with
  | Some c => Ascii.eqb c "/"%char
  | None => false
  end.

(** [os.path.join(dir, name)] for a [name] that is not absolute *)
Definition path_join (dir name : string) : string :=
  match dir with
  | EmptyString => name
  | _ => if ends_with_slash dir then dir +:+ name else dir +:+ "/" +:+ name
  end.

(** [open(path)] for reading *)
Definition open_file (fs : filesystem) (path : string) : py blob :=
  match fs !! path with
  | Some b => Ok b
  | None => Raise (FileNotFoundError path)
  end.

(** What [pickle.load] returns: the object that was pickled, whatever it
    is. *)
Inductive unpickled : Type :=
| VectorizerObject (v : Vectorizer)
| ScalarObject (o : pyval).

(** [pickle.load(f)]: a pickle of any object loads; a JSON text, an
    archive or other bytes are no pickle stream and raise. *)
Definition pickle_load (path : string) (b : blob) : py unpickled :=
  match b with
  | Pickled v => Ok (VectorizerObject v)
  | PickledObject o => Ok (ScalarObject o)
  | Garbage | Npz _ | Json _ | JsonValue _ => Raise (DecodeError path)
  end.

(** [np.load(path, allow_pickle=True)] followed by building the
    [csr_matrix] from the arrays [data], [indices], [indptr] and [shape]
    (lines 25 to 27, taken together). Arrays that do not make a matrix are
    a file that does not decode; a pickle of a vectorizer or of a scalar is
    unpickled by [np.load] and raises at the subscript [loader['data']]; a
    JSON text makes [np.load] raise. *)
Definition npz_load (path : string) (b : blob) : py csr_matrix :=
  match b with
  | Npz m => Ok m
  | Garbage | Pickled _ | PickledObject _ | Json _ | JsonValue _ =>
      Raise (DecodeError path)
  end.

(** A JSON object whose members are scalars, as the dict it decodes to; of
    two members with the same name the later one stays. *)
Definition flat_record (v : json) : option (gmap string pyval) :=
  match v with
  | JObject members =>
      scalars ← mapM (fun m : string * json =>
                        match m.2 with
                        | JScalar x => Some (m.1, x)
                        | _ => None
                        end) members;
      Some (list_to_map (reverse scalars))
  | _ => None
  end.

(** A JSON array of flat objects, as the list of records it decodes to. *)
Definition records_of (v : json) : option (list (gmap string pyval)) :=
  match v with
  | JArray items => mapM flat_record items
  | _ => None
  end.

(** What [json.load] returns: a list of flat records, or any other value. *)
Inductive decoded : Type :=
| Records (records : list (gmap string pyval))
| Value (v : json).

(** [json.load(f)]: every JSON text loads, whatever its shape; a pickle,
    an archive or other bytes are no JSON text and raise. *)
Definition json_load (path : string) (b : blob) : py decoded :=
  match b with
  | Json records => Ok (Records records)
  | JsonValue v =>
      Ok match records_of v with
         | Some records => Records records
         | None => Value v
         end
  | Garbage | Pickled _ | Npz _ | PickledObject _ => Raise (DecodeError path)
  end.

(** The objects [json.load] builds: one new dict per record, in order. *)
Fixpoint alloc_records (records : list (gmap string pyval)) : M (list loc) :=
  match records with
  | [] => ret []
  | d :: rest =>
      l <- dict_new d ;;
      ls <- alloc_records rest ;;
      ret (l :: ls)
  end.

Definition lift {A} (r : py A) : M A := reading (fun _ => r).

(** [self] after [load_index]. The rest of the code is modelled for an
    engine whose attributes have the types the code uses them at, a
    [QueryEngine]. [load_index] itself stores what the loaders return and
    checks nothing, so it can leave an engine whose [vectorizer] is no
    vectorizer or whose [chunks] are no list of records: [Unchecked], with
    the three attributes as loaded (their objects are not put on the heap,
    since nothing that is modelled reads them). *)
Inductive Loaded : Type :=
| Engine (eng : QueryEngine)
| Unchecked (dir : string) (model : unpickled) (vectors : csr_matrix)
    (metadata : decoded).

(** [QueryEngine.load_index], which is all [QueryEngine.__init__] does.
    The closing [print] writes to standard output only; its
    [len(self.chunks)] on an [Unchecked] engine is not modelled. *)
Definition load_index (fs : filesystem) (index_dir : string) : M Loaded :=
  let vectorizer_file := path_join index_dir "vectorizer.pkl" in
  f <- lift (open_file fs vectorizer_file) ;;
  vectorizer <- lift (pickle_load vectorizer_file f) ;;
  let vectors_file := path_join index_dir "chunk_vectors.npz" in
  loader <- lift (open_file fs vectors_file) ;;
  chunk_vectors <- lift (npz_load vectors_file loader) ;;
  let chunks_file := path_join index_dir "chunks_metadata.json" in
  f <- lift (open_file fs chunks_file) ;;
  chunks <- lift (json_load chunks_file f) ;;
  match vectorizer, chunks with
  | VectorizerObject vectorizer, Records records =>
      chunks <- alloc_records records ;;
      ret (Engine {| index_dir := index_dir; vectorizer := vectorizer;
                     chunk_vectors := chunk_vectors; chunks := chunks |})
  | _, _ => ret (Unchecked index_dir vectorizer chunk_vectors chunks)
  end.

(** ** The retriever *)

(** [a > b] on scores *)
Definition Qgtb (a b : Q) : bool := negb (Qle_bool a b).

(** [np.dot(self.chunk_vectors, query_vector.T).toarray().flatten()]:
    one score per row of the matrix; the product raises when the number of
    columns differs from the length of the query row. *)
Definition similarities_of (eng : QueryEngine) (query : string) : py (list Q) :=
  let processed_query := preprocess_query query in
  let query_vector := transform (vectorizer eng) processed_query in
  if (n_cols (chunk_vectors eng) =? n_features (vectorizer eng))%nat
  then Ok (map (fun r => row_dot r query_vector) (rows (chunk_vectors eng)))
  else Raise ValueError.

(** [sorted(l, key=lambda x: x[1], reverse=True)]: Python's sort is stable,
    also under [reverse=True] (elements with equal keys keep their order),
    so an element goes behind the elements that score strictly more and in
    front of all others that followed it. *)
Fixpoint insert_desc (x : nat * Q) (l : list (nat * Q)) : list (nat * Q) :=
  match l with
  | [] => [x]
  | y :: l' => if Qgtb y.2 x.2 then y :: insert_desc x l' else x :: l
  end.

Definition sorted_desc (l : list (nat * Q)) : list (nat * Q) :=
  foldr insert_desc [] l.

(** [[i for i, chunk in enumerate(self.chunks)
      if chunk['source'].lower() == cdp_filter.lower()]], from position [i] *)
Fixpoint cdp_indices_from (i : nat) (chunks : list loc) (filter_lower : string)
    (h : heap) : py (list nat) :=
  match chunks with
  | [] => Ok []
  | chunk :: rest =>
      source ← dict_getitem chunk "source" h;
      source_lower ← lower_method source;
      tl ← cdp_indices_from (S i) rest filter_lower h;
      Ok (if String.eqb source_lower filter_lower then i :: tl else tl)
  end.

(** [[(i, similarities[i]) for i in cdp_indices]] *)
Fixpoint with_scores (similarities : list Q) (indices : list nat)
  : py (list (nat * Q)) :=
  match indices with
  | [] => Ok []
  | i :: rest =>
      s ← list_getitem similarities i;
      tl ← with_scores similarities rest;
      Ok ((i, s) :: tl)
  end.

(** [if cdp_filter:] holds for a string that is not empty *)
Definition truthy (cdp_filter : option string) : option string :=
  match cdp_filter with
  | Some EmptyString => None
  | o => o
  end.

(** The first half of [QueryEngine.search]: the list [top_indices] of
    (corpus position, score) pairs. *)
Definition top_indices_of (eng : QueryEngine) (query : string) (top_k : Z)
    (cdp_filter : option string) (h : heap) : py (list (nat * Q)) :=
  similarities ← similarities_of eng query;
  match truthy cdp_filter with
  | Some f =>
      cdp_indices ← cdp_indices_from 0 (chunks eng) (PyStr.lower f) h;
      cdp_similarities ← with_scores similarities cdp_indices;
      Ok (slice_to top_k (sorted_desc cdp_similarities))
  | None =>
      let top_indices := imap pair similarities in
      Ok (slice_to top_k (sorted_desc top_indices))
  end.

(** The loop over [top_indices] that builds [results]. *)
Fixpoint collect_results (eng : QueryEngine) (top_indices : list (nat * Q))
    (results : list loc) : M (list loc) :=
  match top_indices with
  | [] => ret results
  | (idx, score) :: rest =>
      if Qgtb score (1 # 10) then
        stored <- lift (list_getitem (chunks eng) idx) ;;
        chunk <- dict_copy stored ;;
        _ <- dict_setitem chunk "score" (PFloat score) ;;
        collect_results eng rest (results ++ [chunk])
      else collect_results eng rest results
  end.

(** [QueryEngine.search] *)
Definition search (eng : QueryEngine) (query : string) (top_k : Z)
    (cdp_filter : option string) : M (list loc) :=
  top_indices <- reading (top_indices_of eng query top_k cdp_filter) ;;
  collect_results eng top_indices [].

(** ** Outcomes, top-level query and comparison *)

(** The dict a query returns, by its ['type']. *)
Inductive QueryOutcome : Type :=
| NotHowTo (message : string)
| NoResults (message : string)
| Results (cdp : option string) (query : string) (results : list loc)
| ComparisonError (message : string)
| Comparison (feature : string) (cdps : list string)
    (comparison_data : gmap string (list loc)).

Definition not_how_to_message : string :=
  "I'm a CDP support agent. I can help answer how-to questions about Segment, mParticle, Lytics, and Zeotap. Please ask me questions like 'How do I set up a new source in Segment?' or 'How can I create a user profile in mParticle?'".

(** [QueryEngine.query] *)
Definition query (eng : QueryEngine) (query : string) : M QueryOutcome :=
  if negb (is_how_to_question query) then
    ret (NotHowTo not_how_to_message)
  else
    let cdp_name := extract_cdp_name query in
    results <- search eng query 3 cdp_name ;;
    match results with
    | [] =>
        match truthy cdp_name with
        | Some cdp =>
            ret (NoResults
              ("I couldn't find specific information about how to "
               +:+ PyStr.strip
                     (PyStr2.replace "how to" EmptyString
                        (PyStr2.replace "how do i" EmptyString (PyStr.lower query)))
               +:+ " in " +:+ PyStr2.capitalize cdp
               +:+ ". Could you try rephrasing your question or ask about a different feature?"))
        | None =>
            ret (NoResults
              "I couldn't find specific information about that. Could you specify which CDP (Segment, mParticle, Lytics, or Zeotap) you're asking about?")
        end
    | _ =>
        ret (Results cdp_name query results)
    end.

Definition need_two_cdps_message : string :=
  "I can compare different CDPs, but I need to know which ones you want to compare. Please mention at least two CDPs from Segment, mParticle, Lytics, and Zeotap.".

Definition need_feature_message (cdps_to_compare : list string) : string :=
  "I can compare " +:+ String.concat ", " cdps_to_compare
  +:+ ", but I need to know which feature you want to compare. For example, you can ask about audience creation, data integration, user profiles, etc.".

Definition not_enough_message (feature : string) (cdps_to_compare : list string)
  : string :=
  "I couldn't find enough information to compare " +:+ feature
  +:+ " between " +:+ String.concat ", " cdps_to_compare
  +:+ ". Could you try asking about a different feature?".

(** The sub-query of one product *)
Definition search_query_for (feature cdp : string) : string :=
  "how to " +:+ feature +:+ " in " +:+ cdp.

(** The loop of [compare_cdps] over [cdps_to_compare] that fills
    [comparison_results]. *)
Fixpoint compare_each (eng : QueryEngine) (feature : string)
    (cdps : list string) (comparison_results : gmap string (list loc))
  : M (gmap string (list loc)) :=
  match cdps with
  | [] => ret comparison_results
  | cdp :: rest =>
      let search_query := search_query_for feature cdp in
      results <- search eng search_query 2 (Some cdp) ;;
      match results with
      | [] => compare_each eng feature rest comparison_results
      | _ => compare_each eng feature rest (<[cdp := results]> comparison_results)
      end
  end.

(** [CDPComparator.compare_cdps]; [None] is Python's [None]. *)
Definition compare_cdps (eng : QueryEngine) (query : string)
  : M (option QueryOutcome) :=
  if negb (is_comparison_question query) then ret None
  else
    match extract_cdps_to_compare query with
    | None | Some [] => ret (Some (ComparisonError need_two_cdps_message))
    | Some cdps_to_compare =>
        match extract_feature_to_compare query with
        | None | Some EmptyString =>
            ret (Some (ComparisonError (need_feature_message cdps_to_compare)))
        | Some feature =>
            comparison_results <- compare_each eng feature cdps_to_compare ∅ ;;
            if decide (comparison_results = ∅) then
              ret (Some (ComparisonError
                           (not_enough_message feature cdps_to_compare)))
            else
              ret (Some (Comparison feature cdps_to_compare comparison_results))
        end
    end.

(** ** Auxiliary predicates *)

Module PyStrPred.
Import PyStr.

(** every character of the string is in the class [p] *)
Fixpoint all_chars (p : ascii -> bool) (s : string) : bool :=
  match s with
  | EmptyString => true
  | String c s' => p c && all_chars p s'
  end.

(** every whitespace character is a single blank that does not follow
    another one; [after_space] tells that the previous character was
    whitespace *)
Fixpoint single_spaced (after_space : bool) (s : string) : bool :=
  match s with
  | EmptyString => true
  | String c s' =>
      if is_space c
      then negb after_space && Ascii.eqb c " "%char && single_spaced true s'
      else single_spaced false s'
  end.

Definition word_or_space (c : ascii) : bool := is_word c || is_space c.
Global Arguments word_or_space : simpl never.

(** What [preprocess_query] produces: word characters separated by single
    blanks, with no blank at either end. *)
Definition normalized (s : string) : Prop :=
  all_chars word_or_space s = true /\ single_spaced false s = true /\
  strip s = s.

End PyStrPred.

(** ** Notions of the specification *)

(** The how-to classification in the specification's words: the patterns
    are tried at the start of the trimmed, lowercased text. *)
Definition is_how_to_spec (text : string) : bool :=
  any_pattern how_to_patterns (PyStr.lower (PyStr.strip text)).

(** A product occurs in a text as a case-insensitive substring: some
    substring of the text is the product's name up to letter case. *)
Definition mentions (text product : string) : Prop :=
  exists pre w post, text = pre +:+ w +:+ post /\ PyStr.lower w = product.

(** An index as the data model has it and as the build pipeline writes it:
    the chunk list is aligned with the rows of the matrix, the matrix has
    one column per vocabulary term of the vectorizer, and every chunk is a
    record of the heap with a string ['source']. *)
Definition index_ok (h : heap) (eng : QueryEngine) : Prop :=
  n_rows (chunk_vectors eng) = length (chunks eng) /\
  n_cols (chunk_vectors eng) = n_features (vectorizer eng) /\
  forall c, c ∈ chunks eng ->
    exists d src, h !! c = Some d /\ d !! "source" = Some (PStr src).

(** Every chunk of the engine is an object of the heap. *)
Definition chunks_live (h : heap) (eng : QueryEngine) : Prop :=
  forall c, c ∈ chunks eng -> is_Some (h !! c).

(** The entries of a ranking that pass the relevance floor. *)
Definition above_floor (top : list (nat * Q)) : list (nat * Q) :=
  List.filter (fun x => Qgtb x.2 (1 # 10)) top.

(** The order of a ranking: a later entry does not score more than an
    earlier one, and of two entries with equal scores the earlier one has
    the smaller corpus position. *)
Definition ranks_before (x y : nat * Q) : Prop :=
  (y.2 <= x.2)%Q /\ (x.2 == y.2 -> (x.1 < y.1)%nat)%Q.

(** [copies eng h hits new]: the dicts [new], allocated one after the other
    on top of the heap [h], are the chunks at the positions of [hits], each
    extended with the score of its hit. *)
Inductive copies (eng : QueryEngine)
  : list (gmap string pyval) -> list (nat * Q) -> list (gmap string pyval) -> Prop :=
| copies_nil h : copies eng h [] []
| copies_cons h idx score hits c d new :
    chunks eng !! idx = Some c ->
    h !! c = Some d ->
    copies eng (h ++ [<["score" := PFloat score]> d]) hits new ->
    copies eng h ((idx, score) :: hits) (<["score" := PFloat score]> d :: new).

(** [searches eng feature cdps h found h']: starting in heap [h], the
    searches of ["how to {feature} in {cdp}"] with [top_k = 2] and filter
    [cdp], run for the products of [cdps] in order, return the result lists
    [found] and leave the heap [h']. *)
Inductive searches (eng : QueryEngine) (feature : string)
  : list string -> list (gmap string pyval) -> list (list loc) ->
    list (gmap string pyval) -> Prop :=
| searches_nil h : searches eng feature [] h [] h
| searches_cons cdp cdps h rs h' found h'' :
    search eng ("how to " +:+ feature +:+ " in " +:+ cdp) 2 (Some cdp) h
      = (Ok rs, h') ->
    searches eng feature cdps h' found h'' ->
    searches eng feature (cdp :: cdps) h (rs :: found) h''.

(** The three artifacts of an index directory are present and decode. *)
Definition artifacts_load (fs : filesystem) (dir : string)
    (v : Vectorizer) (m : csr_matrix) (records : list (gmap string pyval))
  : Prop :=
  fs !! path_join dir "vectorizer.pkl" = Some (Pickled v) /\
  fs !! path_join dir "chunk_vectors.npz" = Some (Npz m) /\
  fs !! path_join dir "chunks_metadata.json" = Some (Json records).



(** ** A small index, for examples

    Two vocabulary terms ([source] and [audience]); four chunks, of which
    the third is stored with a capitalised source. *)

Definition example_vectorizer : Vectorizer := {|
  n_features := 2;
  transform := fun s =>
    (if PyStr.contains "source" s then [(0%nat, 1 # 2)] else []) ++
    (if PyStr.contains "audience" s then [(1%nat, 1 # 2)] else [])
|}.

Definition example_matrix : csr_matrix := {|
  n_cols := 2;
  rows := [ [(0%nat, 1 # 2)];
            [(0%nat, 1 # 2); (1%nat, 1 # 2)];
            [(1%nat, 1 # 1)];
            [(0%nat, 1 # 2)] ]
|}.

Definition example_record (source : string) (chunk_id : Z) : gmap string pyval :=
  {[ "source" := PStr source; "chunk_id" := PInt chunk_id ]}.

Definition example_records : list (gmap string pyval) :=
  [ example_record "segment" 0; example_record "lytics" 0;
    example_record "Segment" 1; example_record "segment" 2 ].

Definition example_fs : filesystem :=
  {[ "idx/vectorizer.pkl" := Pickled example_vectorizer;
     "idx/chunk_vectors.npz" := Npz example_matrix;
     "idx/chunks_metadata.json" := Json example_records ]}.


(** the same directory with a pickle of the number 42 for a vectorizer and,
    for the chunks, the JSON text of an object with the one member a = 1 *)
Definition wrong_content_fs : filesystem :=
  <["idx/vectorizer.pkl" := PickledObject (PInt 42)]>
    (<["idx/chunks_metadata.json" :=
         JsonValue (JObject [("a", JScalar (PInt 1))])]> example_fs).

(** An index whose one matrix row goes with its one chunk, but whose chunk
    has no ['source']; the same with a source that is no string; and the
    example index with a matrix of three columns for a vocabulary of two. *)
Definition sourceless_engine : QueryEngine := {|
  index_dir := "idx";
  vectorizer := example_vectorizer;
  chunk_vectors := {| n_cols := 2; rows := [ [(0%nat, 1 # 2)] ] |};
  chunks := [0%nat]
|}.

Definition sourceless_heap : list (gmap string pyval) :=
  [ {[ "chunk_id" := PInt 0 ]} ].

Definition numbered_source_heap : list (gmap string pyval) :=
  [ {[ "source" := PInt 7; "chunk_id" := PInt 0 ]} ].

Definition wide_engine : QueryEngine := {|
  index_dir := "idx";
  vectorizer := example_vectorizer;
  chunk_vectors := {| n_cols := 3; rows := rows example_matrix |};
  chunks := [0; 1; 2; 3]%nat
|}.

(** the engine and the heap that [load_index example_fs "idx"] leaves *)
Definition example_engine : QueryEngine := {|
  index_dir := "idx";
  vectorizer := example_vectorizer;
  chunk_vectors := example_matrix;
  chunks := [0; 1; 2; 3]%nat
|}.

Definition example_heap : list (gmap string pyval) := example_records.

(** ** The request handler, up to the outcome

    [chat] in [app/app.py], as far as the computation of [result]: the
    message is read from the JSON body, an absent or empty one is rejected,
    and the text goes to the comparator or to the query engine. *)

(** [if v:] for a JSON scalar *)
Definition truthy_val (v : pyval) : bool :=
  match v with
  | PNone => false
  | PBool b => b
  | PInt z => negb (z =? 0)%Z
  | PFloat q => negb (Qeq_bool q 0)
  | PStr s => negb (Re.is_empty s)
  end.

Inductive ChatResult : Type :=
| NoMessage                                  (* the 400 answer *)
| Result (result : option QueryOutcome).     (* [result], [None] included *)

Definition chat_result (eng : QueryEngine) (data : gmap string pyval)
  : M ChatResult :=
  let user_message := default (PStr EmptyString) (data !! "message") in
  if negb (truthy_val user_message) then ret NoMessage
  else
    match user_message with
    | PStr user_message =>
        if is_comparison_question user_message then
          result <- compare_cdps eng user_message ;;
          ret (Result result)
        else
          result <- query eng user_message ;;
          ret (Result (Some result))
    | _ => raise AttributeError      (* [query.lower()] on a non-string *)
    end.

(** The phrases the feature patterns stand for, pattern by pattern, with
    the label of each pattern. *)
Definition feature_phrases : list (list string * string) :=
  [ (["audience creation"; "audience building"; "audience segmentation"],
     "audience creation");
    (["data integration"; "data ingestion"], "data integration");
    (["user profiles"; "user identification"], "user profiles");
    (["source connection"; "source integration";
      "destination connection"; "destination integration"], "connections");
    (["event tracking"; "event collection"], "event tracking");
    (["privacy compliance"; "privacy management"], "privacy");
    (["identity resolution"; "identity matching"], "identity resolution") ].

(** some phrase of the list occurs in the text, whatever the letter case *)
Definition mentions_any (text : string) (phrases : list string) : Prop :=
  exists phrase, phrase ∈ phrases /\ mentions text phrase.

(** the characters of a string that are in the class [p], in order *)
Fixpoint keep_chars (p : ascii -> bool) (s : string) : string :=
  match s with
  | EmptyString => EmptyString
  | String c s' => if p c then String c (keep_chars p s') else keep_chars p s'
  end.

(** a word character that is not whitespace *)
Definition is_word_char (c : ascii) : bool :=
  PyStr.is_word c && negb (PyStr.is_space c).
Global Arguments is_word_char : simpl never.

Definition not_space (c : ascii) : bool := negb (PyStr.is_space c).
Global Arguments not_space : simpl never.

(** ** The response generator ([app/response_generator.py]) *)

Module Resp.

Definition nl : string := String "010"%char EmptyString.

(** [\d] *)
Definition is_digit (c : ascii) : bool :=
  let n := PyStr.code c in ((48 <=? n) && (n <=? 57))%N.
Global Arguments is_digit : simpl never.

(** the longest prefix of characters in [p], and what follows it *)
Fixpoint span (p : ascii -> bool) (s : string) : string * string :=
  match s with
  | EmptyString => (EmptyString, EmptyString)
  | String c s' =>
      if p c then let (a, b) := span p s' in (String c a, b)
      else (EmptyString, s)
  end.

Definition is_char (c d : ascii) : bool := Ascii.eqb c d.

(** a match of [\[([^\]]+)\]\([^)]+\)] at the start of [s]: group 1 and
    the length of the match. Both classes exclude the character that
    follows them, so the greedy runs are the only way to match. *)
Definition link_at (s : string) : option (string * nat) :=
  match s with
  | String "["%char s1 =>
      let (g, r1) := span (fun c => negb (is_char "]" c)) s1 in
      match g, r1 with
      | String _ _, String "]"%char (String "("%char s2) =>
          let (u, r2) := span (fun c => negb (is_char ")" c)) s2 in
          match u, r2 with
          | String _ _, String ")"%char _ =>
              Some (g, (String.length g + String.length u + 4)%nat)
          | _, _ => None
          end
      | _, _ => None
      end
  | _ => None
  end.

(** [re.sub(r'\[([^\]]+)\]\([^)]+\)', r'\1', s)]; [skip] counts the
    characters of the match just replaced that are still to be passed *)
Fixpoint sub_links_from (skip : nat) (s : string) : string :=
  match s with
  | EmptyString => EmptyString
  | String c s' =>
      match skip with
      | S n => sub_links_from n s'
      | O =>
          match link_at s with
          | Some (g, len) => g +:+ sub_links_from (len - 1) s'
          | None => String c (sub_links_from 0 s')
          end
      end
  end.

(** [ResponseGenerator.clean_text] *)
Definition clean_text (text : string) : string :=
  let text := PyStr.strip (PyStr.sub_spaces text) in
  let text := sub_links_from 0 text in
  text.

Definition is_sentence_end (c : ascii) : bool :=
  is_char "." c || is_char "!" c || is_char "?" c.

(** [re.split(r'(?<=[.!?])\s+', s)]: a separator is a run of whitespace
    that directly follows one of [.!?]. [prev] tells that the previous
    character was one of them, [in_sep] that a separator is being passed,
    [cur] is the piece read so far. *)
Fixpoint split_from (prev in_sep : bool) (cur : string) (s : string)
  : list string :=
  match s with
  | EmptyString => [cur]
  | String c s' =>
      if PyStr.is_space c && (in_sep || prev)
      then if in_sep then split_from false true cur s'
           else cur :: split_from false true EmptyString s'
      else split_from (is_sentence_end c) false
             (cur +:+ String c EmptyString) s'
  end.

Definition split_sentences (s : string) : list string :=
  split_from false false EmptyString s.

(** [[s.strip() for s in pieces if s.strip()]] *)
Fixpoint stripped_non_empty (pieces : list string) : list string :=
  match pieces with
  | [] => []
  | s :: rest =>
      match PyStr.strip s with
      | EmptyString => stripped_non_empty rest
      | t => t :: stripped_non_empty rest
      end
  end.

(** the length of a match of [\d+\.\s+] at the start of [s] *)
Definition step_header (s : string) : option nat :=
  let (ds, r1) := span is_digit s in
  match ds, r1 with
  | String _ _, String "."%char r2 =>
      let (ws, _) := span PyStr.is_space r2 in
      match ws with
      | String _ _ => Some (String.length ds + 1 + String.length ws)%nat
      | EmptyString => None
      end
  | _, _ => None
  end.

(** the length of a match of [\*\s+] at the start of [s] *)
Definition bullet_header (s : string) : option nat :=
  match s with
  | String "*"%char r =>
      let (ws, _) := span PyStr.is_space r in
      match ws with
      | String _ _ => Some (1 + String.length ws)%nat
      | EmptyString => None
      end
  | _ => None
  end.

(** [$]: the end of the string, or the place before a last newline *)
Definition at_end (s : string) : bool :=
  match s with
  | EmptyString => true
  | String "010"%char EmptyString => true
  | _ => false
  end.

Inductive scan : Type :=
| Outside                           (* looking for the next match *)
| Header (todo : nat) (cur : string)  (* inside the header, [todo] to go *)
| Lazy (cur : string).              (* inside [.*?] *)

(** [re.findall(r'(HEADER.*?(?=HEADER|$))', s, re.DOTALL)] for a header
    pattern given by the length of its match at the start of a string:
    after the header the match grows one character at a time until the
    lookahead holds, and the search goes on from there. *)
Fixpoint findall_from (header : string -> option nat) (st : scan) (s : string)
  : list string :=
  match s with
  | EmptyString =>
      match st with
      | Lazy cur => [cur]
      | _ => []
      end
  | String c s' =>
      let enter :=
        match header s with
        | Some (S (S n)) => findall_from header (Header (S n) (String c EmptyString)) s'
        | Some _ => findall_from header (Lazy (String c EmptyString)) s'
        | None => findall_from header Outside s'
        end in
      match st with
      | Outside => enter
      | Header (S (S n)) cur =>
          findall_from header (Header (S n) (cur +:+ String c EmptyString)) s'
      | Header _ cur =>
          findall_from header (Lazy (cur +:+ String c EmptyString)) s'
      | Lazy cur =>
          if at_end s || (match header s with Some _ => true | None => false end)
          then cur :: enter
          else findall_from header (Lazy (cur +:+ String c EmptyString)) s'
      end
  end.

(** [ResponseGenerator.extract_steps] *)
Definition extract_steps (text : string) : list string :=
  match findall_from step_header Outside text with
  | (_ :: _) as steps => steps
  | [] =>
      match findall_from bullet_header Outside text with
      | (_ :: _) as bullets => bullets
      | [] =>
          let sentences := stripped_non_empty (split_sentences text) in
          take 5 sentences
      end
  end.

(** [re.match(r'^\d+\.', step)] is not [None] *)
Definition starts_numbered (step : string) : bool :=
  let (ds, r) := span is_digit step in
  match ds, r with
  | String _ _, String "."%char _ => true
  | _, _ => false
  end.

(** [str(n)] for a natural number *)
Definition nat_str (n : nat) : string :=
  NilEmpty.string_of_uint (Nat.to_uint n).

End Resp.

(** ** Formatting the answer ([ResponseGenerator], continued) and [chat] *)

(** The exceptions of the response generator: those of the engine's kinds,
    the [TypeError] of [re.sub] on a value that is not a string, and
    whatever [html2text] raises. *)
Inductive rexn : Type :=
| Exn (e : exn)
| TypeError
| Html2TextError.

Inductive res (A : Type) : Type :=
| Done (a : A)
| Fail (e : rexn).
Arguments Done {A} a.
Arguments Fail {A} e.

Global Instance res_ret : MRet res := fun A a => Done a.
Global Instance res_bind : MBind res := fun A B f m =>
  match m with
  | Done a => f a
  | Fail e => Fail e
  end.

(** What [chat] sends back. *)
Inductive HttpResponse : Type :=
| BadRequest (error : string)          (* [{'error': ...}], status 400 *)
| Answer (response : string) (raw_result : option QueryOutcome).

Section Response.

(** [HTML2Text.handle] of the [html2text] library ([None]: it raised),
    and [str] of a float. *)
Variable h2t_handle : pyval -> option string.
Variable float_repr : Q -> string.

(** [str(z)] *)
Definition int_str (z : Z) : string :=
  match z with
  | Zneg p => "-" +:+ Resp.nat_str (Pos.to_nat p)
  | _ => Resp.nat_str (Z.to_nat z)
  end.

(** [f"{v}"] *)
Definition str_of (v : pyval) : string :=
  match v with
  | PNone => "None"
  | PBool true => "True"
  | PBool false => "False"
  | PInt z => int_str z
  | PFloat q => float_repr q
  | PStr s => s
  end.

(** The text of a result: its ['html'] through [html2text] if it has one,
    its ['chunk_text'] otherwise. *)
Definition content_of (best_result : gmap string pyval) : res pyval :=
  match best_result !! "html" with
  | Some html =>
      match h2t_handle html with
      | Some content => Done (PStr content)
      | None => Fail Html2TextError
      end
  | None =>
      match best_result !! "chunk_text" with
      | Some content => Done content
      | None => Fail (Exn (KeyError "chunk_text"))
      end
  end.

(** [clean_text] of a value: [re.sub] wants a string *)
Definition clean_text_of (content : pyval) : res string :=
  match content with
  | PStr s => Done (Resp.clean_text s)
  | _ => Fail TypeError
  end.

(** [results[0]], as the dict it names *)
Definition first_result (results : list loc) (h : heap)
  : res (gmap string pyval) :=
  match results !! 0%nat with
  | None => Fail (Exn IndexError)
  | Some l =>
      match h !! l with
      | Some best_result => Done best_result
      | None => Fail (Exn DanglingRef)
      end
  end.

(** [best_result['url']] *)
Definition url_of (best_result : gmap string pyval) : res pyval :=
  match best_result !! "url" with
  | Some url => Done url
  | None => Fail (Exn (KeyError "url"))
  end.

(** The loop [for i, step in enumerate(steps, 1)] of
    [format_how_to_response] *)
Fixpoint add_steps (i : nat) (steps : list string) (response : string)
  : string :=
  match steps with
  | [] => response
  | step :: rest =>
      let step := Resp.clean_text step in
      if negb (Resp.starts_numbered step) then
        add_steps (S i) rest
          (response +:+ Resp.nat_str i +:+ ". " +:+ step +:+ Resp.nl)
      else add_steps (S i) rest (response +:+ step +:+ Resp.nl)
  end.

(** [ResponseGenerator.format_how_to_response] *)
Definition format_how_to_response (query_result : QueryOutcome) (h : heap)
  : res string :=
  match query_result with
  | NotHowTo message => Done message
  | NoResults message => Done message
  | Results cdp query results =>
      let cdp_name := default "the CDP" (truthy cdp) in
      best_result ← first_result results h;
      content ← content_of best_result;
      content ← clean_text_of content;
      let steps := Resp.extract_steps content in
      let response :=
        "Here's how to "
        +:+ PyStr.strip
              (PyStr2.replace "how to" EmptyString
                 (PyStr2.replace "how do i" EmptyString (PyStr.lower query)))
        +:+ " in " +:+ PyStr2.capitalize cdp_name +:+ ":"
        +:+ Resp.nl +:+ Resp.nl in
      let response :=
        match steps with
        | [] => response +:+ content
        | _ => add_steps 1 steps response
        end in
      url ← url_of best_result;
      Done (response +:+ Resp.nl +:+ Resp.nl
            +:+ "For more details, you can check the documentation at: "
            +:+ str_of url)
  | ComparisonError _ | Comparison _ _ _ => Fail (Exn (KeyError "results"))
  end.

(** The loop [for point in key_points] *)
Fixpoint add_points (key_points : list string) (response : string) : string :=
  match key_points with
  | [] => response
  | point :: rest => add_points rest (response +:+ "- " +:+ point +:+ Resp.nl)
  end.

(** The loop [for cdp in cdps] of [format_comparison_response] *)
Fixpoint add_products (feature : string) (data : gmap string (list loc))
    (h : heap) (cdps : list string) (response : string) : res string :=
  match cdps with
  | [] => Done response
  | cdp :: rest =>
      match data !! cdp with
      | Some results =>
          best_result ← first_result results h;
          content ← content_of best_result;
          content ← clean_text_of content;
          let sentences :=
            Resp.stripped_non_empty (Resp.split_sentences content) in
          let key_points := take 3 sentences in
          let response :=
            response +:+ "**" +:+ PyStr2.capitalize cdp +:+ "**:" +:+ Resp.nl in
          let response := add_points key_points response in
          url ← url_of best_result;
          add_products feature data h rest
            (response +:+ "More details: " +:+ str_of url
             +:+ Resp.nl +:+ Resp.nl)
      | None =>
          add_products feature data h rest
            (response +:+ "**" +:+ PyStr2.capitalize cdp
             +:+ "**: I couldn't find specific information about "
             +:+ feature +:+ " for this CDP." +:+ Resp.nl +:+ Resp.nl)
      end
  end.

Definition comparison_note : string :=
  "Note: This comparison is based on the available documentation and may not cover all aspects of the feature.".

(** [ResponseGenerator.format_comparison_response] *)
Definition format_comparison_response (comparison_result : QueryOutcome)
    (h : heap) : res string :=
  match comparison_result with
  | ComparisonError message => Done message
  | Comparison feature cdps data =>
      let response :=
        "Here's a comparison of " +:+ feature +:+ " between "
        +:+ String.concat " and " (map PyStr2.capitalize cdps) +:+ ":"
        +:+ Resp.nl +:+ Resp.nl in
      response ← add_products feature data h cdps response;
      Done (response +:+ comparison_note)
  | _ => Fail (Exn (KeyError "feature"))
  end.

Definition fallback_response : string :=
  "I'm sorry, I couldn't process your question. Please try asking a how-to question about Segment, mParticle, Lytics, or Zeotap.".

(** [ResponseGenerator.generate_response]; [query] is not looked at. *)
Definition generate_response (query : pyval) (result : option QueryOutcome)
    (h : heap) : res string :=
  match result with
  | Some result =>
      match result with
      | NotHowTo _ | NoResults _ => format_how_to_response result h
      | Results _ _ _ => format_how_to_response result h
      | ComparisonError _ | Comparison _ _ _ =>
          format_comparison_response result h
      end
  | None => Done fallback_response
  end.

(** [chat] in [app/app.py]: [chat_result] is its first part, up to
    [result]; then the answer is generated and both are sent back. *)
Definition chat (eng : QueryEngine) (data : gmap string pyval) (h : heap)
  : res HttpResponse * heap :=
  let user_message := default (PStr EmptyString) (data !! "message") in
  match chat_result eng data h with
  | (Raise e, h') => (Fail (Exn e), h')
  | (Ok NoMessage, h') => (Done (BadRequest "No message provided"), h')
  | (Ok (Result result), h') =>
      match generate_response user_message result h' with
      | Done response => (Done (Answer response result), h')
      | Fail e => (Fail e, h')
      end
  end.

End Response.

(** A result dict the response generator can format: a text, through
    [html2text] if the dict has an ['html'], and a ['url']. *)
Definition formattable (h2t_handle : pyval -> option string)
    (d : gmap string pyval) : Prop :=
  match d !! "html" with
  | Some html => is_Some (h2t_handle html)
  | None => exists s, d !! "chunk_text" = Some (PStr s)
  end /\ is_Some (d !! "url").

(** Every chunk of the index is such a dict. *)
Definition documented (h2t_handle : pyval -> option string)
    (h : heap) (eng : QueryEngine) : Prop :=
  forall c, c ∈ chunks eng ->
    exists d, h !! c = Some d /\ formattable h2t_handle d.

(** A result list whose dicts are in the heap and can be formatted. *)
Definition results_formattable (h2t_handle : pyval -> option string)
    (h : heap) (rs : list loc) : Prop :=
  Forall (fun r => exists d, h !! r = Some d /\ formattable h2t_handle d) rs.

(** The chunks of the small index as the indexer writes them, with a text
    and a link. *)
Definition doc_record (source chunk_text url : string) (chunk_id : Z)
  : gmap string pyval :=
  {[ "source" := PStr source; "url" := PStr url; "title" := PStr "Docs";
     "chunk_text" := PStr chunk_text; "chunk_id" := PInt chunk_id ]}.

Definition doc_heap : list (gmap string pyval) :=
  [ doc_record "segment" "1. Open Sources. 2. Add a source." "https://segment.example/sources" 0;
    doc_record "lytics" "Audiences group users. Build one from a source." "https://lytics.example/audiences" 0;
    doc_record "Segment" "An audience is a list of users." "https://segment.example/audiences" 1;
    doc_record "segment" "See [the guide](https://segment.example/guide) for a source." "https://segment.example/guide" 2 ].

(** [html2text] and float printing are not used by the examples *)
Definition no_html (v : pyval) : option string := None.
Definition no_floats (q : Q) : string := EmptyString.

(** ** Notions for the properties of the answers *)

(** the message an outcome carries *)
Definition message_of (out : QueryOutcome) : option string :=
  match out with
  | NotHowTo message | NoResults message | ComparisonError message =>
      Some message
  | _ => None
  end.

(** the heading of a product's section in a comparison *)
Definition section_heading (cdp : string) : string :=
  "**" +:+ PyStr2.capitalize cdp +:+ "**:" +:+ Resp.nl.

(** the line of a product nothing was found for *)
Definition nothing_found_line (feature cdp : string) : string :=
  "**" +:+ PyStr2.capitalize cdp
  +:+ "**: I couldn't find specific information about "
  +:+ feature +:+ " for this CDP.".

(** a character that is no whitespace, or is the blank *)
Definition blank_or_visible (c : ascii) : bool :=
  negb (PyStr.is_space c) || Ascii.eqb c " "%char.
Global Arguments blank_or_visible : simpl never.

(** digits and full stops *)
Definition number_char (c : ascii) : bool :=
  Resp.is_digit c || Ascii.eqb c "."%char.

(** the text begins with a number and a full stop *)
Definition numbered (s : string) : Prop :=
  exists ds rest,
    s = ds +:+ String "."%char rest /\ ds <> EmptyString /\
    PyStrPred.all_chars Resp.is_digit ds = true.

(** the text has a numbered item somewhere: digits, a full stop and
    whitespace *)
Definition has_numbered_item (text : string) : Prop :=
  exists pre post, text = pre +:+ post /\ is_Some (Resp.step_header post).

(** what the scan for numbered items has read of the current match is the
    beginning of a numbered text *)
Definition scan_numbered (st : Resp.scan) (s : string) : Prop :=
  match st with
  | Resp.Outside => True
  | Resp.Lazy cur => numbered cur
  | Resp.Header k cur =>
      exists pre post,
        s = pre +:+ post /\ String.length pre = k /\ pre <> EmptyString /\
        numbered (cur +:+ pre)
  end.

(** * Properties *)

(** ** Query normalization *)

Section Normalization.
Import PyStr PyStrPred.

Lemma rstrip_cons c s :
  rstrip (String c s) =
    if Re.is_empty (rstrip s) && is_space c then EmptyString
    else String c (rstrip s).
Proof. simpl. destruct (rstrip s); simpl; [destruct (is_space c)|]; done. Qed.

Lemma rstrip_idem s : rstrip (rstrip s) = rstrip s.
Proof.
  induction s as [|c s IH]; [done|].
  rewrite rstrip_cons.
  destruct (rstrip s) as [|d r] eqn:Hr; simpl.
  - destruct (is_space c) eqn:Hc; simpl; [done|]. by rewrite Hc.
  - simpl in IH. by rewrite IH.
Qed.

Lemma lstrip_idem s : lstrip (lstrip s) = lstrip s.
Proof.
  induction s as [|c s IH]; [done|]. simpl.
  destruct (is_space c) eqn:Hc; [done|]. simpl. by rewrite Hc.
Qed.

Lemma lstrip_head s :
  match lstrip s with
  | EmptyString => True
  | String c _ => is_space c = false
  end.
Proof.
  induction s as [|c s IH]; [done|]. simpl.
  destruct (is_space c) eqn:Hc; [done|]. by simpl.
Qed.

Lemma strip_idem s : strip (strip s) = strip s.
Proof.
  unfold strip. pose proof (lstrip_head s) as Hh.
  destruct (lstrip s) as [|c t]; [done|].
  assert (rstrip (String c t) = String c (rstrip t)) as Hk
    by (by rewrite rstrip_cons, Hh, andb_false_r).
  rewrite Hk. simpl lstrip. rewrite Hh, <- Hk.
  apply rstrip_idem.
Qed.

Lemma all_chars_lstrip p s : all_chars p s = true -> all_chars p (lstrip s) = true.
Proof.
  induction s as [|c s IH]; [done|]. simpl. intros [? ?]%andb_true_iff.
  destruct (is_space c); [auto|]. simpl. by apply andb_true_iff.
Qed.

Lemma all_chars_rstrip p s : all_chars p s = true -> all_chars p (rstrip s) = true.
Proof.
  induction s as [|c s IH]; [done|]. rewrite rstrip_cons.
  simpl. intros [? ?]%andb_true_iff.
  destruct (Re.is_empty (rstrip s) && is_space c); [done|].
  simpl. apply andb_true_iff; auto.
Qed.

Lemma all_chars_sub_non_word_space s :
  all_chars word_or_space (sub_non_word_space s) = true.
Proof.
  induction s as [|c s IH]; [done|].
  unfold sub_non_word_space in *. cbn [all_chars map].
  rewrite andb_true_iff. split; [|exact IH].
  fold (word_or_space c). destruct (word_or_space c) eqn:Hc; [exact Hc|].
  reflexivity.
Qed.

Lemma all_chars_sub_spaces b s :
  all_chars word_or_space s = true ->
  all_chars word_or_space (sub_spaces_from b s) = true.
Proof.
  revert b. induction s as [|c s IH]; intros b; [done|]. simpl.
  intros [Hc Hs]%andb_true_iff.
  destruct (is_space c), b; simpl; rewrite ?Hc; simpl; auto.
Qed.

Lemma sub_non_word_space_fixed s :
  all_chars word_or_space s = true -> sub_non_word_space s = s.
Proof.
  induction s as [|c s IH]; [done|].
  unfold sub_non_word_space in *. cbn [all_chars map].
  intros [Hc Hs]%andb_true_iff. unfold word_or_space in Hc.
  rewrite Hc. f_equal. by apply IH.
Qed.

Lemma single_spaced_weaken b s :
  single_spaced b s = true -> single_spaced false s = true.
Proof.
  destruct s as [|c s]; [done|]. simpl.
  destruct (is_space c); [|done]. by destruct b.
Qed.

Lemma single_spaced_sub_spaces b s :
  single_spaced b (sub_spaces_from b s) = true.
Proof.
  revert b. induction s as [|c s IH]; intros b; [done|]. simpl.
  destruct (is_space c) eqn:Hc.
  - destruct b; [apply IH|]. simpl. apply IH.
  - simpl. rewrite Hc. apply IH.
Qed.

Lemma sub_spaces_fixed b s :
  single_spaced b s = true -> sub_spaces_from b s = s.
Proof.
  revert b. induction s as [|c s IH]; intros b; [done|]. simpl.
  destruct (is_space c) eqn:Hc.
  - intros [[Hb Heq%Ascii.eqb_eq]%andb_true_iff Hs]%andb_true_iff.
    destruct b; [done|]. subst c. f_equal. by apply IH.
  - intros Hs. f_equal. by apply IH.
Qed.

Lemma single_spaced_lstrip b s :
  single_spaced b s = true -> single_spaced false (lstrip s) = true.
Proof.
  revert b. induction s as [|c s IH]; intros b; [done|]. simpl.
  destruct (is_space c) eqn:Hc.
  - intros [_ Hs]%andb_true_iff. by apply (IH true).
  - intros Hs. simpl. by rewrite Hc.
Qed.

Lemma single_spaced_rstrip b s :
  single_spaced b s = true -> single_spaced b (rstrip s) = true.
Proof.
  revert b. induction s as [|c s IH]; intros b; [done|].
  rewrite rstrip_cons. simpl.
  destruct (Re.is_empty (rstrip s) && is_space c) eqn:He; [done|].
  simpl. destruct (is_space c) eqn:Hc.
  - intros [Hb Hs]%andb_true_iff. rewrite Hb. simpl. by apply IH.
  - by apply IH.
Qed.

Lemma preprocess_query_normalized q : normalized (preprocess_query q).
Proof.
  unfold preprocess_query, strip. repeat split.
  - apply all_chars_rstrip, all_chars_lstrip, all_chars_sub_spaces,
      all_chars_sub_non_word_space.
  - apply single_spaced_rstrip, (single_spaced_lstrip false),
      single_spaced_sub_spaces.
  - apply strip_idem.
Qed.

Lemma preprocess_query_fixed s : normalized s -> preprocess_query s = s.
Proof.
  intros (Hall & Hsp & Hst). unfold preprocess_query.
  rewrite sub_non_word_space_fixed by done.
  unfold sub_spaces. by rewrite sub_spaces_fixed.
Qed.

(** C10. Query normalization is idempotent: normalizing a normalized
    query (punctuation replaced by blanks, runs of whitespace collapsed,
    ends trimmed) gives the same string again. *)
Theorem preprocess_query_idempotent (query : string) :
  preprocess_query (preprocess_query query) = preprocess_query query.
Proof. apply preprocess_query_fixed, preprocess_query_normalized. Qed.

End Normalization.

(** ** Matching by derivatives agrees with the language of a pattern *)

Module ReFacts.
Import Re.

Lemma app_nil_l s : EmptyString +:+ s = s.
Proof. reflexivity. Qed.

Lemma app_cons c s t : String c s +:+ t = String c (s +:+ t).
Proof. reflexivity. Qed.

Lemma app_nil_r s : s +:+ EmptyString = s.
Proof. induction s as [|c s IH]; [done|]. by rewrite app_cons, IH. Qed.

Lemma app_assoc s t u : (s +:+ t) +:+ u = s +:+ t +:+ u.
Proof. induction s as [|c s IH]; [done|]. by rewrite !app_cons, IH. Qed.

Lemma app_eq_nil s t : s +:+ t = EmptyString -> s = EmptyString /\ t = EmptyString.
Proof. destruct s; [done|]. by rewrite app_cons. Qed.

Lemma lang_fail_inv bol s : lang bol Fail s -> False.
Proof. inversion 1. Qed.

Lemma lang_eps_inv bol s : lang bol Eps s -> s = EmptyString.
Proof. by inversion 1. Qed.

Lemma lang_bol_inv bol s : lang bol Bol s -> s = EmptyString /\ bol = true.
Proof. by inversion 1. Qed.

Lemma lang_cls_inv bol p s :
  lang bol (Cls p) s -> exists c, s = String c EmptyString /\ p c = true.
Proof. inversion 1; subst; eauto. Qed.

Lemma lang_seq_inv bol r1 r2 s :
  lang bol (Seq r1 r2) s ->
  exists s1 s2, s = s1 +:+ s2 /\ lang bol r1 s1 /\
                lang (bol && is_empty s1) r2 s2.
Proof. inversion 1; subst; eauto. Qed.

Lemma lang_alt_inv bol r1 r2 s :
  lang bol (Alt r1 r2) s -> lang bol r1 s \/ lang bol r2 s.
Proof. inversion 1; subst; eauto. Qed.

Lemma nullable_lang bol r : nullable bol r = true -> lang bol r EmptyString.
Proof.
  induction r as [| | |p|r1 IH1 r2 IH2|r1 IH1 r2 IH2|r IH]; simpl; try done.
  - intros _. constructor.
  - intros ->. constructor.
  - intros [H1 H2]%andb_true_iff.
    apply (lang_seq bol r1 r2 EmptyString EmptyString); [by apply IH1|].
    rewrite andb_true_r. by apply IH2.
  - intros [H|H]%orb_true_iff; [apply lang_alt_l|apply lang_alt_r]; auto.
  - intros _. constructor.
Qed.

Lemma lang_nullable bol r s : lang bol r s -> s = EmptyString -> nullable bol r = true.
Proof.
  induction 1 as [| | |bol r1 r2 s1 s2 H1 IH1 H2 IH2
                  |bol r1 r2 s H IH|bol r1 r2 s H IH| |]; simpl;
    intros Hs; try done.
  - apply app_eq_nil in Hs as [-> ->]. rewrite andb_true_r in IH2.
    rewrite IH1, IH2; done.
  - rewrite IH; done.
  - rewrite IH; [apply orb_true_r|done].
Qed.

Lemma deriv_lang bol c r s :
  lang false (deriv bol c r) s -> lang bol r (String c s).
Proof.
  revert s.
  induction r as [| | |p|r1 IH1 r2 IH2|r1 IH1 r2 IH2|r IH]; simpl; intros s H;
    try by apply lang_fail_inv in H.
  - destruct (p c) eqn:Hp; [|by apply lang_fail_inv in H].
    apply lang_eps_inv in H as ->. by constructor.
  - apply lang_alt_inv in H as [H|H].
    + apply lang_seq_inv in H as (s1 & s2 & -> & Ha & Hb).
      rewrite <- app_cons. apply lang_seq; [by apply IH1|].
      by rewrite andb_false_r.
    + destruct (nullable bol r1) eqn:Hn; [|by apply lang_fail_inv in H].
      rewrite <- (app_nil_l (String c s)). apply lang_seq.
      * by apply nullable_lang.
      * rewrite andb_true_r. by apply IH2.
  - apply lang_alt_inv in H as [H|H]; [apply lang_alt_l|apply lang_alt_r]; auto.
  - apply lang_seq_inv in H as (s1 & s2 & -> & Ha & Hb).
    rewrite <- app_cons. apply lang_star_cons; [by apply IH|done].
Qed.

Lemma lang_deriv bol r w :
  lang bol r w ->
  forall a t, w = String a t -> lang false (deriv bol a r) t.
Proof.
  induction 1 as [| |bol p c'|bol r1 r2 s1 s2 H1 IH1 H2 IH2
                  |bol r1 r2 s H IH|bol r1 r2 s H IH|
                  |bol r c' s1 s2 H1 IH1 H2 IH2];
    intros a t Hw; simpl; try done.
  - injection Hw as -> <-. rewrite H. constructor.
  - destruct s1 as [|c1 s1].
    + rewrite app_nil_l in Hw. subst s2. rewrite andb_true_r in *.
      apply lang_alt_r. rewrite (lang_nullable _ _ _ H1 eq_refl).
      by apply IH2.
    + rewrite app_cons in Hw. injection Hw as -> <-.
      apply lang_alt_l. apply lang_seq; [by apply IH1|].
      by rewrite andb_false_r in H2.
  - apply lang_alt_l. by apply IH.
  - apply lang_alt_r. by apply IH.
  - rewrite app_cons in Hw. injection Hw as -> <-.
    apply lang_seq; [by apply IH1|done].
Qed.

(** The derivative matcher decides the language. *)
Lemma fullmatch_from_lang bol r s :
  fullmatch_from bol r s = true <-> lang bol r s.
Proof.
  revert bol r. induction s as [|c s IH]; intros bol r; simpl.
  - split; [apply nullable_lang|]. intros H. by eapply lang_nullable.
  - rewrite IH. split; [apply deriv_lang|]. intros H. by eapply lang_deriv.
Qed.

Lemma lang_star_any bol s : lang bol (Star Any) s.
Proof.
  revert bol. induction s as [|c s IH]; intros bol; [constructor|].
  change (String c s) with (String c EmptyString +:+ s).
  apply lang_star_cons; [by constructor|apply IH].
Qed.

(** [re.search] finds a match exactly when some substring is in the
    language of the pattern, [^] holding at the start of the subject. *)
Lemma search_lang r s :
  search r s = true <->
  exists pre m post, s = pre +:+ m +:+ post /\ lang (is_empty pre) r m.
Proof.
  unfold search. rewrite fullmatch_from_lang. split.
  - intros (pre & s2 & -> & Ha & Hb)%lang_seq_inv.
    apply lang_seq_inv in Hb as (m & post & -> & Hc & Hd).
    exists pre, m, post. split; [done|]. by rewrite andb_true_l in Hc.
  - intros (pre & m & post & -> & Hm).
    apply lang_seq; [apply lang_star_any|].
    apply lang_seq; [by rewrite andb_true_l|apply lang_star_any].
Qed.

(** A pattern that starts with [^] only matches a prefix of the subject. *)
Lemma search_anchored r s :
  search (Seq Bol r) s = true <->
  exists m post, s = m +:+ post /\ lang true (Seq Bol r) m.
Proof.
  rewrite search_lang. split.
  - intros (pre & m & post & -> & Hm). destruct pre as [|c pre].
    + by exists m, post.
    + simpl in Hm. apply lang_seq_inv in Hm as (s1 & s2 & -> & Ha & Hb).
      by apply lang_bol_inv in Ha as [_ ?].
  - intros (m & post & -> & Hm). by exists EmptyString, m, post.
Qed.

End ReFacts.

(** ** The query classifier *)

Section Classifier.
Import Re ReFacts.

Lemma any_pattern_true patterns s :
  any_pattern patterns s = true <->
  exists pattern, pattern ∈ patterns /\ search pattern s = true.
Proof.
  induction patterns as [|p ps IH]; simpl.
  - split; [done|]. intros (? & []%elem_of_nil & _).
  - destruct (search p s) eqn:Hp.
    + split; [|done]. intros _. exists p. split; [left|done].
    + rewrite IH. split.
      * intros (q & Hq & Hs). exists q. split; [by right|done].
      * intros (q & [->|Hq]%elem_of_cons & Hs); [congruence|eauto].
Qed.

Lemma how_to_patterns_anchored pattern :
  pattern ∈ how_to_patterns -> exists r, pattern = Seq Bol r.
Proof.
  unfold how_to_patterns. intros H.
  repeat (apply elem_of_cons in H as [->|H]; [eexists; reflexivity|]).
  by apply elem_of_nil in H.
Qed.

(** C3 (as amended). A text is a how-to question exactly when some
    pattern of the fixed list matches a prefix of the lowercased text as
    it was given: the match is anchored at the very first character, no
    trimming takes place, and any matching pattern makes the answer true. *)
Theorem is_how_to_question_iff (text : string) :
  is_how_to_question text = true <->
  exists pattern, pattern ∈ how_to_patterns /\
    exists m rest, PyStr.lower text = m +:+ rest /\ lang true pattern m.
Proof.
  unfold is_how_to_question. rewrite any_pattern_true. split.
  - intros (p & Hp & Hs). exists p. split; [done|].
    destruct (how_to_patterns_anchored p Hp) as [r ->].
    by apply search_anchored.
  - intros (p & Hp & Hm). exists p. split; [done|].
    destruct (how_to_patterns_anchored p Hp) as [r ->].
    by apply search_anchored.
Qed.

(** C3, as stated, fails: with a blank in front, the trimmed text starts
    with a how-to phrasing, yet the text is not classified as how-to. *)
Lemma is_how_to_question_leading_blank :
  is_how_to_spec " how to add a source in segment" = true /\
  is_how_to_question " how to add a source in segment" = false.
Proof. split; vm_compute; reflexivity. Qed.

End Classifier.

(** ** Substrings *)

Section Substrings.
Import PyStr ReFacts.

Lemma prefix_app a b :
  String.prefix a b = true <-> exists post, b = a +:+ post.
Proof.
  revert b. induction a as [|c a IH]; intros b.
  - split; [|by destruct b]. intros _. by exists b.
  - destruct b as [|d b]; simpl.
    + split; [done|]. by intros [post ?].
    + destruct (ascii_dec c d) as [->|Hne].
      * rewrite IH. split; intros [post Hp]; exists post;
          rewrite app_cons in *; congruence.
      * split; [done|]. intros [post Hp]. rewrite app_cons in Hp.
        congruence.
Qed.

Lemma contains_app a b :
  contains a b = true <-> exists pre post, b = pre +:+ a +:+ post.
Proof.
  induction b as [|d b IH]; cbn [contains].
  - rewrite orb_false_r, prefix_app. split.
    + intros [post ->]. by exists EmptyString, post.
    + intros (pre & post & H). symmetry in H.
      apply app_eq_nil in H as [-> H]. apply app_eq_nil in H as [-> ->].
      by exists EmptyString.
  - rewrite orb_true_iff, prefix_app, IH. split.
    + intros [[post ->]|(pre & post & ->)].
      * by exists EmptyString, post.
      * by exists (String d pre), post.
    + intros (pre & post & H). destruct pre as [|c pre].
      * left. by exists post.
      * right. rewrite app_cons in H. injection H as -> ->.
        by exists pre, post.
Qed.

Lemma map_app f a b : map f (a +:+ b) = map f a +:+ map f b.
Proof. induction a as [|c a IH]; [done|]. rewrite !app_cons. simpl. by rewrite IH. Qed.

Lemma map_app_inv f s a b :
  map f s = a +:+ b ->
  exists s1 s2, s = s1 +:+ s2 /\ map f s1 = a /\ map f s2 = b.
Proof.
  revert s. induction a as [|c a IH]; intros s H.
  - by exists EmptyString, s.
  - destruct s as [|d s]; [done|]. rewrite app_cons in H. simpl in H.
    injection H as Hc Hs. apply IH in Hs as (s1 & s2 & -> & <- & <-).
    exists (String d s1), s2. by rewrite <- Hc.
Qed.

(** [cdp in query.lower()] tests the occurrence of [cdp] in [query] as a
    case-insensitive substring. *)
Lemma mentions_contains text product :
  mentions text product <-> contains product (lower text) = true.
Proof.
  rewrite contains_app. unfold mentions, lower. split.
  - intros (pre & w & post & -> & <-).
    exists (map lower_char pre), (map lower_char post).
    by rewrite !map_app.
  - intros (pre & post & H).
    apply map_app_inv in H as (s1 & s23 & -> & <- & H).
    apply map_app_inv in H as (s2 & s3 & -> & <- & <-).
    by exists s1, s2, s3.
Qed.

End Substrings.

(** ** The guards of [query] and [compare_cdps] *)

Section Guards.

(** C5. A text that is not a how-to question gets the [NotHowTo] outcome
    with the fixed help message, whatever [is_comparison_question] says
    of it; the index is not consulted and the heap is left as it was. *)
Theorem query_not_how_to (eng : QueryEngine) (text : string) (h : heap) :
  is_how_to_question text = false ->
  query eng text h =
    (Ok (NotHowTo "I'm a CDP support agent. I can help answer how-to questions about Segment, mParticle, Lytics, and Zeotap. Please ask me questions like 'How do I set up a new source in Segment?' or 'How can I create a user profile in mParticle?'"),
     h).
Proof. intros H. unfold query. by rewrite H. Qed.

Lemma query_not_how_to_witness :
  is_comparison_question "Segment vs Lytics" = true /\
  query example_engine "Segment vs Lytics" example_heap =
    (Ok (NotHowTo not_how_to_message), example_heap).
Proof.
  split; [by vm_compute|].
  apply (query_not_how_to example_engine "Segment vs Lytics" example_heap).
  by vm_compute.
Defined.

Lemma mentioned_from_filter names query_lower acc :
  mentioned_from names query_lower acc =
    acc ++ List.filter (fun cdp => PyStr.contains cdp query_lower) names.
Proof.
  revert acc. induction names as [|cdp names IH]; intros acc;
    cbn [mentioned_from List.filter].
  - by rewrite app_nil_r.
  - destruct (PyStr.contains cdp query_lower); rewrite IH; [|done].
    by rewrite <- app_assoc.
Qed.

Lemma fewer_than_two_mentioned text :
  (forall p1 p2, p1 ∈ cdp_names -> p2 ∈ cdp_names -> p1 <> p2 ->
                 mentions text p1 -> mentions text p2 -> False) ->
  extract_cdps_to_compare text = None.
Proof.
  intros H. unfold extract_cdps_to_compare.
  rewrite mentioned_from_filter. unfold cdp_names in *.
  cbn [List.filter app].
  assert (forall p1 p2, p1 ∈ ["segment"; "mparticle"; "lytics"; "zeotap"] ->
            p2 ∈ ["segment"; "mparticle"; "lytics"; "zeotap"] -> p1 <> p2 ->
            PyStr.contains p1 (PyStr.lower text) = true ->
            PyStr.contains p2 (PyStr.lower text) = true -> False) as H'.
  { intros p1 p2 ? ? ? ?%mentions_contains ?%mentions_contains. eauto. }
  destruct (PyStr.contains "segment" _) eqn:H1,
           (PyStr.contains "mparticle" _) eqn:H2,
           (PyStr.contains "lytics" _) eqn:H3,
           (PyStr.contains "zeotap" _) eqn:H4;
    try reflexivity; exfalso;
    first [ eapply (H' "segment" "mparticle"); [set_solver|set_solver|done|done|done]
          | eapply (H' "segment" "lytics"); [set_solver|set_solver|done|done|done]
          | eapply (H' "segment" "zeotap"); [set_solver|set_solver|done|done|done]
          | eapply (H' "mparticle" "lytics"); [set_solver|set_solver|done|done|done]
          | eapply (H' "mparticle" "zeotap"); [set_solver|set_solver|done|done|done]
          | eapply (H' "lytics" "zeotap"); [set_solver|set_solver|done|done|done] ].
Qed.

(** C7. When fewer than two of the four known products occur in a text as
    case-insensitive substrings, no product list is extracted, and a
    comparison question among such texts is answered by the
    [ComparisonError] that asks for at least two products. *)
Theorem compare_needs_two_products (text : string) :
  (forall p1 p2, p1 ∈ cdp_names -> p2 ∈ cdp_names -> p1 <> p2 ->
                 mentions text p1 -> mentions text p2 -> False) ->
  extract_cdps_to_compare text = None /\
  (is_comparison_question text = true ->
   forall (eng : QueryEngine) (h : heap),
     compare_cdps eng text h =
       (Ok (Some (ComparisonError "I can compare different CDPs, but I need to know which ones you want to compare. Please mention at least two CDPs from Segment, mParticle, Lytics, and Zeotap.")),
        h)).
Proof.
  intros H%fewer_than_two_mentioned. split; [done|].
  intros Hc eng h. unfold compare_cdps. by rewrite Hc, H.
Qed.

Lemma compare_needs_two_products_witness :
  extract_cdps_to_compare "vs" = None /\
  compare_cdps example_engine "vs" example_heap =
    (Ok (Some (ComparisonError need_two_cdps_message)), example_heap).
Proof.
  assert (forall p1 p2, p1 ∈ cdp_names -> p2 ∈ cdp_names -> p1 <> p2 ->
            mentions "vs" p1 -> mentions "vs" p2 -> False) as H.
  { intros p1 p2 Hp1 _ _ Hm _. apply mentions_contains in Hm.
    unfold cdp_names in Hp1.
    repeat (apply elem_of_cons in Hp1 as [->|Hp1];
            [by vm_compute in Hm|]).
    by apply elem_of_nil in Hp1. }
  destruct (compare_needs_two_products "vs" H) as [Hn Hc].
  split; [exact Hn|].
  apply Hc. by vm_compute.
Defined.

End Guards.

(** ** The ranking: a stable sort by descending score *)

Section Ranking.

Lemma Qgtb_true a b : Qgtb a b = true <-> (b < a)%Q.
Proof.
  unfold Qgtb. rewrite negb_true_iff, <- not_true_iff_false, Qle_bool_iff.
  split; [apply Qnot_le_lt|apply Qlt_not_le].
Qed.

Lemma Qgtb_false a b : Qgtb a b = false <-> (a <= b)%Q.
Proof. unfold Qgtb. by rewrite negb_false_iff, Qle_bool_iff. Qed.

Lemma insert_desc_perm x l : insert_desc x l ≡ₚ x :: l.
Proof.
  induction l as [|y l IH]; simpl; [done|].
  destruct (Qgtb y.2 x.2); [|done].
  rewrite IH. apply Permutation_swap.
Qed.

Lemma sorted_desc_perm l : sorted_desc l ≡ₚ l.
Proof.
  induction l as [|x l IH]; simpl; [done|].
  by rewrite insert_desc_perm, IH.
Qed.

(** An element that precedes, in the corpus, all elements of a ranking is
    inserted behind the strictly better ones and before all others. *)
Lemma insert_desc_sorted x l :
  StronglySorted ranks_before l ->
  Forall (fun y => (x.1 < y.1)%nat) l ->
  StronglySorted ranks_before (insert_desc x l).
Proof.
  induction l as [|y l IH]; simpl; intros Hs Hx.
  - repeat constructor.
  - apply StronglySorted_cons in Hs as [Hy Hs].
    apply Forall_cons in Hx as [Hxy Hx].
    destruct (Qgtb y.2 x.2) eqn:Hc.
    + apply Qgtb_true in Hc. apply StronglySorted_cons. split.
      * rewrite insert_desc_perm. constructor; [|done].
        split; [by apply Qlt_le_weak|].
        intros Heq. rewrite Heq in Hc. by apply Qlt_irrefl in Hc.
      * by apply IH.
    + apply Qgtb_false in Hc. apply StronglySorted_cons. split.
      * constructor; [by split|].
        rewrite Forall_forall in Hy, Hx. apply Forall_forall.
        intros z Hz. destruct (Hy z Hz) as [Hzy _].
        split; [by apply Qle_trans with y.2|]. intros _. by apply Hx.
      * by apply StronglySorted_cons.
Qed.

Lemma sorted_desc_sorted l :
  StronglySorted (fun x y => (x.1 < y.1)%nat) l ->
  StronglySorted ranks_before (sorted_desc l).
Proof.
  induction 1 as [|x l Hl IH Hx]; simpl; [constructor|].
  apply insert_desc_sorted; [done|]. by rewrite sorted_desc_perm.
Qed.

Lemma Forall_sublist {A} (P : A -> Prop) l1 l2 :
  l1 `sublist_of` l2 -> Forall P l2 -> Forall P l1.
Proof.
  induction 1 as [|x l1 l2 Hsub IH|x l1 l2 Hsub IH]; [done|..];
    intros [Hx Hl]%Forall_cons; [constructor|]; auto.
Qed.

Lemma StronglySorted_sublist {A} (R : relation A) l1 l2 :
  l1 `sublist_of` l2 -> StronglySorted R l2 -> StronglySorted R l1.
Proof.
  induction 1 as [|x l1 l2 Hsub IH|x l1 l2 Hsub IH]; [done|..];
    intros [Hx Hs]%StronglySorted_cons; [|auto].
  apply StronglySorted_cons. split; [|auto].
  eapply Forall_sublist; [exact Hsub|exact Hx].
Qed.

Lemma slice_to_sublist {A} k (l : list A) : slice_to k l `sublist_of` l.
Proof. unfold slice_to. destruct (0 <=? k)%Z; apply sublist_take. Qed.

Lemma above_floor_sublist top : above_floor top `sublist_of` top.
Proof.
  unfold above_floor. induction top as [|x top IH]; simpl; [done|].
  destruct (Qgtb x.2 (1 # 10)); by constructor.
Qed.

Lemma slice_to_length {A} k (l : list A) :
  (0 <= k)%Z -> (Z.of_nat (length (slice_to k l)) <= k)%Z.
Proof.
  intros Hk. unfold slice_to. rewrite (proj2 (Z.leb_le 0 k) Hk).
  rewrite length_take. lia.
Qed.


Lemma imap_pair_increasing (sims : list Q) (i : nat) :
  StronglySorted (fun x y : nat * Q => (x.1 < y.1)%nat)
    (imap (fun j s => ((i + j)%nat, s)) sims).
Proof.
  revert i. induction sims as [|s sims IH]; intros i; simpl; [constructor|].
  constructor.
  - erewrite imap_ext; [apply (IH (S i))|]. intros; simpl. f_equal. lia.
  - apply Forall_forall. intros [j t] Hj.
    apply elem_of_lookup_imap_1 in Hj as (n & u & Heq & _).
    simpl in Heq. injection Heq as -> ->. simpl. lia.
Qed.

End Ranking.

(** ** The candidates of a search *)

Section Candidates.

Lemma py_bind_ok {A B} (m : py A) (f : A -> py B) b :
  m ≫= f = Ok b <-> exists a, m = Ok a /\ f a = Ok b.
Proof.
  destruct m as [a|e]; simpl.
  - split; [by exists a|]. by intros (? & [= <-] & ?).
  - split; [done|]. by intros (? & ? & ?).
Qed.

Lemma cdp_indices_from_spec i chunks fl h idxs :
  cdp_indices_from i chunks fl h = Ok idxs ->
  StronglySorted lt idxs /\
  Forall (fun j => exists c d src,
            (i <= j)%nat /\ chunks !! (j - i)%nat = Some c /\ h !! c = Some d /\
            d !! "source" = Some (PStr src) /\ PyStr.lower src = fl) idxs.
Proof.
  revert i idxs. induction chunks as [|c chunks IH]; intros i idxs; simpl.
  - intros [= <-]. split; constructor.
  - intros (v & Hv & (sl & Hsl & (tl & Htl & Hr)%py_bind_ok)%py_bind_ok)%py_bind_ok.
    apply IH in Htl as [Hs Hf].
    assert (Forall (fun j => exists c0 d src,
              (i <= j)%nat /\ (c :: chunks) !! (j - i)%nat = Some c0 /\
              h !! c0 = Some d /\ d !! "source" = Some (PStr src) /\
              PyStr.lower src = fl) tl /\ Forall (lt i) tl) as [Hf' Hlt].
    { split; eapply Forall_impl; try exact Hf; simpl;
        intros j (c0 & d & src & Hj & Hc & ?); [|lia].
      exists c0, d, src. split; [lia|]. split; [|done].
      replace (j - i)%nat with (S (j - S i)) by lia. done. }
    injection Hr as <-. destruct (String.eqb sl fl) eqn:Heq; [|done].
    split; [by constructor|]. constructor; [|done].
    unfold dict_getitem in Hv. destruct (h !! c) as [d|] eqn:Hd; [|done].
    destruct (d !! "source") as [v'|] eqn:Hsrc; [|done]. injection Hv as ->.
    destruct v as [| | | |src]; try done. injection Hsl as <-.
    apply String.eqb_eq in Heq. exists c, d, src.
    rewrite Nat.sub_diag. done.
Qed.

Lemma cdp_indices_from_none i chunks fl h :
  (forall c d src, c ∈ chunks -> h !! c = Some d ->
                   d !! "source" = Some (PStr src) -> PyStr.lower src <> fl) ->
  (forall c, c ∈ chunks ->
             exists d src, h !! c = Some d /\ d !! "source" = Some (PStr src)) ->
  cdp_indices_from i chunks fl h = Ok [].
Proof.
  revert i. induction chunks as [|c chunks IH]; intros i Hne Hok; simpl; [done|].
  destruct (Hok c) as (d & src & Hd & Hsrc); [left|].
  unfold dict_getitem. rewrite Hd, Hsrc. simpl.
  rewrite IH; [|intros; eapply Hne; eauto; by right|intros; apply Hok; by right].
  simpl. destruct (String.eqb _ _) eqn:Heq; [|done].
  apply String.eqb_eq in Heq. exfalso. eapply Hne; [left|done..].
Qed.

Lemma cdp_indices_from_ok i chunks fl h :
  (forall c, c ∈ chunks ->
             exists d src, h !! c = Some d /\ d !! "source" = Some (PStr src)) ->
  exists idxs, cdp_indices_from i chunks fl h = Ok idxs.
Proof.
  revert i. induction chunks as [|c chunks IH]; intros i Hok; simpl; [eauto|].
  destruct (Hok c) as (d & src & Hd & Hsrc); [left|].
  unfold dict_getitem. rewrite Hd, Hsrc. simpl.
  destruct (IH (S i)) as [tl ->]; [intros; apply Hok; by right|].
  simpl. eauto.
Qed.

Lemma with_scores_spec sims idxs l :
  with_scores sims idxs = Ok l ->
  l.*1 = idxs /\ Forall (fun x => sims !! x.1 = Some x.2) l.
Proof.
  revert l. induction idxs as [|i idxs IH]; intros l; simpl.
  - intros [= <-]. by split.
  - intros (s & Hs & (tl & Htl & [= <-])%py_bind_ok)%py_bind_ok.
    apply IH in Htl as [<- Hf]. split; [done|]. constructor; [|done].
    unfold list_getitem in Hs. simpl. by destruct (sims !! i); simplify_eq.
Qed.

Lemma with_scores_ok sims idxs :
  Forall (fun i => (i < length sims)%nat) idxs ->
  exists l, with_scores sims idxs = Ok l.
Proof.
  induction 1 as [|i idxs Hi _ [tl IH]]; simpl; [eauto|].
  apply lookup_lt_is_Some in Hi as [s Hs].
  unfold list_getitem. rewrite Hs, IH. simpl. eauto.
Qed.

Lemma StronglySorted_fst (l : list (nat * Q)) :
  StronglySorted lt l.*1 ->
  StronglySorted (fun x y : nat * Q => (x.1 < y.1)%nat) l.
Proof.
  induction l as [|x l IH]; [constructor|]. rewrite fmap_cons.
  intros [Hx Hs]%StronglySorted_cons. constructor; [auto|].
  rewrite Forall_fmap in Hx. exact Hx.
Qed.

End Candidates.

(** ** The ranking a search works on, and the copies it returns *)

Section Retrieval.

Lemma similarities_of_length eng q sims :
  similarities_of eng q = Ok sims -> length sims = n_rows (chunk_vectors eng).
Proof.
  unfold similarities_of, n_rows. destruct (_ =? _)%nat; [|done].
  intros [= <-]. apply length_map.
Qed.

Lemma top_indices_spec eng q k f h top :
  top_indices_of eng q k f h = Ok top ->
  exists sims,
    similarities_of eng q = Ok sims /\
    StronglySorted ranks_before top /\
    Forall (fun x => sims !! x.1 = Some x.2) top /\
    (forall f', truthy f = Some f' ->
       Forall (fun x => exists c d src,
                 chunks eng !! x.1 = Some c /\ h !! c = Some d /\
                 d !! "source" = Some (PStr src) /\
                 PyStr.lower src = PyStr.lower f') top) /\
    ((0 <= k)%Z -> (Z.of_nat (length top) <= k)%Z).
Proof.
  unfold top_indices_of. intros (sims & Hsims & H)%py_bind_ok.
  exists sims. split; [done|]. destruct (truthy f) as [f'|].
  - apply py_bind_ok in H as (idxs & Hidxs & (cs & Hcs & [= <-])%py_bind_ok).
    apply cdp_indices_from_spec in Hidxs as [Hs Hf].
    apply with_scores_spec in Hcs as [<- Hsc].
    repeat split.
    + eapply StronglySorted_sublist; [apply slice_to_sublist|].
      by apply sorted_desc_sorted, StronglySorted_fst.
    + eapply Forall_sublist; [apply slice_to_sublist|].
      by rewrite sorted_desc_perm.
    + intros ? [= <-]. eapply Forall_sublist; [apply slice_to_sublist|].
      rewrite sorted_desc_perm. rewrite Forall_fmap in Hf.
      eapply Forall_impl; [exact Hf|]. simpl.
      intros x (c & d & src & _ & Hc & ?). rewrite Nat.sub_0_r in Hc. eauto.
    + apply slice_to_length.
  - injection H as <-. repeat split.
    + eapply StronglySorted_sublist; [apply slice_to_sublist|].
      apply sorted_desc_sorted. apply (imap_pair_increasing sims 0).
    + eapply Forall_sublist; [apply slice_to_sublist|].
      rewrite sorted_desc_perm. apply Forall_forall. intros [j s] Hj.
      by apply elem_of_lookup_imap_1 in Hj as (n & u & [= -> ->] & ?).
    + done.
    + apply slice_to_length.
Qed.

Lemma top_indices_ok eng q k f h :
  index_ok h eng -> exists top, top_indices_of eng q k f h = Ok top.
Proof.
  intros (Hrows & Hcols & Hsrc). unfold top_indices_of.
  destruct (similarities_of eng q) as [sims|e] eqn:Hsims.
  2:{ unfold similarities_of in Hsims. rewrite Hcols, Nat.eqb_refl in Hsims.
      done. }
  simpl. destruct (truthy f) as [f'|]; [|eauto].
  destruct (cdp_indices_from_ok 0 (chunks eng) (PyStr.lower f') h Hsrc)
    as [idxs Hidxs].
  rewrite Hidxs. simpl.
  destruct (with_scores_ok sims idxs) as [cs ->]; [|simpl; eauto].
  apply cdp_indices_from_spec in Hidxs as [_ Hf].
  eapply Forall_impl; [exact Hf|]. simpl.
  intros j (c & d & src & _ & Hc & _). rewrite Nat.sub_0_r in Hc.
  apply lookup_lt_Some in Hc.
  rewrite (similarities_of_length _ _ _ Hsims). lia.
Qed.

(** A filter that no chunk matches leaves no candidate. *)
Lemma top_indices_no_match eng q k f h :
  index_ok h eng -> f <> EmptyString ->
  (forall c d src, c ∈ chunks eng -> h !! c = Some d ->
     d !! "source" = Some (PStr src) -> PyStr.lower src <> PyStr.lower f) ->
  top_indices_of eng q k (Some f) h = Ok [].
Proof.
  intros (Hrows & Hcols & Hsrc) Hf Hne. unfold top_indices_of.
  unfold similarities_of. rewrite Hcols, Nat.eqb_refl. simpl.
  destruct f as [|a f]; [done|].
  rewrite (cdp_indices_from_none 0 _ _ h Hne Hsrc). simpl.
  unfold slice_to. f_equal. destruct (0 <=? k)%Z; apply take_nil.
Qed.

(** The loop of [search] only appends new dicts to the heap; when it
    returns, the new dicts are the annotated copies of the hits that pass
    the floor, and the results are their locations. *)
Lemma collect_results_spec eng top results h r h' :
  collect_results eng top results h = (r, h') ->
  exists new, h' = h ++ new /\
    forall rs, r = Ok rs ->
      rs = results ++ seq (length h) (length new) /\
      copies eng h (above_floor top) new.
Proof.
  revert results h. induction top as [|[idx score] top IH]; intros results h.
  - intros [= <- <-]. exists []. rewrite !app_nil_r. split; [done|].
    intros rs [= <-]. split; [done|constructor].
  - cbn [collect_results above_floor List.filter snd].
    fold (above_floor top). destruct (Qgtb score (1 # 10)); [|apply IH].
    unfold bind at 1, lift, reading, list_getitem.
    destruct (chunks eng !! idx) as [c|] eqn:Hc.
    2:{ intros [= <- <-]. exists []. by rewrite app_nil_r. }
    unfold bind at 1, dict_copy. destruct (h !! c) as [d|] eqn:Hd.
    2:{ intros [= <- <-]. exists []. by rewrite app_nil_r. }
    unfold bind at 1, dict_setitem.
    rewrite (lookup_app_r h [d] (length h)) by lia.
    rewrite Nat.sub_diag. cbn [lookup list_lookup].
    replace (<[length h := <["score" := PFloat score]> d]> (h ++ [d]))
      with (h ++ [<["score" := PFloat score]> d]).
    2:{ rewrite insert_app_r_alt by lia. by rewrite Nat.sub_diag. }
    intros Hrec. apply IH in Hrec as (new & -> & Hrs).
    exists (<["score" := PFloat score]> d :: new).
    split; [by rewrite <- app_assoc|].
    intros rs Hr. destruct (Hrs rs Hr) as [-> Hcp]. split.
    + rewrite <- app_assoc, length_app. simpl.
      by rewrite Nat.add_1_r.
    + by econstructor.
Qed.

Lemma collect_results_ok eng top results h :
  chunks_live h eng ->
  Forall (fun x => (x.1 < length (chunks eng))%nat) top ->
  exists rs h', collect_results eng top results h = (Ok rs, h').
Proof.
  intros Hlive Htop. revert results h Hlive.
  induction Htop as [|[idx score] top Hidx _ IH]; intros results h Hlive.
  - simpl. by eexists _, _.
  - cbn [collect_results]. destruct (Qgtb score (1 # 10)); [|by apply IH].
    apply lookup_lt_is_Some in Hidx as [c Hc].
    destruct (Hlive c) as [d Hd]; [by eapply list_elem_of_lookup_2|].
    unfold bind at 1, lift, reading, list_getitem. simpl in Hc. rewrite Hc.
    unfold bind at 1, dict_copy. rewrite Hd.
    unfold bind at 1, dict_setitem.
    rewrite (lookup_app_r h [d] (length h)) by lia.
    rewrite Nat.sub_diag. cbn [lookup list_lookup].
    apply IH. intros c' Hc'. destruct (Hlive c' Hc') as [d' Hd'].
    exists d'. rewrite list_lookup_insert_ne.
    + by apply lookup_app_l_Some.
    + apply lookup_lt_Some in Hd'. lia.
Qed.

End Retrieval.

(** ** [QueryEngine.search] *)

Section Search.

Lemma search_unfold eng q k f h :
  search eng q k f h =
    match top_indices_of eng q k f h with
    | Ok top => collect_results eng top [] h
    | Raise e => (Raise e, h)
    end.
Proof. unfold search, bind, reading. by destruct (top_indices_of _ _ _ _ _). Qed.

(** Whatever a search does, the heap only grows at its end. *)
Lemma search_heap eng q k f h r h' :
  search eng q k f h = (r, h') -> exists new, h' = h ++ new.
Proof.
  rewrite search_unfold. destruct (top_indices_of _ _ _ _ _) as [top|e].
  - intros (new & -> & _)%collect_results_spec. by exists new.
  - intros [= <- <-]. exists []. by rewrite app_nil_r.
Qed.

Lemma search_inv eng q k f h rs h' :
  search eng q k f h = (Ok rs, h') ->
  exists top new,
    top_indices_of eng q k f h = Ok top /\ h' = h ++ new /\
    rs = seq (length h) (length new) /\ copies eng h (above_floor top) new.
Proof.
  rewrite search_unfold. destruct (top_indices_of _ _ _ _ _) as [top|e]; [|done].
  intros (new & -> & Hrs)%collect_results_spec.
  destruct (Hrs rs eq_refl) as [-> Hcp]. by exists top, new.
Qed.

Lemma index_ok_live h eng : index_ok h eng -> chunks_live h eng.
Proof.
  intros (_ & _ & Hsrc) c Hc. destruct (Hsrc c Hc) as (d & ? & -> & _). eauto.
Qed.

Lemma index_ok_grow h eng new : index_ok h eng -> index_ok (h ++ new) eng.
Proof.
  intros (Hr & Hc & Hsrc). repeat split; [done..|].
  intros c Hin. destruct (Hsrc c Hin) as (d & src & Hd & Hs).
  exists d, src. split; [by apply lookup_app_l_Some|done].
Qed.

(** On a well-formed index a search returns. *)
Lemma search_total eng q k f h :
  index_ok h eng -> exists rs h', search eng q k f h = (Ok rs, h').
Proof.
  intros Hok. rewrite search_unfold.
  destruct (top_indices_ok eng q k f h Hok) as [top Htop]. rewrite Htop.
  apply collect_results_ok; [by apply index_ok_live|].
  apply top_indices_spec in Htop as (sims & Hsims & _ & Hf & _).
  eapply Forall_impl; [exact Hf|]. simpl. intros x Hx.
  apply lookup_lt_Some in Hx.
  rewrite (similarities_of_length _ _ _ Hsims) in Hx.
  destruct Hok as (<- & _). done.
Qed.

Lemma copies_length eng h hits new :
  copies eng h hits new -> length new = length hits.
Proof. induction 1; simpl; auto. Qed.

Lemma copies_score eng h hits new :
  copies eng h hits new ->
  Forall2 (fun (hit : nat * Q) (d' : gmap string pyval) =>
             d' !! "score" = Some (PFloat hit.2)) hits new.
Proof.
  induction 1; constructor; [|done]. simpl. apply lookup_insert_eq.
Qed.

Lemma copies_of_chunks eng h hits new :
  chunks_live h eng -> copies eng h hits new ->
  Forall2 (fun (hit : nat * Q) (d' : gmap string pyval) =>
             exists c d, chunks eng !! hit.1 = Some c /\ h !! c = Some d /\
                         d' = <["score" := PFloat hit.2]> d) hits new.
Proof.
  intros Hlive Hcp. induction Hcp as [|h idx score hits c d new Hc Hd Hcp IH].
  - constructor.
  - constructor; [by exists c, d|].
    eapply Forall2_impl; [apply IH|].
    + intros c' Hc'. destruct (Hlive c' Hc') as [d' Hd'].
      exists d'. by apply lookup_app_l_Some.
    + simpl. intros hit d' (c' & d0 & Hc' & Hd0 & ->). exists c', d0.
      split; [done|]. split; [|done].
      destruct (Hlive c') as [d1 Hd1]; [by eapply list_elem_of_lookup_2|].
      rewrite (lookup_app_l_Some _ _ _ _ Hd1) in Hd0. congruence.
Qed.

(** The results of a search, read against the hits they come from. *)
Lemma search_results eng q k f h rs h' :
  search eng q k f h = (Ok rs, h') ->
  exists top new,
    top_indices_of eng q k f h = Ok top /\ h' = h ++ new /\
    copies eng h (above_floor top) new /\
    Forall2 (fun r d' => h !! r = None /\ h' !! r = Some d') rs new.
Proof.
  intros (top & new & Htop & -> & -> & Hcp)%search_inv.
  exists top, new. repeat split; [done..|].
  apply Forall2_same_length_lookup. split; [by rewrite length_seq|].
  intros i r d' Hr Hd'. apply lookup_seq in Hr as [-> Hi]. split.
  - apply lookup_ge_None. lia.
  - rewrite lookup_app_r by lia. by replace (length h + i - length h)%nat with i by lia.
Qed.

End Search.

(** ** Properties of [search] *)

Section SearchProperties.

Lemma above_floor_Forall top :
  Forall (fun x => (1 # 10 < x.2)%Q) (above_floor top).
Proof.
  unfold above_floor. induction top as [|x top IH]; simpl; [constructor|].
  destruct (Qgtb x.2 (1 # 10)) eqn:Hx; [|done].
  constructor; [by apply Qgtb_true|done].
Qed.

Lemma example_index_ok : index_ok example_heap example_engine.
Proof.
  repeat split. intros c Hc. unfold example_engine in Hc. simpl in Hc.
  apply elem_of_cons in Hc as [->|Hc].
  { exists (example_record "segment" 0), "segment". split; [done|]. by vm_compute. }
  apply elem_of_cons in Hc as [->|Hc].
  { exists (example_record "lytics" 0), "lytics". split; [done|]. by vm_compute. }
  apply elem_of_cons in Hc as [->|Hc].
  { exists (example_record "Segment" 1), "Segment". split; [done|]. by vm_compute. }
  apply elem_of_cons in Hc as [->|Hc].
  { exists (example_record "segment" 2), "segment". split; [done|]. by vm_compute. }
  by apply elem_of_nil in Hc.
Qed.

(** C1. For a [top_k] that is not negative, a search returns at most
    [top_k] results and each of them carries a score strictly above 0.1:
    the results are the entries of the sorted, truncated ranking that
    pass the floor. On a well-formed index the search does return. *)
Theorem search_at_most_top_k_above_floor
    (eng : QueryEngine) (query : string) (top_k : Z)
    (cdp_filter : option string) (h : heap) :
  (0 <= top_k)%Z ->
  (index_ok h eng ->
   exists rs h', search eng query top_k cdp_filter h = (Ok rs, h')) /\
  forall rs h',
    search eng query top_k cdp_filter h = (Ok rs, h') ->
    (Z.of_nat (length rs) <= top_k)%Z /\
    (exists top, top_indices_of eng query top_k cdp_filter h = Ok top /\
                 (Z.of_nat (length top) <= top_k)%Z /\
                 length rs = length (above_floor top)) /\
    Forall (fun r => exists d s,
              h' !! r = Some d /\ d !! "score" = Some (PFloat s) /\
              (1 # 10 < s)%Q) rs.
Proof.
  intros Hk. split; [apply search_total|].
  intros rs h' (top & new & Htop & -> & Hcp & Hrs)%search_results.
  pose proof (top_indices_spec _ _ _ _ _ _ Htop) as (_ & _ & _ & _ & _ & Hlen).
  specialize (Hlen Hk).
  assert (length rs = length (above_floor top)) as Hl.
  { rewrite (Forall2_length _ _ _ Hrs). by eapply copies_length. }
  split; [|split].
  - rewrite Hl. pose proof (sublist_length _ _ (above_floor_sublist top)). lia.
  - by exists top.
  - apply Forall_lookup. intros i r Hr.
    destruct (Forall2_lookup_l _ _ _ _ _ Hrs Hr) as (d' & Hd' & _ & Hh').
    destruct (Forall2_lookup_r _ _ _ _ _ (copies_score _ _ _ _ Hcp) Hd')
      as ([idx s] & Hhit & Hsc).
    exists d', s. split; [done|]. split; [done|].
    pose proof (above_floor_Forall top) as Hfl.
    rewrite Forall_lookup in Hfl. apply (Hfl i (idx, s) Hhit).
Qed.

Lemma search_at_most_top_k_above_floor_witness :
  (index_ok example_heap example_engine ->
   exists rs h',
     search example_engine "how to source audience" 2 (Some "SEGMENT")
       example_heap = (Ok rs, h')) /\
  forall rs h',
    search example_engine "how to source audience" 2 (Some "SEGMENT")
      example_heap = (Ok rs, h') ->
    (Z.of_nat (length rs) <= 2)%Z /\
    (exists top,
       top_indices_of example_engine "how to source audience" 2
         (Some "SEGMENT") example_heap = Ok top /\
       (Z.of_nat (length top) <= 2)%Z /\
       length rs = length (above_floor top)) /\
    Forall (fun r => exists d s,
              h' !! r = Some d /\ d !! "score" = Some (PFloat s) /\
              (1 # 10 < s)%Q) rs.
Proof.
  apply (search_at_most_top_k_above_floor example_engine
           "how to source audience" 2 (Some "SEGMENT") example_heap).
  lia.
Defined.


End SearchProperties.

(** ** Errors and effects of [search] *)

Section SearchEffects.


(** C8, as stated, fails: that the matrix rows go with the chunk list is
    not enough. On an index of one row and one chunk, a filtered search
    raises [KeyError] when the chunk has no ['source'] and
    [AttributeError] when its source is no string; and a search on an
    index of four rows and four chunks raises [ValueError] when the
    matrix has another number of columns than the vocabulary has terms. *)
Lemma search_raises_on_aligned_index :
  n_rows (chunk_vectors sourceless_engine)
    = length (chunks sourceless_engine) /\
  (search sourceless_engine "how to source" 5 (Some "segment")
     sourceless_heap).1 = Raise (KeyError "source") /\
  (search sourceless_engine "how to source" 5 (Some "segment")
     numbered_source_heap).1 = Raise AttributeError /\
  n_rows (chunk_vectors wide_engine) = length (chunks wide_engine) /\
  (search wide_engine "how to source" 5 None example_heap).1
    = Raise ValueError.
Proof. repeat split; by vm_compute. Qed.

(** C8 (as amended). On a well-formed index - the matrix rows go with the
    chunk list, the matrix has one column per term of the vocabulary, and
    every chunk is a record with a string ['source'] - a search raises
    nothing: it returns a sequence. When the filter is a product that no
    chunk belongs to, that sequence is empty and the heap is untouched. *)
Theorem search_never_raises
    (eng : QueryEngine) (query : string) (top_k : Z)
    (cdp_filter : option string) (h : heap) :
  index_ok h eng ->
  (exists rs h', search eng query top_k cdp_filter h = (Ok rs, h')) /\
  (forall f,
     cdp_filter = Some f -> f <> EmptyString ->
     (forall c d src, c ∈ chunks eng -> h !! c = Some d ->
        d !! "source" = Some (PStr src) ->
        PyStr.lower src <> PyStr.lower f) ->
     search eng query top_k cdp_filter h = (Ok [], h)).
Proof.
  intros Hok. split; [by apply search_total|].
  intros f -> Hf Hne. rewrite search_unfold.
  by rewrite top_indices_no_match.
Qed.

Lemma example_no_zeotap c d src :
  c ∈ chunks example_engine -> example_heap !! c = Some d ->
  d !! "source" = Some (PStr src) ->
  PyStr.lower src <> PyStr.lower "zeotap".
Proof.
  unfold example_engine, example_heap, example_records. simpl chunks.
  intros Hc Hd Hsrc.
  repeat (apply elem_of_cons in Hc as [->|Hc];
          [injection Hd as <-; vm_compute in Hsrc; injection Hsrc as <-;
           by vm_compute|]).
  by apply elem_of_nil in Hc.
Qed.

Lemma search_never_raises_witness :
  index_ok example_heap example_engine /\
  (exists rs h',
     search example_engine "how to source" 3 (Some "zeotap") example_heap
       = (Ok rs, h')) /\
  search example_engine "how to source" 3 (Some "zeotap") example_heap
    = (Ok [], example_heap).
Proof.
  split; [exact example_index_ok|].
  destruct (search_never_raises example_engine "how to source" 3
              (Some "zeotap") example_heap example_index_ok) as [Hr He].
  split; [exact Hr|].
  apply (He "zeotap" eq_refl); [done|exact example_no_zeotap].
Defined.

(** C9. A search leaves every object of the heap as it was, the chunk
    records of the index among them: none of them gains a ['score'].
    Each result is a new dict, holding the items of a stored chunk and a
    score besides. *)
Theorem search_leaves_index_unchanged
    (eng : QueryEngine) (query : string) (top_k : Z)
    (cdp_filter : option string) (h : heap)
    (r : py (list loc)) (h' : heap) :
  chunks_live h eng ->
  search eng query top_k cdp_filter h = (r, h') ->
  (forall l d, h !! l = Some d -> h' !! l = Some d) /\
  (forall c, c ∈ chunks eng -> h' !! c = h !! c) /\
  forall rs, r = Ok rs ->
    Forall (fun l => h !! l = None /\
              exists i c d s,
                chunks eng !! i = Some c /\ h !! c = Some d /\
                h' !! l = Some (<["score" := PFloat s]> d)) rs.
Proof.
  intros Hlive Hs. pose proof (search_heap _ _ _ _ _ _ _ Hs) as [new ->].
  split; [|split].
  - intros l d Hl. by apply lookup_app_l_Some.
  - intros c Hc. destruct (Hlive c Hc) as [d Hd].
    rewrite Hd. by apply lookup_app_l_Some.
  - intros rs ->.
    apply search_results in Hs as (top & new' & _ & Heq & Hcp & Hrs).
    apply app_inv_head in Heq as <-.
    pose proof (copies_of_chunks _ _ _ _ Hlive Hcp) as Hch.
    apply Forall_lookup. intros i l Hl.
    destruct (Forall2_lookup_l _ _ _ _ _ Hrs Hl) as (d' & Hd' & Hnone & Hh').
    destruct (Forall2_lookup_r _ _ _ _ _ Hch Hd')
      as ([idx s] & _ & c & d & Hc & Hd & ->).
    split; [done|]. by exists idx, c, d, s.
Qed.

Lemma search_leaves_index_unchanged_witness :
  chunks_live example_heap example_engine /\
  forall l d,
    example_heap !! l = Some d ->
    (search example_engine "how to source" 5 None example_heap).2 !! l
      = Some d.
Proof.
  split; [exact (index_ok_live _ _ example_index_ok)|].
  refine (proj1 (search_leaves_index_unchanged example_engine
                   "how to source" 5 None example_heap
                   (search example_engine "how to source" 5 None
                      example_heap).1
                   (search example_engine "how to source" 5 None
                      example_heap).2
                   (index_ok_live _ _ example_index_ok) _)).
  by destruct (search example_engine "how to source" 5 None example_heap).
Defined.

End SearchEffects.

(** ** [CDPComparator.compare_cdps] *)

Section Comparison.

Lemma extract_feature_not_empty text feature :
  extract_feature_to_compare text = Some feature -> feature <> EmptyString.
Proof.
  unfold extract_feature_to_compare, feature_patterns.
  cbn [first_feature].
  repeat (destruct (Re.search _ _); [by intros [= <-]|]). done.
Qed.

Lemma extract_cdps_spec text cdps :
  extract_cdps_to_compare text = Some cdps ->
  (2 <= length cdps)%nat /\ NoDup cdps /\
  forall cdp, cdp ∈ cdps <-> cdp ∈ cdp_names /\ mentions text cdp.
Proof.
  unfold extract_cdps_to_compare. rewrite mentioned_from_filter.
  cbn [app].
  set (f := fun cdp => PyStr.contains cdp (PyStr.lower text)).
  assert (NoDup (List.filter f cdp_names)) as Hnd.
  { apply (proj2 (NoDup_ListNoDup _)). apply List.NoDup_filter.
    apply (proj1 (NoDup_ListNoDup _)).
    apply (bool_decide_unpack _). by vm_compute. }
  assert (forall cdp, cdp ∈ List.filter f cdp_names <->
                      cdp ∈ cdp_names /\ mentions text cdp) as Hin.
  { intros cdp. rewrite list_elem_of_In, List.filter_In, <- list_elem_of_In.
    by rewrite mentions_contains. }
  revert Hnd Hin. generalize (List.filter f cdp_names). intros l Hnd Hin.
  destruct (2 <=? length l)%nat eqn:Hlen; [|done].
  intros [= <-]. by apply Nat.leb_le in Hlen.
Qed.

Lemma searches_length eng feature cdps h found h' :
  searches eng feature cdps h found h' -> length found = length cdps.
Proof. induction 1; simpl; auto. Qed.

(** The loop over the products: every sub-query is searched in turn, and a
    product is entered in the result map exactly when its search found
    something. *)
Lemma compare_each_spec eng feature cdps acc h :
  index_ok h eng -> NoDup cdps ->
  (forall cdp, cdp ∈ cdps -> acc !! cdp = None) ->
  exists found h' data,
    searches eng feature cdps h found h' /\
    compare_each eng feature cdps acc h = (Ok data, h') /\
    forall cdp rs,
      data !! cdp = Some rs <->
      ((cdp, rs) ∈ zip cdps found /\ rs <> []) \/ acc !! cdp = Some rs.
Proof.
  revert acc h. induction cdps as [|cdp0 cdps IH]; intros acc h Hok Hnd Hacc.
  - exists [], h, acc. split; [constructor|]. split; [done|].
    intros cdp rs. simpl. split; [by right|]. intros [[[]%elem_of_nil _]|]; done.
  - apply NoDup_cons in Hnd as [Hnotin Hnd].
    destruct (search_total eng (search_query_for feature cdp0) 2 (Some cdp0)
                h Hok) as (rs0 & h1 & Hs).
    pose proof (search_heap _ _ _ _ _ _ _ Hs) as [new ->].
    set (acc' := match rs0 with [] => acc | _ => <[cdp0 := rs0]> acc end).
    destruct (IH acc' (h ++ new)) as (found & h' & data & Hss & Hce & Hdata).
    { by apply index_ok_grow. }
    { done. }
    { intros cdp Hin. unfold acc'. destruct rs0; [apply Hacc; by right|].
      rewrite lookup_insert_ne; [apply Hacc; by right|].
      intros ->. done. }
    exists (rs0 :: found), h', data. split; [by econstructor|]. split.
    { cbn [compare_each]. unfold bind at 1. rewrite Hs.
      unfold acc' in Hce. by destruct rs0. }
    intros cdp rs. rewrite Hdata. simpl. rewrite elem_of_cons.
    destruct (decide (cdp = cdp0)) as [->|Hne].
    + assert (forall x, (cdp0, x) ∈ zip cdps found -> False) as Hnz.
      { intros x Hx. apply elem_of_zip_l in Hx. done. }
      assert (acc !! cdp0 = None) as Hnone by (apply Hacc; by left).
      unfold acc'. destruct rs0 as [|r0 rs0].
      * split.
        -- intros [[Hx _]|Hx]; [by apply Hnz in Hx|congruence].
        -- intros [[[[= ->]|Hx] Hr]|Hx]; [done|by apply Hnz in Hx|congruence].
      * rewrite lookup_insert_eq. split.
        -- intros [[Hx _]|[= <-]]; [by apply Hnz in Hx|]. left. split; [by left|done].
        -- intros [[[[= ->]|Hx] Hr]|Hx]; [by right|by apply Hnz in Hx|congruence].
    + assert (acc' !! cdp = acc !! cdp) as ->.
      { unfold acc'. destruct rs0; [done|]. by rewrite lookup_insert_ne. }
      split.
      * intros [[Hx Hr]|Hx]; [left|by right]. split; [by right|done].
      * intros [[[[= -> _]|Hx] Hr]|Hx]; [done|left|by right]. done.
Qed.

(** C6. With two or more products and a feature extracted, each product
    is searched with the sub-query "how to {feature} in {product}",
    [top_k = 2] and the product as filter. If every search comes back
    empty the outcome is the [ComparisonError] naming the feature and the
    products; otherwise it is a [Comparison] that lists all extracted
    products in order and maps exactly the products whose search found
    something to their results. *)
Theorem compare_cdps_outcome
    (eng : QueryEngine) (text : string) (cdps : list string)
    (feature : string) (h : heap) :
  index_ok h eng ->
  is_comparison_question text = true ->
  extract_cdps_to_compare text = Some cdps ->
  extract_feature_to_compare text = Some feature ->
  (2 <= length cdps)%nat /\
  exists found h',
    searches eng feature cdps h found h' /\
    ((Forall (fun rs => rs = []) found /\
      compare_cdps eng text h =
        (Ok (Some (ComparisonError (not_enough_message feature cdps))), h'))
     \/
     (exists data,
        compare_cdps eng text h =
          (Ok (Some (Comparison feature cdps data)), h') /\
        (exists rs, rs ∈ found /\ rs <> []) /\
        forall cdp rs,
          data !! cdp = Some rs <->
          (cdp, rs) ∈ zip cdps found /\ rs <> [])).
Proof.
  intros Hok Hcmp Hcdps Hfeat.
  destruct (extract_cdps_spec _ _ Hcdps) as (Hlen & Hnd & _).
  split; [done|].
  destruct (compare_each_spec eng feature cdps ∅ h Hok Hnd)
    as (found & h' & data & Hss & Hce & Hdata).
  { intros; apply lookup_empty. }
  assert (forall cdp rs, data !! cdp = Some rs <->
            (cdp, rs) ∈ zip cdps found /\ rs <> []) as Hdata'.
  { intros cdp rs. rewrite Hdata, lookup_empty.
    split; [by intros [?|?]|by left]. }
  exists found, h'. split; [done|].
  assert (compare_cdps eng text h =
            if decide (data = ∅)
            then (Ok (Some (ComparisonError
                              (not_enough_message feature cdps))), h')
            else (Ok (Some (Comparison feature cdps data)), h')) as ->.
  { unfold compare_cdps. rewrite Hcmp, Hcdps, Hfeat. simpl.
    destruct cdps as [|c0 cdps]; [simpl in Hlen; lia|].
    pose proof (extract_feature_not_empty _ _ Hfeat) as Hne.
    destruct feature as [|a feature]; [done|].
    unfold bind. rewrite Hce. by destruct (decide (data = ∅)). }
  destruct (decide (data = ∅)) as [->|Hnz].
  - left. split; [|done]. apply Forall_lookup. intros i rs Hi.
    destruct rs as [|r rs]; [done|]. exfalso.
    destruct (lookup_lt_is_Some_2 cdps i) as [cdp Hc].
    { rewrite <- (searches_length _ _ _ _ _ _ Hss). by eapply lookup_lt_Some. }
    assert ((∅ : gmap string (list loc)) !! cdp = Some (r :: rs)) as He.
    { apply Hdata'. split; [|done]. apply elem_of_lookup_zip_with.
      by exists i, cdp, (r :: rs). }
    by rewrite lookup_empty in He.
  - right. exists data. split; [done|]. split; [|done].
    apply map_choose in Hnz as (cdp & rs & Hd).
    apply Hdata' in Hd as [Hin Hr]. exists rs. split; [|done].
    by apply elem_of_zip_r in Hin.
Qed.

Lemma compare_cdps_outcome_witness :
  index_ok example_heap example_engine /\
  (2 <= length ["segment"; "lytics"; "zeotap"])%nat /\
  exists found h',
    searches example_engine "audience creation"
      ["segment"; "lytics"; "zeotap"] example_heap found h'.
Proof.
  split; [exact example_index_ok|].
  destruct (compare_cdps_outcome example_engine
              "Compare audience creation between Segment, Lytics and Zeotap"
              ["segment"; "lytics"; "zeotap"] "audience creation"
              example_heap example_index_ok)
    as (Hlen & found & h' & Hss & _); [by vm_compute..|].
  split; [exact Hlen|]. by exists found, h'.
Defined.

End Comparison.

(** ** [QueryEngine.load_index] *)

Section Loading.

Lemma alloc_records_spec records h :
  alloc_records records h =
    (Ok (seq (length h) (length records)), h ++ records).
Proof.
  revert h. induction records as [|d records IH]; intros h; simpl.
  - by rewrite app_nil_r.
  - unfold bind at 1, dict_new. unfold bind at 1. rewrite IH.
    unfold ret. rewrite length_app, <- app_assoc. simpl.
    by rewrite Nat.add_1_r.
Qed.

(** What [load_index] returns once the three loaders have returned. *)
Lemma load_index_keeps fs dir h b1 u m b3 c :
  fs !! path_join dir "vectorizer.pkl" = Some b1 ->
  pickle_load (path_join dir "vectorizer.pkl") b1 = Ok u ->
  fs !! path_join dir "chunk_vectors.npz" = Some (Npz m) ->
  fs !! path_join dir "chunks_metadata.json" = Some b3 ->
  json_load (path_join dir "chunks_metadata.json") b3 = Ok c ->
  load_index fs dir h =
    match u, c with
    | VectorizerObject v, Records records =>
        (Ok (Engine {| index_dir := dir; vectorizer := v; chunk_vectors := m;
                       chunks := seq (length h) (length records) |}),
         h ++ records)
    | _, _ => (Ok (Unchecked dir u m c), h)
    end.
Proof.
  intros H1 Hu H2 H3 Hc.
  unfold load_index, bind, lift, reading, open_file.
  rewrite H1, Hu, H2. cbn [npz_load]. rewrite H3, Hc.
  destruct u as [v|o]; [|done]. destruct c as [records|x]; [|done].
  by rewrite alloc_records_spec.
Qed.



Lemma load_index_loads fs dir h v m records :
  artifacts_load fs dir v m records ->
  load_index fs dir h =
    (Ok (Engine {| index_dir := dir; vectorizer := v; chunk_vectors := m;
                   chunks := seq (length h) (length records) |}),
     h ++ records).
Proof.
  intros (H1 & H2 & H3).
  exact (load_index_keeps fs dir h (Pickled v) (VectorizerObject v) m
           (Json records) (Records records) H1 eq_refl H2 H3 eq_refl).
Qed.



(** Nor is the content of a readable file looked at: a pickle of the
    number 42 and the JSON text of an object load as model and chunks. *)
Example load_index_accepts_wrong_content :
  load_index wrong_content_fs "idx" [] =
    (Ok (Unchecked "idx" (ScalarObject (PInt 42)) example_matrix
           (Value (JObject [("a", JScalar (PInt 1))]))), []).
Proof.
  rewrite (load_index_keeps wrong_content_fs "idx" [] (PickledObject (PInt 42))
             (ScalarObject (PInt 42)) example_matrix
             (JsonValue (JObject [("a", JScalar (PInt 1))]))
             (Value (JObject [("a", JScalar (PInt 1))])));
    [reflexivity|by vm_compute..].
Qed.

(** The example engine is what loading the example directory gives. *)
Example load_index_example :
  load_index example_fs "idx" [] = (Ok (Engine example_engine), example_heap).
Proof.
  apply (load_index_loads example_fs "idx" [] example_vectorizer
           example_matrix example_records).
  by vm_compute.
Qed.

End Loading.

(** ** Worked examples *)

Section Examples.

Example preprocess_query_example :
  preprocess_query "  How do I, set-up   a source?? " = "How do I set up a source".
Proof. by vm_compute. Qed.

(** the two queries of [query_example] in the source *)
Example how_to_example :
  is_how_to_question "How do I set up a new source in Segment?" = true /\
  extract_cdp_name "How do I set up a new source in Segment?" = Some "segment".
Proof. split; by vm_compute. Qed.

Example comparison_example :
  let q := "How does Segment's audience creation process compare to Lytics?" in
  is_comparison_question q = true /\
  extract_cdps_to_compare q = Some ["segment"; "lytics"] /\
  extract_feature_to_compare q = Some "audience creation".
Proof. cbv zeta. repeat split; by vm_compute. Qed.

(** chunks 1 and 2 tie at 1/2, chunks 0 and 3 at 1/4: corpus order decides *)
Example ranking_example :
  match top_indices_of example_engine "how to source audience" 5 None
          example_heap with
  | Ok top => top.*1 = [1; 2; 0; 3]%nat
  | Raise _ => False
  end.
Proof. by vm_compute. Qed.

(** under the filter, the chunk stored as ["Segment"] is a candidate too, and
    a negative [top_k] cuts from the end *)
Example filter_example :
  match top_indices_of example_engine "how to source audience" (-1)
          (Some "SEGMENT") example_heap with
  | Ok top => top.*1 = [2; 0]%nat
  | Raise _ => False
  end.
Proof. by vm_compute. Qed.

End Examples.

(** * Further properties of the classifier *)

Section ClassifierMore.
Import Re ReFacts.

Lemma lang_Lit bol w m : lang bol (Lit w) m <-> m = w.
Proof.
  revert bol m. induction w as [|c w IH]; intros bol m; cbn [Lit].
  - split; [apply lang_eps_inv|intros ->; constructor].
  - split.
    + intros (s1 & s2 & -> & (c' & -> & Hc)%lang_cls_inv & H2)%lang_seq_inv.
      apply IH in H2 as ->. apply Ascii.eqb_eq in Hc as ->. done.
    + intros ->. change (String c w) with (String c EmptyString +:+ w).
      apply lang_seq; [constructor; apply Ascii.eqb_refl|by apply IH].
Qed.

(** searching for a literal is the substring test *)
Lemma search_Lit w s : search (Lit w) s = true <-> PyStr.contains w s = true.
Proof.
  rewrite search_lang, contains_app. split.
  - intros (pre & m & post & -> & ->%lang_Lit). eauto.
  - intros (pre & post & ->). exists pre, w, post. by rewrite lang_Lit.
Qed.

Lemma first_mentioned_spec names ql :
  match first_mentioned names ql with
  | Some cdp =>
      exists before after,
        names = before ++ cdp :: after /\ PyStr.contains cdp ql = true /\
        Forall (fun p => PyStr.contains p ql = false) before
  | None => Forall (fun p => PyStr.contains p ql = false) names
  end.
Proof.
  induction names as [|p names IH]; cbn [first_mentioned]; [constructor|].
  destruct (PyStr.contains p ql) eqn:Hp.
  - exists [], names. by repeat split.
  - destruct (first_mentioned names ql) as [cdp|].
    + destruct IH as (before & after & -> & Hc & Hb).
      exists (p :: before), after. repeat split; [done|by constructor].
    + by constructor.
Qed.

(** X1. [extract_cdp_name] returns the first product of the fixed list
    (segment, mparticle, lytics, zeotap) that occurs in the text as a
    case-insensitive substring, wherever in the text it occurs, and nothing
    exactly when none of the four occurs. *)
Theorem extract_cdp_name_first (text : string) :
  match extract_cdp_name text with
  | Some cdp =>
      exists before after,
        cdp_names = before ++ cdp :: after /\ mentions text cdp /\
        forall p, p ∈ before -> ~ mentions text p
  | None => forall p, p ∈ cdp_names -> ~ mentions text p
  end.
Proof.
  unfold extract_cdp_name.
  pose proof (first_mentioned_spec cdp_names (PyStr.lower text)) as H.
  destruct (first_mentioned cdp_names (PyStr.lower text)) as [cdp|].
  - destruct H as (before & after & Heq & Hc & Hb).
    exists before, after. split; [done|]. split; [by apply mentions_contains|].
    intros p Hp Hm%mentions_contains. rewrite Forall_forall in Hb.
    rewrite (Hb p Hp) in Hm. done.
  - intros p Hp Hm%mentions_contains. rewrite Forall_forall in H.
    rewrite (H p Hp) in Hm. done.
Qed.

Lemma contains_trans a b s :
  PyStr.contains a b = true -> PyStr.contains b s = true ->
  PyStr.contains a s = true.
Proof.
  rewrite !contains_app. intros (p1 & q1 & ->) (p2 & q2 & ->).
  exists (p2 +:+ p1), (q1 +:+ q2). by rewrite !app_assoc.
Qed.

(** X2. A text is a comparison question exactly when, case-insensitively
    and anywhere in the text (inside a word too), it contains "compare",
    "difference between", "versus" or "vs"; the pattern
    "how does .+ compare to" adds nothing to these. *)
Theorem is_comparison_question_iff (text : string) :
  is_comparison_question text = true <->
  mentions text "compare" \/ mentions text "difference between" \/
  mentions text "versus" \/ mentions text "vs".
Proof.
  unfold is_comparison_question, comparison_patterns.
  rewrite !mentions_contains. cbn [any_pattern].
  set (s := PyStr.lower text).
  destruct (search (Lit "compare") s) eqn:H1.
  { apply search_Lit in H1. tauto. }
  destruct (search (Lit "difference between") s) eqn:H2.
  { apply search_Lit in H2. tauto. }
  destruct (search (seqs _) s) eqn:H3.
  { exfalso. apply search_lang in H3 as (pre & m & post & Hs & Hm).
    cbn [seqs] in Hm.
    apply lang_seq_inv in Hm as (s1 & s2 & -> & _ & Hm).
    apply lang_seq_inv in Hm as (s3 & s4 & -> & _ & ->%lang_Lit).
    assert (search (Lit "compare") s = true) as Hc; [|congruence].
    apply search_Lit, contains_app.
    exists (pre +:+ s1 +:+ s3 +:+ " "), (" to" +:+ post).
    rewrite Hs, !app_assoc. done. }
  destruct (search (Lit "versus") s) eqn:H4.
  { apply search_Lit in H4. tauto. }
  destruct (search (Lit "vs") s) eqn:H5.
  { apply search_Lit in H5. tauto. }
  split; [done|].
  intros [H|[H|[H|H]]]; apply search_Lit in H; congruence.
Qed.

End ClassifierMore.

(** ** Features and product lists *)

Section FeaturesMore.
Import Re ReFacts.

Lemma lang_alt_iff bol r1 r2 m :
  lang bol (Alt r1 r2) m <-> lang bol r1 m \/ lang bol r2 m.
Proof.
  split; [apply lang_alt_inv|].
  intros [H|H]; [by apply lang_alt_l|by apply lang_alt_r].
Qed.

Lemma lang_Lit_seq bol a r m :
  lang bol (Seq (Lit a) r) m <->
  exists x, m = a +:+ x /\ lang (bol && is_empty a) r x.
Proof.
  split.
  - intros (s1 & s2 & -> & ->%lang_Lit & H)%lang_seq_inv. eauto.
  - intros (x & -> & H). apply lang_seq; [by apply lang_Lit|done].
Qed.

(** a pattern whose matches are the words of a list is found exactly when
    one of the words is a substring *)
Lemma search_words r (words : list string) s :
  (forall bol m, lang bol r m <-> m ∈ words) ->
  search r s = true <-> exists w, w ∈ words /\ PyStr.contains w s = true.
Proof.
  intros Hr. rewrite search_lang. split.
  - intros (pre & m & post & -> & Hm%Hr). exists m. split; [done|].
    apply contains_app. eauto.
  - intros (w & Hw & (pre & post & ->)%contains_app).
    exists pre, w, post. split; [done|]. by apply Hr.
Qed.

Lemma feature_patterns_words :
  Forall2 (fun (pf : regex * string) (wf : list string * string) =>
             pf.2 = wf.2 /\
             forall bol m, lang bol pf.1 m <-> m ∈ wf.1)
    feature_patterns feature_phrases.
Proof.
  unfold feature_patterns, feature_phrases.
  repeat (constructor; [split; [reflexivity|]|]); [..|constructor];
    cbn [fst snd]; intros bol m; cbn [seqs alts].
  - rewrite lang_Lit_seq. setoid_rewrite lang_alt_iff.
    setoid_rewrite lang_alt_iff. setoid_rewrite lang_Lit.
    rewrite !elem_of_cons, elem_of_nil. split.
    + intros (x & -> & [->|[->| ->]]); tauto.
    + intros [->|[->|[->|[]]]]; eexists; (split; [reflexivity|]); tauto.
  - rewrite lang_Lit_seq. setoid_rewrite lang_alt_iff.
    setoid_rewrite lang_Lit.
    rewrite !elem_of_cons, elem_of_nil. split.
    + intros (x & -> & [->| ->]); tauto.
    + intros [->|[->|[]]]; eexists; (split; [reflexivity|]); tauto.
  - rewrite lang_Lit_seq. setoid_rewrite lang_alt_iff.
    setoid_rewrite lang_Lit.
    rewrite !elem_of_cons, elem_of_nil. split.
    + intros (x & -> & [->| ->]); tauto.
    + intros [->|[->|[]]]; eexists; (split; [reflexivity|]); tauto.
  - rewrite !elem_of_cons, elem_of_nil. split.
    + intros (s1 & s2 & -> & H1 & H2)%lang_seq_inv.
      apply lang_Lit_seq in H2 as (x & -> & H2).
      apply lang_alt_iff in H1 as [->%lang_Lit| ->%lang_Lit];
        apply lang_alt_iff in H2 as [->%lang_Lit| ->%lang_Lit]; tauto.
    + intros [->|[->|[->|[->|[]]]]].
      * apply (lang_seq bol _ _ "source" " connection");
          [by apply lang_alt_l, lang_Lit|].
        apply lang_Lit_seq. eexists; split; [reflexivity|].
        by apply lang_alt_l, lang_Lit.
      * apply (lang_seq bol _ _ "source" " integration");
          [by apply lang_alt_l, lang_Lit|].
        apply lang_Lit_seq. eexists; split; [reflexivity|].
        by apply lang_alt_r, lang_Lit.
      * apply (lang_seq bol _ _ "destination" " connection");
          [by apply lang_alt_r, lang_Lit|].
        apply lang_Lit_seq. eexists; split; [reflexivity|].
        by apply lang_alt_l, lang_Lit.
      * apply (lang_seq bol _ _ "destination" " integration");
          [by apply lang_alt_r, lang_Lit|].
        apply lang_Lit_seq. eexists; split; [reflexivity|].
        by apply lang_alt_r, lang_Lit.
  - rewrite lang_Lit_seq. setoid_rewrite lang_alt_iff.
    setoid_rewrite lang_Lit.
    rewrite !elem_of_cons, elem_of_nil. split.
    + intros (x & -> & [->| ->]); tauto.
    + intros [->|[->|[]]]; eexists; (split; [reflexivity|]); tauto.
  - rewrite lang_Lit_seq. setoid_rewrite lang_alt_iff.
    setoid_rewrite lang_Lit.
    rewrite !elem_of_cons, elem_of_nil. split.
    + intros (x & -> & [->| ->]); tauto.
    + intros [->|[->|[]]]; eexists; (split; [reflexivity|]); tauto.
  - rewrite lang_Lit_seq. setoid_rewrite lang_alt_iff.
    setoid_rewrite lang_Lit.
    rewrite !elem_of_cons, elem_of_nil. split.
    + intros (x & -> & [->| ->]); tauto.
    + intros [->|[->|[]]]; eexists; (split; [reflexivity|]); tauto.
Qed.

Lemma first_feature_spec patterns (table : list (list string * string)) s :
  Forall2 (fun (pf : regex * string) (wf : list string * string) =>
             pf.2 = wf.2 /\
             forall bol m, lang bol pf.1 m <-> m ∈ wf.1) patterns table ->
  match first_feature patterns s with
  | Some feature =>
      exists before phrases after,
        table = before ++ (phrases, feature) :: after /\
        (exists w, w ∈ phrases /\ PyStr.contains w s = true) /\
        Forall (fun wf : list string * string =>
                  forall w, w ∈ wf.1 -> PyStr.contains w s = false) before
  | None =>
      Forall (fun wf : list string * string =>
                forall w, w ∈ wf.1 -> PyStr.contains w s = false) table
  end.
Proof.
  induction 1 as [|[p f] [ws f'] patterns table [Hf Hl] _ IH];
    cbn [first_feature]; [constructor|].
  simpl in Hf, Hl. subst f'.
  pose proof (search_words p ws s Hl) as Hs.
  destruct (search p s) eqn:Hp.
  - exists [], ws, table. split; [done|]. split; [by apply Hs|constructor].
  - assert (forall w, w ∈ ws -> PyStr.contains w s = false) as Hno.
    { intros w Hw. destruct (PyStr.contains w s) eqn:Hc; [|done].
      assert (false = true) as [=]. apply Hs. eauto. }
    destruct (first_feature patterns s) as [feature|].
    + destruct IH as (before & phrases & after & -> & Hw & Hb).
      exists ((ws, f) :: before), phrases, after.
      split; [done|]. split; [done|]. by constructor.
    + by constructor.
Qed.

(** X3. The feature of a comparison is decided by the first entry of the
    fixed table one of whose phrases occurs in the text, whatever the
    letter case: "audience creation|building|segmentation" before
    "data integration|ingestion" and so on; a text in which none of the
    phrases occurs has no feature. A bare label such as "privacy" or
    "connections" is not among the phrases. *)
Theorem extract_feature_first_phrase (text : string) :
  match extract_feature_to_compare text with
  | Some feature =>
      exists before phrases after,
        feature_phrases = before ++ (phrases, feature) :: after /\
        mentions_any text phrases /\
        forall wf, wf ∈ before -> ~ mentions_any text wf.1
  | None => forall wf, wf ∈ feature_phrases -> ~ mentions_any text wf.1
  end.
Proof.
  unfold extract_feature_to_compare.
  pose proof (first_feature_spec feature_patterns feature_phrases
                (PyStr.lower text) feature_patterns_words) as H.
  destruct (first_feature feature_patterns (PyStr.lower text)) as [feature|].
  - destruct H as (before & phrases & after & Heq & (w & Hw & Hc) & Hb).
    exists before, phrases, after. split; [done|]. split.
    + exists w. split; [done|]. by apply mentions_contains.
    + intros wf Hwf (w' & Hw' & Hm%mentions_contains).
      rewrite Forall_forall in Hb. rewrite (Hb wf Hwf w' Hw') in Hm. done.
  - intros wf Hwf (w' & Hw' & Hm%mentions_contains).
    rewrite Forall_forall in H. rewrite (H wf Hwf w' Hw') in Hm. done.
Qed.

Lemma filter_sublist {A} (f : A -> bool) (l : list A) :
  List.filter f l `sublist_of` l.
Proof.
  induction l as [|x l IH]; simpl; [done|]. destruct (f x); by constructor.
Qed.

(** X4. The products of a comparison come in the order of the fixed list
    (segment, mparticle, lytics, zeotap), not in the order in which the
    text names them: the list is a sublist of the fixed one, and it holds
    exactly the products that occur in the text. *)
Theorem extract_cdps_in_fixed_order (text : string) (cdps : list string) :
  extract_cdps_to_compare text = Some cdps ->
  cdps `sublist_of` cdp_names /\
  (2 <= length cdps)%nat /\
  forall cdp, cdp ∈ cdps <-> cdp ∈ cdp_names /\ mentions text cdp.
Proof.
  intros H. destruct (extract_cdps_spec _ _ H) as (Hlen & _ & Hin).
  split; [|by split].
  unfold extract_cdps_to_compare in H. rewrite mentioned_from_filter in H.
  cbn [app] in H.
  revert H. generalize (filter_sublist
    (fun cdp => PyStr.contains cdp (PyStr.lower text)) cdp_names).
  generalize (List.filter
    (fun cdp => PyStr.contains cdp (PyStr.lower text)) cdp_names).
  intros l Hl. destruct (2 <=? length l)%nat; [|done]. by intros [= <-].
Qed.

Lemma extract_cdps_in_fixed_order_witness :
  extract_cdps_to_compare "Lytics vs Segment" = Some ["segment"; "lytics"] /\
  ["segment"; "lytics"] `sublist_of` cdp_names.
Proof.
  assert (extract_cdps_to_compare "Lytics vs Segment"
          = Some ["segment"; "lytics"]) as H by (by vm_compute).
  split; [exact H|].
  exact (proj1 (extract_cdps_in_fixed_order "Lytics vs Segment"
                  ["segment"; "lytics"] H)).
Defined.

Lemma first_mentioned_filter names ql :
  first_mentioned names ql =
    head (List.filter (fun cdp => PyStr.contains cdp ql) names).
Proof.
  induction names as [|p names IH]; cbn [first_mentioned List.filter]; [done|].
  by destruct (PyStr.contains p ql).
Qed.

(** X5. On a text with a product list for comparison, the single product
    that [extract_cdp_name] finds is the first of that list. *)
Theorem extract_cdp_name_head (text : string) (cdps : list string) :
  extract_cdps_to_compare text = Some cdps ->
  extract_cdp_name text = head cdps.
Proof.
  unfold extract_cdps_to_compare, extract_cdp_name.
  rewrite mentioned_from_filter, first_mentioned_filter. cbn [app].
  generalize (List.filter
    (fun cdp => PyStr.contains cdp (PyStr.lower text)) cdp_names).
  intros l. destruct (2 <=? length l)%nat; [|done]. by intros [= <-].
Qed.

Lemma extract_cdp_name_head_witness :
  extract_cdps_to_compare "Zeotap versus mParticle"
    = Some ["mparticle"; "zeotap"] /\
  extract_cdp_name "Zeotap versus mParticle" = Some "mparticle".
Proof.
  assert (extract_cdps_to_compare "Zeotap versus mParticle"
          = Some ["mparticle"; "zeotap"]) as H by (by vm_compute).
  split; [exact H|].
  exact (extract_cdp_name_head "Zeotap versus mParticle"
           ["mparticle"; "zeotap"] H).
Defined.

End FeaturesMore.

(** * Further properties of [search] *)

Section SearchMore.

Lemma truthy_nonempty f : f <> EmptyString -> truthy (Some f) = Some f.
Proof. by destruct f. Qed.

Lemma search_filter_results eng query top_k f (h : heap) rs (h' : heap) :
  chunks_live h eng -> f <> EmptyString ->
  search eng query top_k (Some f) h = (Ok rs, h') ->
  Forall (fun r => exists d src,
            h' !! r = Some d /\ d !! "source" = Some (PStr src) /\
            PyStr.lower src = PyStr.lower f) rs.
Proof.
  intros Hlive Hf (top & new & Htop & -> & Hcp & Hrs)%search_results.
  pose proof (top_indices_spec _ _ _ _ _ _ Htop) as (_ & _ & _ & _ & Hflt & _).
  specialize (Hflt f (truthy_nonempty f Hf)).
  pose proof (copies_of_chunks _ _ _ _ Hlive Hcp) as Hch.
  apply Forall_lookup. intros i r Hr.
  destruct (Forall2_lookup_l _ _ _ _ _ Hrs Hr) as (d' & Hd' & _ & Hh').
  destruct (Forall2_lookup_r _ _ _ _ _ Hch Hd')
    as (hit & Hhit & c & d & Hc & Hd & ->).
  assert (hit ∈ top) as Hin.
  { apply (sublist_subseteq _ _ (above_floor_sublist top)).
    by eapply list_elem_of_lookup_2. }
  rewrite Forall_forall in Hflt.
  destruct (Hflt hit Hin) as (c' & d0 & src & Hc' & Hd0 & Hsrc & Hlow).
  assert (d0 = d) as -> by congruence.
  exists (<["score" := PFloat hit.2]> d), src. split; [done|]. split; [|done].
  by rewrite lookup_insert_ne.
Qed.

(** X6. Under a product filter, every result of a search is a chunk of
    that product: its ['source'] equals the filter up to letter case. *)
Theorem search_filter_respected
    (eng : QueryEngine) (query : string) (top_k : Z) (f : string)
    (h : heap) (rs : list loc) (h' : heap) :
  chunks_live h eng -> f <> EmptyString ->
  search eng query top_k (Some f) h = (Ok rs, h') ->
  Forall (fun r => exists d src,
            h' !! r = Some d /\ d !! "source" = Some (PStr src) /\
            PyStr.lower src = PyStr.lower f) rs.
Proof. apply search_filter_results. Qed.

Lemma search_filter_respected_witness :
  chunks_live example_heap example_engine /\
  forall rs h',
    search example_engine "how to source audience" 5 (Some "SEGMENT")
      example_heap = (Ok rs, h') ->
    Forall (fun r => exists d src,
              h' !! r = Some d /\ d !! "source" = Some (PStr src) /\
              PyStr.lower src = PyStr.lower "SEGMENT") rs.
Proof.
  split; [exact (index_ok_live _ _ example_index_ok)|].
  intros rs h'.
  apply (search_filter_respected example_engine "how to source audience" 5
           "SEGMENT" example_heap rs h' (index_ok_live _ _ example_index_ok)).
  done.
Defined.

Lemma collect_results_none eng top results h :
  Forall (fun x : nat * Q => (x.2 <= 1 # 10)%Q) top ->
  collect_results eng top results h = (Ok results, h).
Proof.
  induction 1 as [|[idx score] top Hx _ IH]; [done|].
  cbn [collect_results]. simpl in Hx.
  by rewrite (proj2 (Qgtb_false score (1 # 10)) Hx).
Qed.

Lemma search_none_above_floor eng q k f h sims :
  index_ok h eng -> similarities_of eng q = Ok sims ->
  Forall (fun s => (s <= 1 # 10)%Q) sims ->
  search eng q k f h = (Ok [], h).
Proof.
  intros Hok Hsims Hlow. rewrite search_unfold.
  destruct (top_indices_ok eng q k f h Hok) as [top Htop]. rewrite Htop.
  apply collect_results_none.
  apply top_indices_spec in Htop as (sims' & Hsims' & _ & Hsc & _).
  assert (sims' = sims) as -> by congruence.
  eapply Forall_impl; [exact Hsc|]. simpl. intros x Hx.
  rewrite Forall_forall in Hlow. apply Hlow. by eapply list_elem_of_lookup_2.
Qed.

(** X7. When no chunk scores above 0.1 against the query, a search on a
    well-formed index returns the empty list and allocates nothing,
    whatever [top_k] and the filter are. *)
Theorem search_empty_below_floor
    (eng : QueryEngine) (query : string) (top_k : Z)
    (cdp_filter : option string) (h : heap) (sims : list Q) :
  index_ok h eng -> similarities_of eng query = Ok sims ->
  Forall (fun s => (s <= 1 # 10)%Q) sims ->
  search eng query top_k cdp_filter h = (Ok [], h).
Proof. apply search_none_above_floor. Qed.

Lemma search_empty_below_floor_witness :
  index_ok example_heap example_engine /\
  search example_engine "how to export events" 5 (Some "segment") example_heap
    = (Ok [], example_heap).
Proof.
  split; [exact example_index_ok|].
  apply (search_empty_below_floor example_engine "how to export events" 5
           (Some "segment") example_heap
           (map (fun r => row_dot r []) (rows example_matrix))
           example_index_ok).
  - by vm_compute.
  - repeat constructor; apply Qle_bool_iff; by vm_compute.
Defined.

Lemma cdp_indices_from_agree i chunks fl (g h : heap) :
  (forall c, c ∈ chunks -> g !! c = h !! c) ->
  cdp_indices_from i chunks fl g = cdp_indices_from i chunks fl h.
Proof.
  revert i. induction chunks as [|c chunks IH]; intros i Hag; [done|].
  cbn [cdp_indices_from]. unfold dict_getitem.
  rewrite (Hag c) by left. rewrite (IH (S i)); [done|].
  intros c' Hc'. apply Hag. by right.
Qed.

Lemma top_indices_agree eng q k f (g h : heap) :
  (forall c, c ∈ chunks eng -> g !! c = h !! c) ->
  top_indices_of eng q k f g = top_indices_of eng q k f h.
Proof.
  intros Hag. unfold top_indices_of.
  destruct (similarities_of eng q) as [sims|]; [|done]. simpl.
  destruct (truthy f) as [f'|]; [|done].
  by rewrite (cdp_indices_from_agree _ _ _ g h Hag).
Qed.

Lemma agree_grow eng (g h : heap) d :
  chunks_live h eng ->
  (forall c, c ∈ chunks eng -> g !! c = h !! c) ->
  chunks_live (h ++ [d]) eng /\
  forall c, c ∈ chunks eng -> (g ++ [d]) !! c = (h ++ [d]) !! c.
Proof.
  intros Hlive Hag. split.
  - intros c Hc. destruct (Hlive c Hc) as [x Hx]. exists x.
    by apply lookup_app_l_Some.
  - intros c Hc. destruct (Hlive c Hc) as [x Hx].
    rewrite (lookup_app_l_Some h _ _ _ Hx).
    apply lookup_app_l_Some. by rewrite (Hag c Hc).
Qed.

Lemma copies_agree eng (g h : heap) hits new :
  chunks_live h eng ->
  (forall c, c ∈ chunks eng -> g !! c = h !! c) ->
  copies eng h hits new -> copies eng g hits new.
Proof.
  intros Hlive Hag Hcp. revert g Hlive Hag.
  induction Hcp as [|h idx score hits c d new Hc Hd Hcp IH]; intros g Hlive Hag.
  - constructor.
  - econstructor; [exact Hc| |].
    + rewrite Hag; [done|]. by eapply list_elem_of_lookup_2.
    + destruct (agree_grow eng g h (<["score" := PFloat score]> d) Hlive Hag).
      by apply IH.
Qed.

Lemma above_floor_cons idx score top :
  above_floor ((idx, score) :: top) =
    if Qgtb score (1 # 10) then (idx, score) :: above_floor top
    else above_floor top.
Proof. reflexivity. Qed.

Lemma collect_results_of_copies eng top results (g : heap) new :
  copies eng g (above_floor top) new ->
  collect_results eng top results g =
    (Ok (results ++ seq (length g) (length new)), g ++ new).
Proof.
  revert results g new.
  induction top as [|[idx score] top IH]; intros results g new Hcp.
  - inversion Hcp; subst. simpl. by rewrite !app_nil_r.
  - rewrite above_floor_cons in Hcp. cbn [collect_results].
    destruct (Qgtb score (1 # 10)); [|by apply IH].
    inversion Hcp as [|? ? ? ? c d new' Hc Hd Hcp']; subst.
    unfold bind at 1, lift, reading, list_getitem. rewrite Hc.
    unfold bind at 1, dict_copy. rewrite Hd.
    unfold bind at 1, dict_setitem.
    rewrite (lookup_app_r g [d] (length g)) by lia.
    rewrite Nat.sub_diag. cbn [lookup list_lookup].
    replace (<[length g := <["score" := PFloat score]> d]> (g ++ [d]))
      with (g ++ [<["score" := PFloat score]> d]).
    2:{ rewrite insert_app_r_alt by lia. by rewrite Nat.sub_diag. }
    rewrite (IH _ _ _ Hcp'). rewrite <- !app_assoc, length_app. simpl.
    by rewrite Nat.add_1_r.
Qed.

(** X8. A search does not depend on the searches made before it: run
    again on the heap an earlier call left, the same query returns as many
    results, new objects again, holding the same items as the results of
    the earlier call. *)
Theorem search_repeatable
    (eng : QueryEngine) (query : string) (top_k : Z)
    (cdp_filter : option string) (h : heap) (rs : list loc) (h1 : heap) :
  chunks_live h eng ->
  search eng query top_k cdp_filter h = (Ok rs, h1) ->
  exists rs' h2,
    search eng query top_k cdp_filter h1 = (Ok rs', h2) /\
    Forall (fun r' => h1 !! r' = None) rs' /\
    (fun r' => h2 !! r') <$> rs' = (fun r => h1 !! r) <$> rs.
Proof.
  intros Hlive (top & new & Htop & -> & -> & Hcp)%search_inv.
  assert (forall c, c ∈ chunks eng -> (h ++ new) !! c = h !! c) as Hag.
  { intros c Hc. destruct (Hlive c Hc) as [x Hx]. rewrite Hx.
    by apply lookup_app_l_Some. }
  exists (seq (length (h ++ new)) (length new)), ((h ++ new) ++ new).
  split; [|split].
  - rewrite search_unfold, (top_indices_agree _ _ _ _ _ h Hag), Htop.
    apply (collect_results_of_copies eng top [] (h ++ new) new).
    by apply (copies_agree eng (h ++ new) h).
  - apply Forall_forall. intros r' [Hr _]%elem_of_seq.
    apply lookup_ge_None. lia.
  - apply list_eq. intros i. rewrite !list_lookup_fmap.
    destruct (decide (i < length new)%nat) as [Hi|Hi].
    + rewrite !lookup_seq_lt by done. simpl.
      rewrite (lookup_app_r (h ++ new)) by lia.
      rewrite (lookup_app_r h) by lia. do 2 f_equal. lia.
    + by rewrite !lookup_seq_ge by lia.
Qed.

Lemma search_repeatable_witness :
  chunks_live example_heap example_engine /\
  exists rs h1 rs' h2,
    search example_engine "how to source" 5 None example_heap = (Ok rs, h1) /\
    search example_engine "how to source" 5 None h1 = (Ok rs', h2) /\
    (fun r' => h2 !! r') <$> rs' = (fun r => h1 !! r) <$> rs.
Proof.
  split; [exact (index_ok_live _ _ example_index_ok)|].
  destruct (search_total example_engine "how to source" 5 None example_heap
              example_index_ok) as (rs & h1 & Hs).
  destruct (search_repeatable example_engine "how to source" 5 None
              example_heap rs h1 (index_ok_live _ _ example_index_ok) Hs)
    as (rs' & h2 & Hs' & _ & Heq).
  exists rs, h1, rs', h2. split; [exact Hs|]. split; [exact Hs'|exact Heq].
Defined.

Lemma above_floor_all top :
  Forall (fun x : nat * Q => (1 # 10 < x.2)%Q) top -> above_floor top = top.
Proof.
  induction 1 as [|x top Hx _ IH]; [done|].
  unfold above_floor in *. simpl.
  rewrite (proj2 (Qgtb_true x.2 (1 # 10)) Hx). by rewrite IH.
Qed.

Lemma Forall2_through {A B C} (P : A -> B -> Prop) (Q : C -> B -> Prop)
    (R : A -> C -> Prop) l k m :
  (forall x y z, P x y -> Q z y -> R x z) ->
  Forall2 P l k -> Forall2 Q m k -> Forall2 R l m.
Proof.
  intros HR H. revert m.
  induction H as [|x y l k Hxy _ IH]; intros m Hm;
    inversion Hm; subst; constructor; eauto.
Qed.

(** X9. A negative [top_k] is not refused: as a slice bound it cuts from
    the end. On a well-formed index whose chunks all score above 0.1, a
    search without filter then returns all chunks but the [-top_k] lowest
    ranked ones (none, when there are not that many): the ranking holds
    every corpus position once, with its score, by non-increasing score
    and equal scores in corpus order, and the results are, in order,
    copies of the chunks of the ranking without its last [-top_k] entries,
    each with the score of its entry. *)
Theorem search_negative_top_k
    (eng : QueryEngine) (query : string) (top_k : Z) (h : heap)
    (sims : list Q) :
  index_ok h eng -> (top_k < 0)%Z ->
  similarities_of eng query = Ok sims ->
  Forall (fun s => (1 # 10 < s)%Q) sims ->
  exists ranking rs h',
    ranking ≡ₚ imap pair sims /\
    StronglySorted ranks_before ranking /\
    length ranking = length (chunks eng) /\
    search eng query top_k None h = (Ok rs, h') /\
    length rs = (length (chunks eng) - Z.to_nat (- top_k))%nat /\
    Forall2 (fun (hit : nat * Q) r =>
               exists c d,
                 chunks eng !! hit.1 = Some c /\ h !! c = Some d /\
                 h' !! r = Some (<["score" := PFloat hit.2]> d))
      (take (length ranking - Z.to_nat (- top_k)) ranking) rs.
Proof.
  intros Hok Hk Hsims Hhigh.
  destruct (search_total eng query top_k None h Hok) as (rs & h' & Hs).
  exists (sorted_desc (imap pair sims)), rs, h'.
  assert (length (sorted_desc (imap pair sims)) = length (chunks eng)) as Hlen.
  { rewrite (Permutation_length (sorted_desc_perm _)), length_imap.
    rewrite (similarities_of_length _ _ _ Hsims). by destruct Hok as (-> & _). }
  split; [apply sorted_desc_perm|].
  split; [apply sorted_desc_sorted; apply (imap_pair_increasing sims 0)|].
  split; [exact Hlen|]. split; [exact Hs|].
  apply search_results in Hs as (top & new & Htop & -> & Hcp & Hrs).
  pose proof (top_indices_spec _ _ _ _ _ _ Htop) as (sims' & Hsims' & _ & Hsc & _).
  assert (sims' = sims) as -> by congruence.
  rewrite above_floor_all in Hcp.
  2:{ eapply Forall_impl; [exact Hsc|]. simpl. intros x Hx.
      rewrite Forall_forall in Hhigh. apply Hhigh.
      by eapply list_elem_of_lookup_2. }
  unfold top_indices_of in Htop. rewrite Hsims in Htop. simpl in Htop.
  injection Htop as <-. unfold slice_to in *.
  rewrite (proj2 (Z.leb_gt 0 top_k) Hk) in *.
  split.
  - rewrite (Forall2_length _ _ _ Hrs), (copies_length _ _ _ _ Hcp).
    rewrite length_take, Hlen. lia.
  - pose proof (copies_of_chunks _ _ _ _ (index_ok_live _ _ Hok) Hcp) as Hch.
    eapply Forall2_through; [|exact Hch|exact Hrs].
    intros hit d' r (c & d & Hc & Hd & ->) [_ Hr]. by exists c, d.
Qed.

Lemma search_negative_top_k_witness :
  index_ok example_heap example_engine /\
  exists ranking rs h',
    search example_engine "how to source audience" (-1) None example_heap
      = (Ok rs, h') /\
    length rs = 3%nat /\
    Forall2 (fun (hit : nat * Q) r =>
               exists c d,
                 chunks example_engine !! hit.1 = Some c /\
                 example_heap !! c = Some d /\
                 h' !! r = Some (<["score" := PFloat hit.2]> d))
      (take (length ranking - 1) ranking) rs.
Proof.
  split; [exact example_index_ok|].
  destruct (search_negative_top_k example_engine "how to source audience" (-1)
              example_heap
              (map (fun r => row_dot r [(0%nat, 1 # 2); (1%nat, 1 # 2)])
                 (rows example_matrix))
              example_index_ok)
    as (ranking & rs & h' & _ & _ & _ & Hs & Hlen & Hrs).
  - done.
  - by vm_compute.
  - repeat constructor; apply Qgtb_true; by vm_compute.
  - exists ranking, rs, h'. split; [exact Hs|]. split; [exact Hlen|exact Hrs].
Defined.

Lemma weight_at_zero qv j :
  Forall (fun e : nat * Q => (e.2 == 0)%Q) qv -> (weight_at qv j == 0)%Q.
Proof.
  induction 1 as [|e qv He _ IH]; simpl; [reflexivity|].
  destruct (e.1 =? j)%nat; [|done]. rewrite He, IH. reflexivity.
Qed.

Lemma row_dot_zero r qv :
  Forall (fun e : nat * Q => (e.2 == 0)%Q) qv -> (row_dot r qv == 0)%Q.
Proof.
  intros Hqv. induction r as [|e r IH]; simpl; [reflexivity|].
  rewrite (weight_at_zero qv e.1 Hqv), IH. ring.
Qed.

(** X10. A query none of whose words is in the vocabulary (its vector has
    no weight) finds nothing: on a well-formed index the search returns the
    empty list and allocates nothing, with or without filter. *)
Theorem search_out_of_vocabulary
    (eng : QueryEngine) (query : string) (top_k : Z)
    (cdp_filter : option string) (h : heap) :
  index_ok h eng ->
  Forall (fun e : nat * Q => (e.2 == 0)%Q)
    (transform (vectorizer eng) (preprocess_query query)) ->
  search eng query top_k cdp_filter h = (Ok [], h).
Proof.
  intros Hok Hqv.
  apply (search_none_above_floor eng query top_k cdp_filter h
           (map (fun r => row_dot r (transform (vectorizer eng)
                                        (preprocess_query query)))
              (rows (chunk_vectors eng)))); [done| |].
  - unfold similarities_of. destruct Hok as (_ & -> & _).
    by rewrite Nat.eqb_refl.
  - apply Forall_forall. intros s Hs. apply list_elem_of_In, in_map_iff in Hs.
    destruct Hs as (r & <- & _). rewrite (row_dot_zero r _ Hqv). done.
Qed.

Lemma search_out_of_vocabulary_witness :
  index_ok example_heap example_engine /\
  search example_engine "How do I export events?" 3 None example_heap
    = (Ok [], example_heap).
Proof.
  split; [exact example_index_ok|].
  apply (search_out_of_vocabulary example_engine "How do I export events?" 3
           None example_heap example_index_ok).
  by vm_compute.
Defined.

End SearchMore.

(** * Further properties of [query] *)

Section QueryMore.

Lemma search_length eng q k f h rs h' :
  (0 <= k)%Z -> search eng q k f h = (Ok rs, h') ->
  (Z.of_nat (length rs) <= k)%Z.
Proof.
  intros Hk (top & new & Htop & _ & Hcp & Hrs)%search_results.
  pose proof (top_indices_spec _ _ _ _ _ _ Htop) as (_ & _ & _ & _ & _ & Hlen).
  specialize (Hlen Hk).
  rewrite (Forall2_length _ _ _ Hrs), (copies_length _ _ _ _ Hcp).
  pose proof (sublist_length _ _ (above_floor_sublist top)). lia.
Qed.

Lemma search_empty_heap eng q k f h h' :
  search eng q k f h = (Ok [], h') -> h' = h.
Proof.
  intros (top & new & _ & -> & Hrs & _)%search_inv.
  destruct new; [by rewrite app_nil_r|done].
Qed.

Lemma extract_cdp_name_known text cdp :
  extract_cdp_name text = Some cdp -> cdp ∈ cdp_names.
Proof.
  unfold extract_cdp_name.
  pose proof (first_mentioned_spec cdp_names (PyStr.lower text)) as H.
  intros Heq. rewrite Heq in H. destruct H as (before & after & -> & _).
  apply elem_of_app. right. by left.
Qed.

Lemma cdp_names_not_empty cdp : cdp ∈ cdp_names -> cdp <> EmptyString.
Proof.
  unfold cdp_names. intros H ->.
  repeat (apply elem_of_cons in H as [H|H]; [done|]).
  by apply elem_of_nil in H.
Qed.

Lemma query_how_to_run eng text h :
  index_ok h eng -> is_how_to_question text = true ->
  exists rs h',
    search eng text 3 (extract_cdp_name text) h = (Ok rs, h') /\
    query eng text h =
      (Ok match rs with
          | [] =>
              match extract_cdp_name text with
              | Some cdp =>
                  NoResults
                    ("I couldn't find specific information about how to "
                     +:+ PyStr.strip
                           (PyStr2.replace "how to" EmptyString
                              (PyStr2.replace "how do i" EmptyString
                                 (PyStr.lower text)))
                     +:+ " in " +:+ PyStr2.capitalize cdp
                     +:+ ". Could you try rephrasing your question or ask about a different feature?")
              | None =>
                  NoResults
                    "I couldn't find specific information about that. Could you specify which CDP (Segment, mParticle, Lytics, or Zeotap) you're asking about?"
              end
          | _ => Results (extract_cdp_name text) text rs
          end,
       match rs with [] => h | _ => h' end).
Proof.
  intros Hok Hq.
  destruct (search_total eng text 3 (extract_cdp_name text) h Hok)
    as (rs & h' & Hs).
  exists rs, h'. split; [done|].
  unfold query. rewrite Hq. cbn [negb]. unfold bind. rewrite Hs.
  destruct rs as [|r rs]; [|done].
  rewrite (search_empty_heap _ _ _ _ _ _ Hs).
  destruct (extract_cdp_name text) as [cdp|] eqn:Hcdp; [|done].
  rewrite truthy_nonempty; [done|].
  by apply cdp_names_not_empty, (extract_cdp_name_known text).
Qed.

(** X11. A how-to question on a well-formed index is answered from one
    search of the text itself with [top_k = 3], filtered by the first known
    product in the text if there is one. With no hit the outcome is
    [NoResults], nothing is allocated, and the message names the
    capitalised product or, without a product, asks which of the four is
    meant; otherwise the outcome is [Results] with that product, the text
    as given and the one to three results of the search. *)
Theorem query_how_to (eng : QueryEngine) (text : string) (h : heap) :
  index_ok h eng -> is_how_to_question text = true ->
  exists rs h',
    search eng text 3 (extract_cdp_name text) h = (Ok rs, h') /\
    (length rs <= 3)%nat /\
    query eng text h =
      (Ok match rs with
          | [] =>
              match extract_cdp_name text with
              | Some cdp =>
                  NoResults
                    ("I couldn't find specific information about how to "
                     +:+ PyStr.strip
                           (PyStr2.replace "how to" EmptyString
                              (PyStr2.replace "how do i" EmptyString
                                 (PyStr.lower text)))
                     +:+ " in " +:+ PyStr2.capitalize cdp
                     +:+ ". Could you try rephrasing your question or ask about a different feature?")
              | None =>
                  NoResults
                    "I couldn't find specific information about that. Could you specify which CDP (Segment, mParticle, Lytics, or Zeotap) you're asking about?"
              end
          | _ => Results (extract_cdp_name text) text rs
          end,
       match rs with [] => h | _ => h' end).
Proof.
  intros Hok Hq.
  destruct (query_how_to_run eng text h Hok Hq) as (rs & h' & Hs & Hqr).
  exists rs, h'. split; [done|]. split; [|done].
  pose proof (search_length _ _ _ _ _ _ _ (ltac:(lia) : (0 <= 3)%Z) Hs). lia.
Qed.

Lemma query_how_to_witness :
  index_ok example_heap example_engine /\
  exists rs h',
    search example_engine "How do I add a source in Segment?" 3
      (extract_cdp_name "How do I add a source in Segment?") example_heap
      = (Ok rs, h') /\
    (length rs <= 3)%nat.
Proof.
  split; [exact example_index_ok|].
  destruct (query_how_to example_engine "How do I add a source in Segment?"
              example_heap example_index_ok)
    as (rs & h' & Hs & Hlen & _); [by vm_compute|].
  exists rs, h'. split; [exact Hs|exact Hlen].
Defined.

Lemma query_run_ok eng text (h : heap) :
  index_ok h eng ->
  exists out h',
    query eng text h = (Ok out, h') /\
    (forall l d, h !! l = Some d -> h' !! l = Some d) /\
    match out with
    | NotHowTo _ | NoResults _ => h' = h
    | Results _ _ rs => rs <> []
    | _ => False
    end.
Proof.
  intros Hok. destruct (is_how_to_question text) eqn:Hq.
  - destruct (query_how_to_run eng text h Hok Hq) as (rs & h' & Hs & Hqr).
    rewrite Hqr. pose proof (search_heap _ _ _ _ _ _ _ Hs) as [new ->].
    destruct rs as [|r rs].
    + eexists _, _. split; [reflexivity|]. split; [done|].
      by destruct (extract_cdp_name text).
    + eexists _, _. split; [reflexivity|]. split; [|done].
      intros l d Hl. by apply lookup_app_l_Some.
  - unfold query. rewrite Hq. by eexists _, _.
Qed.

(** X12. On a well-formed index [query] raises for no text, it leaves
    every object of the heap as it was, and its outcome is [NotHowTo],
    [NoResults] or [Results], the last with at least one result. *)
Theorem query_never_raises (eng : QueryEngine) (text : string) (h : heap) :
  index_ok h eng ->
  exists out h',
    query eng text h = (Ok out, h') /\
    (forall l d, h !! l = Some d -> h' !! l = Some d) /\
    match out with
    | NotHowTo _ | NoResults _ => h' = h
    | Results _ _ rs => rs <> []
    | _ => False
    end.
Proof. apply query_run_ok. Qed.

Lemma query_never_raises_witness :
  index_ok example_heap example_engine /\
  exists out h',
    query example_engine "How can I build an audience in Lytics?" example_heap
      = (Ok out, h') /\
    forall l d, example_heap !! l = Some d -> h' !! l = Some d.
Proof.
  split; [exact example_index_ok|].
  destruct (query_never_raises example_engine
              "How can I build an audience in Lytics?" example_heap
              example_index_ok) as (out & h' & Hq & Hfr & _).
  exists out, h'. split; [exact Hq|exact Hfr].
Defined.

End QueryMore.

(** * Further properties of [compare_cdps] *)

Section CompareMore.

(** X13. [compare_cdps] consults neither the index nor the heap before a
    feature and at least two products are found: a text that is not a
    comparison gets [None], and a comparison in which no feature phrase
    occurs gets the [ComparisonError] that lists the products understood,
    in the order of the fixed list and separated by ", " - on any engine,
    a malformed one too. *)
Theorem compare_cdps_early_exits
    (eng : QueryEngine) (text : string) (h : heap) :
  (is_comparison_question text = false ->
   compare_cdps eng text h = (Ok None, h)) /\
  (forall cdps,
     is_comparison_question text = true ->
     extract_cdps_to_compare text = Some cdps ->
     extract_feature_to_compare text = None ->
     compare_cdps eng text h =
       (Ok (Some (ComparisonError
          ("I can compare " +:+ String.concat ", " cdps
           +:+ ", but I need to know which feature you want to compare. For example, you can ask about audience creation, data integration, user profiles, etc."))),
        h)).
Proof.
  split.
  - intros Hc. unfold compare_cdps. by rewrite Hc.
  - intros cdps Hc Hcdps Hf. unfold compare_cdps. rewrite Hc, Hcdps, Hf.
    destruct (extract_cdps_spec _ _ Hcdps) as (Hlen & _).
    destruct cdps; [simpl in Hlen; lia|done].
Qed.

Lemma searches_heap eng feature cdps h found h' :
  searches eng feature cdps h found h' -> exists new, h' = h ++ new.
Proof.
  induction 1 as [h|cdp cdps h rs h1 found h2 Hs _ [new2 ->]].
  - exists []. by rewrite app_nil_r.
  - apply search_heap in Hs as [new1 ->]. exists (new1 ++ new2).
    by rewrite app_assoc.
Qed.

Lemma chunks_live_grow h eng new :
  chunks_live h eng -> chunks_live (h ++ new) eng.
Proof.
  intros Hlive c Hc. destruct (Hlive c Hc) as [d Hd]. exists d.
  by apply lookup_app_l_Some.
Qed.

(** what each of the successive searches of a comparison returns, read in
    the heap the last of them leaves *)
Lemma searches_results eng feature cdps h found h' :
  chunks_live h eng ->
  Forall (fun cdp => cdp <> EmptyString) cdps ->
  searches eng feature cdps h found h' ->
  Forall2 (fun cdp rs =>
             (length rs <= 2)%nat /\
             Forall (fun r => exists d src,
                       h' !! r = Some d /\ d !! "source" = Some (PStr src) /\
                       PyStr.lower src = PyStr.lower cdp) rs) cdps found.
Proof.
  intros Hlive Hne Hss. revert Hlive Hne.
  induction Hss as [h|cdp cdps h rs h1 found h2 Hs Hss IH]; intros Hlive Hne.
  - constructor.
  - apply Forall_cons in Hne as [Hcdp Hne].
    pose proof (search_heap _ _ _ _ _ _ _ Hs) as [new1 ->].
    pose proof (searches_heap _ _ _ _ _ _ Hss) as [new2 ->].
    constructor.
    + split.
      * pose proof (search_length _ _ _ _ _ _ _ (ltac:(lia) : (0 <= 2)%Z) Hs).
        lia.
      * pose proof (search_filter_results _ _ _ _ _ _ _ Hlive Hcdp Hs) as Hf.
        eapply Forall_impl; [exact Hf|]. simpl.
        intros r (d & src & Hd & Hrest). exists d, src.
        split; [by apply lookup_app_l_Some|done].
    + apply IH; [by apply chunks_live_grow|done].
Qed.

Lemma compare_cdps_inv eng text (h : heap) feature cdps data (h' : heap) :
  compare_cdps eng text h = (Ok (Some (Comparison feature cdps data)), h') ->
  is_comparison_question text = true /\
  extract_cdps_to_compare text = Some cdps /\
  extract_feature_to_compare text = Some feature /\
  compare_each eng feature cdps ∅ h = (Ok data, h').
Proof.
  unfold compare_cdps. destruct (is_comparison_question text); [|done].
  cbn [negb]. destruct (extract_cdps_to_compare text) as [[|c cdps0]|]; [done| |done].
  destruct (extract_feature_to_compare text) as [[|a f]|]; [done| |done].
  unfold bind.
  destruct (compare_each eng (String a f) (c :: cdps0) ∅ h)
    as [[data0|e] h0] eqn:Hce; [|done].
  destruct (decide (data0 = ∅)); [done|]. unfold ret.
  intros [= <- <- <- <-]. by rewrite Hce.
Qed.

(** X14. In a [Comparison] built on a well-formed index, every product of
    the result map is one of the listed products, and its entry holds one
    or two results, each a chunk whose ['source'] is that product up to
    letter case. *)
Theorem comparison_results_per_product
    (eng : QueryEngine) (text : string) (h : heap)
    (feature : string) (cdps : list string)
    (data : gmap string (list loc)) (h' : heap) :
  index_ok h eng ->
  compare_cdps eng text h = (Ok (Some (Comparison feature cdps data)), h') ->
  forall cdp rs,
    data !! cdp = Some rs ->
    cdp ∈ cdps /\ (1 <= length rs <= 2)%nat /\
    Forall (fun r => exists d src,
              h' !! r = Some d /\ d !! "source" = Some (PStr src) /\
              PyStr.lower src = PyStr.lower cdp) rs.
Proof.
  intros Hok (_ & Hcdps & _ & Hce)%compare_cdps_inv cdp rs Hd.
  destruct (extract_cdps_spec _ _ Hcdps) as (_ & Hnd & Hin).
  destruct (compare_each_spec eng feature cdps ∅ h Hok Hnd)
    as (found & h1 & data1 & Hss & Hce1 & Hdata).
  { intros; apply lookup_empty. }
  rewrite Hce in Hce1. injection Hce1 as <- <-.
  apply Hdata in Hd as [[Hz Hne]|Hd]; [|by rewrite lookup_empty in Hd].
  apply elem_of_lookup_zip_with in Hz as (i & cdp' & rs' & [= <- <-] & Hi & Hf).
  assert (Forall (fun c => c <> EmptyString) cdps) as Hnes.
  { apply Forall_forall. intros c Hc. apply cdp_names_not_empty.
    by apply Hin in Hc as [? _]. }
  pose proof (searches_results _ _ _ _ _ _ (index_ok_live _ _ Hok) Hnes Hss)
    as Hres.
  destruct (Forall2_lookup_lr _ _ _ _ _ _ Hres Hi Hf) as [Hlen Hall].
  split; [by eapply list_elem_of_lookup_2|]. split; [|done].
  destruct rs; [done|]. simpl in *. lia.
Qed.

Lemma comparison_results_per_product_witness :
  index_ok example_heap example_engine /\
  exists data h',
    compare_cdps example_engine
      "Compare audience creation between Segment, Lytics and Zeotap"
      example_heap
    = (Ok (Some (Comparison "audience creation"
                   ["segment"; "lytics"; "zeotap"] data)), h') /\
    forall cdp rs, data !! cdp = Some rs -> (1 <= length rs <= 2)%nat.
Proof.
  split; [exact example_index_ok|].
  assert (match (compare_cdps example_engine
                   "Compare audience creation between Segment, Lytics and Zeotap"
                   example_heap).1 with
          | Ok (Some (Comparison f c _)) =>
              bool_decide (f = "audience creation" /\
                           c = ["segment"; "lytics"; "zeotap"])
          | _ => false
          end = true) as Ht by (vm_compute; reflexivity).
  destruct (compare_cdps example_engine
              "Compare audience creation between Segment, Lytics and Zeotap"
              example_heap) as [r h'] eqn:Hrun.
  cbn [fst] in Ht.
  destruct r as [[[| | | |f c data]|]|]; try discriminate Ht.
  apply bool_decide_eq_true in Ht as [-> ->].
  exists data, h'. split; [reflexivity|]. intros cdp rs Hd.
  exact (proj1 (proj2 (comparison_results_per_product example_engine _
                         example_heap _ _ data h' example_index_ok Hrun
                         cdp rs Hd))).
Defined.

Lemma compare_run_ok eng text (h : heap) :
  index_ok h eng ->
  exists out h',
    compare_cdps eng text h = (Ok out, h') /\
    (forall l d, h !! l = Some d -> h' !! l = Some d) /\
    match out with
    | None => is_comparison_question text = false /\ h' = h
    | Some (ComparisonError _) | Some (Comparison _ _ _) =>
        is_comparison_question text = true
    | Some _ => False
    end.
Proof.
  intros Hok. unfold compare_cdps.
  destruct (is_comparison_question text) eqn:Hc; [|by eexists _, _].
  cbn [negb].
  destruct (extract_cdps_to_compare text) as [cdps|] eqn:Hcdps;
    [|by eexists _, _].
  destruct (extract_cdps_spec _ _ Hcdps) as (Hlen & Hnd & _).
  destruct cdps as [|c cdps]; [simpl in Hlen; lia|].
  destruct (extract_feature_to_compare text) as [feature|] eqn:Hf;
    [|by eexists _, _].
  pose proof (extract_feature_not_empty _ _ Hf) as Hne.
  destruct feature as [|a feature]; [done|].
  destruct (compare_each_spec eng (String a feature) (c :: cdps) ∅ h Hok Hnd)
    as (found & h' & data & Hss & Hce & _).
  { intros; apply lookup_empty. }
  unfold bind. rewrite Hce.
  apply searches_heap in Hss as [new ->].
  destruct (decide (data = ∅)); eexists _, _;
    (split; [reflexivity|]); (split; [|done]);
    intros l d Hl; by apply lookup_app_l_Some.
Qed.

(** X15. On a well-formed index [compare_cdps] raises for no text and
    leaves every object of the heap as it was; it returns [None] exactly
    for the texts that are not comparisons, and otherwise a
    [ComparisonError] or a [Comparison], never one of the outcomes of
    [query]. *)
Theorem compare_cdps_never_raises
    (eng : QueryEngine) (text : string) (h : heap) :
  index_ok h eng ->
  exists out h',
    compare_cdps eng text h = (Ok out, h') /\
    (forall l d, h !! l = Some d -> h' !! l = Some d) /\
    match out with
    | None => is_comparison_question text = false /\ h' = h
    | Some (ComparisonError _) | Some (Comparison _ _ _) =>
        is_comparison_question text = true
    | Some _ => False
    end.
Proof. apply compare_run_ok. Qed.

Lemma compare_cdps_never_raises_witness :
  index_ok example_heap example_engine /\
  exists out h',
    compare_cdps example_engine "Segment vs Lytics: event tracking"
      example_heap = (Ok out, h') /\
    forall l d, example_heap !! l = Some d -> h' !! l = Some d.
Proof.
  split; [exact example_index_ok|].
  destruct (compare_cdps_never_raises example_engine
              "Segment vs Lytics: event tracking" example_heap
              example_index_ok) as (out & h' & Hrun & Hfr & _).
  exists out, h'. split; [exact Hrun|exact Hfr].
Defined.

End CompareMore.

(** * The request handler *)

Section Chat.

(** X16. A request with a non-empty string message, on a well-formed
    index, always gets an outcome: nothing is raised, the result is never
    [None], and no object of the heap changes. A text with a comparison
    marker is answered by the comparator ([ComparisonError] or
    [Comparison]) even when it is a how-to question as well; any other
    text is answered by [query]. *)
Theorem chat_result_routes
    (eng : QueryEngine) (data : gmap string pyval) (message : string)
    (h : heap) :
  index_ok h eng ->
  data !! "message" = Some (PStr message) -> message <> EmptyString ->
  exists out h',
    chat_result eng data h = (Ok (Result (Some out)), h') /\
    (forall l d, h !! l = Some d -> h' !! l = Some d) /\
    match out with
    | ComparisonError _ | Comparison _ _ _ =>
        is_comparison_question message = true
    | NotHowTo _ | NoResults _ | Results _ _ _ =>
        is_comparison_question message = false
    end.
Proof.
  intros Hok Hm Hne. unfold chat_result. rewrite Hm.
  cbn [default from_option id].
  destruct message as [|a message]; [done|]. cbn [truthy_val Re.is_empty negb].
  destruct (is_comparison_question (String a message)) eqn:Hc.
  - destruct (compare_run_ok eng (String a message) h Hok)
      as (out & h' & Hrun & Hfr & Hkind).
    unfold bind. rewrite Hrun.
    destruct out as [out|]; [|destruct Hkind; congruence].
    exists out, h'. split; [done|]. split; [done|].
    by destruct out.
  - destruct (query_run_ok eng (String a message) h Hok)
      as (out & h' & Hrun & Hfr & Hkind).
    unfold bind. rewrite Hrun. exists out, h'. split; [done|].
    split; [done|]. by destruct out.
Qed.

Lemma chat_result_routes_witness :
  index_ok example_heap example_engine /\
  is_how_to_question "How do I compare user profiles in Segment and Lytics?"
    = true /\
  exists out h',
    chat_result example_engine
      {[ "message" :=
           PStr "How do I compare user profiles in Segment and Lytics?" ]}
      example_heap = (Ok (Result (Some out)), h') /\
    match out with
    | ComparisonError _ | Comparison _ _ _ => True
    | _ => False
    end.
Proof.
  split; [exact example_index_ok|]. split; [by vm_compute|].
  destruct (chat_result_routes example_engine
              {[ "message" :=
                   PStr "How do I compare user profiles in Segment and Lytics?" ]}
              "How do I compare user profiles in Segment and Lytics?"
              example_heap example_index_ok)
    as (out & h' & Hrun & _ & Hkind); [by vm_compute|done|].
  exists out, h'. split; [exact Hrun|].
  destruct out; try exact I; by vm_compute in Hkind.
Defined.

(** X17. A request whose message is absent, null, false, zero or the empty
    string is rejected before the engine is looked at, on any engine and
    heap; a message that is a number other than zero or [true] makes the
    handler raise [AttributeError] instead of rejecting it. *)
Theorem chat_result_without_text
    (eng : QueryEngine) (data : gmap string pyval) (h : heap) :
  (data !! "message" = None \/
   data !! "message" = Some (PStr EmptyString) \/
   data !! "message" = Some PNone \/
   data !! "message" = Some (PBool false) \/
   data !! "message" = Some (PInt 0) ->
   chat_result eng data h = (Ok NoMessage, h)) /\
  ((data !! "message" = Some (PBool true) \/
    exists z, z <> 0%Z /\ data !! "message" = Some (PInt z)) ->
   chat_result eng data h = (Raise AttributeError, h)).
Proof.
  unfold chat_result. split.
  - intros [H|[H|[H|[H|H]]]]; by rewrite H.
  - intros [H|(z & Hz & H)]; rewrite H; [done|].
    cbn [default from_option id truthy_val].
    by rewrite (proj2 (Z.eqb_neq z 0) Hz).
Qed.

End Chat.

(** * The best candidates *)

Section Best.

(** the comprehension over the chunks misses no chunk of the product *)
Lemma cdp_indices_from_complete i chunks fl (h : heap) idxs :
  cdp_indices_from i chunks fl h = Ok idxs ->
  forall n c d src,
    chunks !! n = Some c -> h !! c = Some d ->
    d !! "source" = Some (PStr src) -> PyStr.lower src = fl ->
    (i + n)%nat ∈ idxs.
Proof.
  revert i idxs. induction chunks as [|c0 chunks IH]; intros i idxs; [done|].
  cbn [cdp_indices_from].
  intros (v & Hv & (sl & Hsl & (tl & Htl & [= <-])%py_bind_ok)%py_bind_ok)%py_bind_ok.
  intros n c d src Hn Hd Hsrc Hlow. destruct n as [|n].
  - injection Hn as ->. unfold dict_getitem in Hv. rewrite Hd, Hsrc in Hv.
    injection Hv as <-. injection Hsl as <-.
    rewrite Hlow, String.eqb_refl, Nat.add_0_r. by left.
  - specialize (IH (S i) tl Htl n c d src Hn Hd Hsrc Hlow).
    replace (i + S n)%nat with (S i + n)%nat by lia.
    destruct (String.eqb sl fl); [by right|done].
Qed.

Lemma top_indices_complete eng q k f (h : heap) top sims :
  top_indices_of eng q k f h = Ok top ->
  similarities_of eng q = Ok sims -> (0 <= k)%Z ->
  forall j s c d,
    sims !! j = Some s -> chunks eng !! j = Some c -> h !! c = Some d ->
    (forall f', truthy f = Some f' ->
       exists src, d !! "source" = Some (PStr src) /\
                   PyStr.lower src = PyStr.lower f') ->
    (j, s) ∈ top \/
    (length top = Z.to_nat k /\ Forall (fun x : nat * Q => (s <= x.2)%Q) top).
Proof.
  intros Htop Hsims Hk j s c d Hj Hc Hd Hcand.
  assert (exists cands,
            top = take (Z.to_nat k) (sorted_desc cands) /\
            StronglySorted (fun x y : nat * Q => (x.1 < y.1)%nat) cands /\
            (j, s) ∈ cands) as (cands & -> & Hinc & Hin).
  { unfold top_indices_of in Htop. rewrite Hsims in Htop. simpl in Htop.
    unfold slice_to in Htop. rewrite (proj2 (Z.leb_le 0 k) Hk) in Htop.
    destruct (truthy f) as [f'|].
    - apply py_bind_ok in Htop
        as (idxs & Hidxs & (cs & Hcs & [= <-])%py_bind_ok).
      exists cs. split; [done|].
      destruct (Hcand f' eq_refl) as (src & Hsrc & Hlow).
      pose proof (cdp_indices_from_complete _ _ _ _ _ Hidxs j c d src
                    Hc Hd Hsrc Hlow) as Hjin.
      apply cdp_indices_from_spec in Hidxs as [Hs _].
      apply with_scores_spec in Hcs as [<- Hsc]. split.
      + by apply StronglySorted_fst.
      + simpl in Hjin. apply list_elem_of_fmap in Hjin as ([j' s'] & Heq & Hx).
        simpl in Heq. subst j'.
        rewrite Forall_forall in Hsc. specialize (Hsc _ Hx). simpl in Hsc.
        assert (s' = s) as -> by congruence. done.
    - injection Htop as <-. exists (imap pair sims). split; [done|]. split.
      + apply (imap_pair_increasing sims 0).
      + by apply (elem_of_lookup_imap_2 pair sims s j). }
  pose proof (sorted_desc_sorted cands Hinc) as Hsorted.
  assert ((j, s) ∈ sorted_desc cands) as Hin' by (by rewrite sorted_desc_perm).
  rewrite <- (take_drop (Z.to_nat k) (sorted_desc cands)) in Hin', Hsorted.
  apply elem_of_app in Hin' as [Hin'|Hin']; [by left|]. right. split.
  - apply length_take_le.
    destruct (decide (Z.to_nat k <= length (sorted_desc cands))%nat); [done|].
    rewrite drop_ge in Hin' by lia. by apply elem_of_nil in Hin'.
  - apply Forall_forall. intros x Hx.
    by destruct (StronglySorted_app_1_elem_of _ _ _ _ _ Hsorted Hx Hin').
Qed.

(** X18. A search returns the best candidates. On a well-formed index and
    for [top_k >= 0], a chunk that scores above 0.1 and passes the filter
    is either among the results, annotated with its score, or it was cut
    off by [top_k]: then there are [top_k] results and each of them scores
    at least as much. *)
Theorem search_returns_best
    (eng : QueryEngine) (query : string) (top_k : Z)
    (cdp_filter : option string) (h : heap)
    (rs : list loc) (h' : heap) (sims : list Q) :
  index_ok h eng -> (0 <= top_k)%Z ->
  search eng query top_k cdp_filter h = (Ok rs, h') ->
  similarities_of eng query = Ok sims ->
  forall j s c d,
    sims !! j = Some s -> (1 # 10 < s)%Q ->
    chunks eng !! j = Some c -> h !! c = Some d ->
    (forall f, truthy cdp_filter = Some f ->
       exists src, d !! "source" = Some (PStr src) /\
                   PyStr.lower src = PyStr.lower f) ->
    (exists r, r ∈ rs /\ h' !! r = Some (<["score" := PFloat s]> d)) \/
    (length rs = Z.to_nat top_k /\
     Forall (fun r => exists d' t,
               h' !! r = Some d' /\ d' !! "score" = Some (PFloat t) /\
               (s <= t)%Q) rs).
Proof.
  intros Hok Hk Hs Hsims j s c d Hj Hhigh Hc Hd Hcand.
  apply search_results in Hs as (top & new & Htop & -> & Hcp & Hrs).
  pose proof (copies_of_chunks _ _ _ _ (index_ok_live _ _ Hok) Hcp) as Hch.
  destruct (top_indices_complete _ _ _ _ _ _ _ Htop Hsims Hk j s c d
              Hj Hc Hd Hcand) as [Hin|[Hlen Hall]].
  - left.
    assert ((j, s) ∈ above_floor top) as Hfl.
    { unfold above_floor. apply list_elem_of_In, List.filter_In.
      split; [by apply list_elem_of_In|]. by apply Qgtb_true. }
    apply list_elem_of_lookup in Hfl as [i Hi].
    destruct (Forall2_lookup_l _ _ _ _ _ Hch Hi)
      as (d' & Hd' & c' & d0 & Hc' & Hd0 & ->).
    destruct (Forall2_lookup_r _ _ _ _ _ Hrs Hd') as (r & Hr & _ & Hh').
    simpl in Hc'. assert (d0 = d) as -> by congruence.
    exists r. split; [by eapply list_elem_of_lookup_2|done].
  - right.
    assert (above_floor top = top) as Hfl.
    { apply above_floor_all. eapply Forall_impl; [exact Hall|]. simpl.
      intros x Hx. by apply Qlt_le_trans with s. }
    rewrite Hfl in *. split.
    + rewrite (Forall2_length _ _ _ Hrs), (copies_length _ _ _ _ Hcp). done.
    + apply Forall_lookup. intros i r Hr.
      destruct (Forall2_lookup_l _ _ _ _ _ Hrs Hr) as (d' & Hd' & _ & Hh').
      destruct (Forall2_lookup_r _ _ _ _ _ (copies_score _ _ _ _ Hcp) Hd')
        as (x & Hx & Hsc).
      exists d', x.2. split; [done|]. split; [done|].
      rewrite Forall_forall in Hall. apply Hall.
      by eapply list_elem_of_lookup_2.
Qed.

Lemma search_returns_best_witness :
  index_ok example_heap example_engine /\
  exists rs h',
    search example_engine "how to source audience" 2 None example_heap
      = (Ok rs, h') /\
    ((exists r, r ∈ rs /\
        h' !! r = Some (<["score" := PFloat (1 # 4)]>
                          (example_record "segment" 2))) \/
     (length rs = 2%nat /\
      Forall (fun r => exists d' t,
                h' !! r = Some d' /\ d' !! "score" = Some (PFloat t) /\
                (1 # 4 <= t)%Q) rs)).
Proof.
  split; [exact example_index_ok|].
  destruct (search_total example_engine "how to source audience" 2 None
              example_heap example_index_ok) as (rs & h' & Hs).
  exists rs, h'. split; [exact Hs|].
  apply (search_returns_best example_engine "how to source audience" 2 None
           example_heap rs h'
           (map (fun r => row_dot r [(0%nat, 1 # 2); (1%nat, 1 # 2)])
              (rows example_matrix))
           example_index_ok (ltac:(lia) : (0 <= 2)%Z) Hs
           (ltac:(vm_compute; reflexivity)) 3%nat (1 # 4)
           3%nat (example_record "segment" 2)).
  - reflexivity.
  - apply Qgtb_true. by vm_compute.
  - reflexivity.
  - reflexivity.
  - intros f Hf. discriminate Hf.
Defined.

End Best.

(** * Loading, then searching *)

Section LoadMore.

(** X19. Loading a directory whose three artifacts decode leaves the
    objects of the heap as they were and makes chunk [i] of the engine a
    new object holding record [i] of the chunk file. If moreover the file
    has one record per matrix row, each with a string ['source'], and the
    matrix has one column per vocabulary term, the loaded index is
    well-formed, so that no search on it raises. *)
Theorem load_index_round_trip
    (fs : filesystem) (dir : string) (h : heap)
    (v : Vectorizer) (m : csr_matrix) (records : list (gmap string pyval)) :
  artifacts_load fs dir v m records ->
  exists eng h',
    load_index fs dir h = (Ok (Engine eng), h') /\
    (forall l d, h !! l = Some d -> h' !! l = Some d) /\
    (forall i, chunks eng !! i ≫= (fun c => h' !! c) = records !! i) /\
    (length records = n_rows m -> n_cols m = n_features v ->
     Forall (fun d => exists src, d !! "source" = Some (PStr src)) records ->
     index_ok h' eng /\
     forall query top_k cdp_filter,
       exists rs h'', search eng query top_k cdp_filter h' = (Ok rs, h'')).
Proof.
  intros Hload. eexists _, _. split; [by apply load_index_loads|].
  assert (forall i, seq (length h) (length records) !! i
                    ≫= (fun c => (h ++ records) !! c) = records !! i) as Hrt.
  { intros i. destruct (decide (i < length records)%nat) as [Hi|Hi].
    - rewrite lookup_seq_lt by done. simpl.
      rewrite lookup_app_r by lia. f_equal. lia.
    - rewrite lookup_seq_ge by lia. simpl. symmetry.
      apply lookup_ge_None. lia. }
  split; [|split; [exact Hrt|]].
  - intros l d Hl. by apply lookup_app_l_Some.
  - intros Hrows Hcols Hsrc.
    assert (index_ok (h ++ records)
              {| index_dir := dir; vectorizer := v; chunk_vectors := m;
                 chunks := seq (length h) (length records) |}) as Hok.
    { split; [|split]; simpl.
      - by rewrite length_seq.
      - done.
      - intros c Hc. apply list_elem_of_lookup in Hc as [i Hi].
        specialize (Hrt i). rewrite Hi in Hrt. simpl in Hrt.
        destruct (records !! i) as [d|] eqn:Hd.
        + rewrite Forall_forall in Hsrc.
          destruct (Hsrc d) as [src Hs]; [by eapply list_elem_of_lookup_2|].
          by exists d, src.
        + apply lookup_seq in Hi as [_ Hi]. apply lookup_ge_None in Hd. lia. }
    split; [exact Hok|]. intros query top_k cdp_filter.
    by apply search_total.
Qed.

Lemma load_index_round_trip_witness :
  artifacts_load example_fs "idx" example_vectorizer example_matrix
    example_records /\
  exists eng h',
    load_index example_fs "idx" [] = (Ok (Engine eng), h') /\
    forall i, chunks eng !! i ≫= (fun c => h' !! c) = example_records !! i.
Proof.
  assert (artifacts_load example_fs "idx" example_vectorizer example_matrix
            example_records) as Hload by (by vm_compute).
  split; [exact Hload|].
  destruct (load_index_round_trip example_fs "idx" [] example_vectorizer
              example_matrix example_records Hload)
    as (eng & h' & Hrun & _ & Hrt & _).
  exists eng, h'. split; [exact Hrun|exact Hrt].
Defined.

End LoadMore.

(** * More on query normalization *)

Section NormalizationMore.
Import PyStr PyStrPred.

(** X20. The strings that [preprocess_query] leaves unchanged are exactly
    the normalized ones - word characters and single blanks only, no blank
    at either end - and every output of [preprocess_query] is normalized. *)
Theorem preprocess_query_fixed_points (s : string) :
  normalized (preprocess_query s) /\
  (preprocess_query s = s <-> normalized s).
Proof.
  split; [apply preprocess_query_normalized|]. split.
  - intros <-. apply preprocess_query_normalized.
  - apply preprocess_query_fixed.
Qed.

Lemma word_not_space c : is_word c = true -> is_space c = false.
Proof.
  destruct c as [[] [] [] [] [] [] [] []]; vm_compute; congruence.
Qed.

Lemma keep_not_space_lstrip s :
  keep_chars not_space (lstrip s) = keep_chars not_space s.
Proof.
  induction s as [|c s IH]; [done|]. cbn [lstrip keep_chars].
  unfold not_space at 2. destruct (is_space c) eqn:Hc; [done|].
  cbn [keep_chars]. unfold not_space at 1. by rewrite Hc.
Qed.

Lemma keep_not_space_rstrip s :
  keep_chars not_space (rstrip s) = keep_chars not_space s.
Proof.
  induction s as [|c s IH]; [done|]. rewrite rstrip_cons. cbn [keep_chars].
  unfold not_space at 2.
  destruct (rstrip s) as [|d r] eqn:Hr; cbn [Re.is_empty andb].
  - destruct (is_space c) eqn:Hc; cbn [negb].
    + by rewrite <- IH.
    + cbn [keep_chars]. unfold not_space at 1. rewrite Hc. cbn [negb].
      by rewrite <- IH.
  - cbn [keep_chars]. unfold not_space at 1.
    destruct (is_space c); cbn [negb]; by rewrite <- IH.
Qed.

Lemma keep_not_space_sub_spaces b s :
  keep_chars not_space (sub_spaces_from b s) = keep_chars not_space s.
Proof.
  revert b. induction s as [|c s IH]; intros b; [done|].
  cbn [sub_spaces_from keep_chars]. unfold not_space at 2.
  destruct (is_space c) eqn:Hc; cbn [negb].
  - destruct b; [apply IH|]. cbn [keep_chars].
    replace (not_space " "%char) with false by reflexivity. apply IH.
  - cbn [keep_chars]. unfold not_space at 1. rewrite Hc. cbn [negb].
    by rewrite IH.
Qed.

Lemma keep_not_space_sub_non_word_space s :
  keep_chars not_space (sub_non_word_space s) = keep_chars is_word_char s.
Proof.
  induction s as [|c s IH]; [done|].
  unfold sub_non_word_space in *. cbn [map keep_chars].
  unfold is_word_char at 1.
  destruct (is_word c) eqn:Hw.
  - pose proof (word_not_space c Hw) as Hs. rewrite Hs. cbn [orb andb negb].
    unfold not_space at 1. rewrite Hs. cbn [negb]. by rewrite IH.
  - cbn [orb andb]. destruct (is_space c) eqn:Hs.
    + unfold not_space at 1. rewrite Hs. cbn [negb]. apply IH.
    + replace (not_space " "%char) with false by reflexivity. apply IH.
Qed.

(** X21. Normalization keeps the word characters of the query as they
    are - same characters, same case, same order - and changes only what
    lies between them: dropping the whitespace from the output gives the
    word characters of the input. *)
Theorem preprocess_query_keeps_words (query : string) :
  keep_chars not_space (preprocess_query query) =
  keep_chars is_word_char query.
Proof.
  unfold preprocess_query, strip, sub_spaces.
  by rewrite keep_not_space_rstrip, keep_not_space_lstrip,
    keep_not_space_sub_spaces, keep_not_space_sub_non_word_space.
Qed.

End NormalizationMore.

(** * The answers *)

Section Steps.
Import PyStr PyStrPred.


Lemma span_spec p s a b :
  Resp.span p s = (a, b) -> s = a +:+ b /\ all_chars p a = true.
Proof.
  revert a b. induction s as [|c s IH]; intros a b; cbn [Resp.span].
  - by intros [= <- <-].
  - destruct (p c) eqn:Hc; [|by intros [= <- <-]].
    destruct (Resp.span p s) as [a' b']. intros [= <- <-].
    destruct (IH _ _ eq_refl) as [-> Ha]. split; [done|].
    cbn [all_chars]. by rewrite Hc.
Qed.

Lemma all_chars_app p a b :
  all_chars p (a +:+ b) = all_chars p a && all_chars p b.
Proof.
  induction a as [|c a IH]; [done|]. rewrite ReFacts.app_cons. cbn [all_chars].
  by rewrite IH, andb_assoc.
Qed.

Lemma string_length_app a b :
  String.length (a +:+ b) = (String.length a + String.length b)%nat.
Proof. induction a as [|c a IH]; [done|]. rewrite ReFacts.app_cons. simpl. by rewrite IH. Qed.

Lemma digit_not_space c : Resp.is_digit c = true -> is_space c = false.
Proof. destruct c as [[] [] [] [] [] [] [] []]; by vm_compute. Qed.

Lemma digit_not_bracket c :
  Resp.is_digit c = true -> Ascii.eqb c "["%char = false.
Proof. destruct c as [[] [] [] [] [] [] [] []]; by vm_compute. Qed.

Lemma numbered_app s t : numbered s -> numbered (s +:+ t).
Proof.
  intros (ds & rest & -> & Hne & Hds). exists ds, (rest +:+ t).
  by rewrite ReFacts.app_assoc.
Qed.

Lemma step_header_spec s n :
  Resp.step_header s = Some n ->
  exists c hd tl,
    s = String c hd +:+ tl /\ numbered (String c hd) /\
    n = S (String.length hd) /\ hd <> EmptyString.
Proof.
  unfold Resp.step_header.
  destruct (Resp.span Resp.is_digit s) as [ds r1] eqn:Hds.
  apply span_spec in Hds as [-> Hds].
  destruct ds as [|c ds]; [done|]. destruct r1 as [|d r2]; [done|].
  destruct (Ascii.eqb_spec d "."%char) as [->|Hne].
  2:{ intros H. exfalso. revert H.
      destruct d as [[] [] [] [] [] [] [] []]; done. }
  destruct (Resp.span is_space r2) as [ws r3] eqn:Hws.
  apply span_spec in Hws as [-> Hws].
  destruct ws as [|w ws]; [done|]. intros [= <-].
  exists c, (ds +:+ String "."%char (String w ws)), r3. repeat split.
  - rewrite !ReFacts.app_cons. f_equal. rewrite ReFacts.app_assoc.
    by rewrite !ReFacts.app_cons.
  - exists (String c ds), (String w ws). by rewrite !ReFacts.app_cons.
  - rewrite string_length_app. simpl. lia.
  - by destruct ds.
Qed.

Lemma findall_numbered st s :
  scan_numbered st s ->
  Forall numbered (Resp.findall_from Resp.step_header st s) /\
  (st <> Resp.Outside -> Resp.findall_from Resp.step_header st s <> []).
Proof.
  revert st. induction s as [|c s IH]; intros st Hst.
  - destruct st as [|k cur|cur]; cbn [Resp.findall_from].
    + done.
    + destruct Hst as (pre & post & Hs & _ & Hne & _).
      symmetry in Hs. apply ReFacts.app_eq_nil in Hs as [-> _]. done.
    + split; [by constructor|done].
  - assert (forall n, Resp.step_header (String c s) = Some n ->
              exists n', n = S (S n') /\
                scan_numbered (Resp.Header (S n') (String c EmptyString)) s)
      as Henter.
    { intros n (c' & hd & tl & Hs & Hnum & -> & Hne)%step_header_spec.
      rewrite ReFacts.app_cons in Hs. injection Hs as <- ->.
      destruct hd as [|d hd]; [done|]. exists (String.length hd).
      split; [done|]. exists (String d hd), tl. done. }
    assert (Forall numbered
              match Resp.step_header (String c s) with
              | Some (S (S n)) =>
                  Resp.findall_from Resp.step_header
                    (Resp.Header (S n) (String c EmptyString)) s
              | Some _ =>
                  Resp.findall_from Resp.step_header
                    (Resp.Lazy (String c EmptyString)) s
              | None => Resp.findall_from Resp.step_header Resp.Outside s
              end) as Hent.
    { destruct (Resp.step_header (String c s)) as [n|] eqn:Hh.
      - destruct (Henter n eq_refl) as (n' & -> & Hinv). by apply IH.
      - by apply IH. }
    destruct st as [|k cur|cur]; cbn [Resp.findall_from].
    + split; [exact Hent|done].
    + destruct Hst as (pre & post & Hs & Hlen & Hne & Hnum).
      destruct pre as [|c' pre]; [done|].
      rewrite ReFacts.app_cons in Hs. injection Hs as <- ->.
      assert (cur +:+ String c pre = (cur +:+ String c EmptyString) +:+ pre)
        as Heq by (by rewrite ReFacts.app_assoc).
      rewrite Heq in Hnum.
      simpl in Hlen. subst k. destruct pre as [|d pre].
      * rewrite ReFacts.app_nil_r in Hnum. cbn [String.length].
        split; [|intros _]; by apply IH.
      * cbn [String.length].
        assert (scan_numbered
                  (Resp.Header (S (String.length pre))
                     (cur +:+ String c EmptyString)) (String d pre +:+ post)).
        { exists (String d pre), post. done. }
        split; [|intros _]; by apply IH.
    + cbn [scan_numbered] in Hst.
      destruct (Resp.at_end (String c s)
                || match Resp.step_header (String c s) with
                   | Some _ => true
                   | None => false
                   end).
      * split; [by constructor|done].
      * assert (scan_numbered (Resp.Lazy (cur +:+ String c EmptyString)) s)
          by (by apply numbered_app).
        split; [|intros _]; by apply IH.
Qed.

Lemma findall_finds s pre post :
  s = pre +:+ post -> is_Some (Resp.step_header post) ->
  Resp.findall_from Resp.step_header Resp.Outside s <> [].
Proof.
  revert s. induction pre as [|c pre IH]; intros s -> [n Hn].
  - change (EmptyString +:+ post) with post.
    pose proof Hn as (c & hd & tl & -> & Hnum & -> & Hne)%step_header_spec.
    rewrite ReFacts.app_cons in *. cbn [Resp.findall_from]. rewrite Hn.
    destruct hd as [|d hd]; [done|]. cbn [String.length].
    apply findall_numbered; [|done].
    exists (String d hd), tl. done.
  - rewrite ReFacts.app_cons. cbn [Resp.findall_from].
    destruct (Resp.step_header (String c (pre +:+ post))) as [n'|] eqn:Hh.
    + pose proof Hh as (c' & hd & tl & Hs & Hnum & -> & Hne)%step_header_spec.
      rewrite ReFacts.app_cons in Hs. injection Hs as <- Hs.
      destruct hd as [|d hd]; [done|]. cbn [String.length].
      apply findall_numbered; [|done].
      exists (String d hd), tl. done.
    + by eapply IH.
Qed.

Lemma number_char_not_space c : number_char c = true -> is_space c = false.
Proof. destruct c as [[] [] [] [] [] [] [] []]; by vm_compute. Qed.

Lemma number_char_not_bracket c :
  number_char c = true -> Resp.link_at (String c EmptyString) = None /\
  forall s, Resp.link_at (String c s) = None.
Proof. destruct c as [[] [] [] [] [] [] [] []]; by vm_compute. Qed.

Lemma sub_spaces_number a t b :
  all_chars number_char a = true -> a <> EmptyString ->
  sub_spaces_from b (a +:+ t) = a +:+ sub_spaces_from false t.
Proof.
  revert b. induction a as [|c a IH]; intros b Ha Hne; [done|].
  cbn [all_chars] in Ha. apply andb_prop in Ha as [Hc Ha].
  rewrite !ReFacts.app_cons. cbn [sub_spaces_from].
  rewrite (number_char_not_space _ Hc). f_equal.
  destruct a as [|d a]; [done|]. by apply IH.
Qed.

Lemma rstrip_number a t :
  all_chars number_char a = true ->
  rstrip (a +:+ t) = a +:+ rstrip t.
Proof.
  induction a as [|c a IH]; intros Ha; [done|].
  cbn [all_chars] in Ha. apply andb_prop in Ha as [Hc Ha].
  rewrite !ReFacts.app_cons, rstrip_cons, (number_char_not_space _ Hc).
  rewrite andb_false_r. by rewrite IH.
Qed.

Lemma sub_links_number a t :
  all_chars number_char a = true ->
  Resp.sub_links_from 0 (a +:+ t) = a +:+ Resp.sub_links_from 0 t.
Proof.
  induction a as [|c a IH]; intros Ha; [done|].
  cbn [all_chars] in Ha. apply andb_prop in Ha as [Hc Ha].
  rewrite !ReFacts.app_cons. cbn [Resp.sub_links_from].
  destruct (number_char_not_bracket _ Hc) as [_ ->]. by rewrite IH.
Qed.

Lemma span_digits ds rest :
  all_chars Resp.is_digit ds = true ->
  Resp.span Resp.is_digit (ds +:+ String "."%char rest)
    = (ds, String "."%char rest).
Proof.
  induction ds as [|c ds IH]; intros Hds; [done|].
  cbn [all_chars] in Hds. apply andb_prop in Hds as [Hc Hds].
  rewrite ReFacts.app_cons. cbn [Resp.span]. rewrite Hc. by rewrite IH.
Qed.

Lemma clean_text_numbered s : numbered s -> numbered (Resp.clean_text s).
Proof.
  intros (ds & rest & -> & Hne & Hds).
  assert (all_chars number_char (ds +:+ String "."%char EmptyString) = true)
    as Ha.
  { rewrite all_chars_app. apply andb_true_intro. split; [|done].
    clear Hne. induction ds as [|c ds IH]; [done|].
    cbn [all_chars] in *. apply andb_prop in Hds as [Hc Hds].
    unfold number_char at 1. by rewrite Hc, IH. }
  assert (ds +:+ String "."%char rest
          = (ds +:+ String "."%char EmptyString) +:+ rest) as ->
    by (by rewrite ReFacts.app_assoc).
  unfold Resp.clean_text, strip, sub_spaces.
  rewrite sub_spaces_number; [|done|by destruct ds].
  assert (lstrip ((ds +:+ String "."%char EmptyString)
                  +:+ sub_spaces_from false rest)
          = (ds +:+ String "."%char EmptyString)
            +:+ sub_spaces_from false rest) as ->.
  { destruct ds as [|c ds]; [done|]. rewrite !ReFacts.app_cons.
    cbn [lstrip]. cbn [all_chars] in Hds. apply andb_prop in Hds as [Hc _].
    by rewrite (digit_not_space _ Hc). }
  rewrite rstrip_number, sub_links_number by done.
  eexists ds, _. split; [|done]. by rewrite ReFacts.app_assoc.
Qed.

Lemma numbered_starts s : numbered s -> Resp.starts_numbered s = true.
Proof.
  intros (ds & rest & -> & Hne & Hds). unfold Resp.starts_numbered.
  rewrite span_digits by done. by destruct ds.
Qed.

(** X22. If a text has a numbered item, every step extracted from it
    begins with its own number, and still does after cleaning; so the
    formatter writes it as it is and does not number it again. *)
Theorem extract_steps_numbered text step :
  has_numbered_item text ->
  step ∈ Resp.extract_steps text ->
  Resp.starts_numbered (Resp.clean_text step) = true.
Proof.
  intros (pre & post & Htext & Hpost) Hin.
  pose proof (findall_finds text pre post Htext Hpost) as Hne.
  destruct (findall_numbered Resp.Outside text I) as [Hall _].
  unfold Resp.extract_steps in Hin.
  destruct (Resp.findall_from Resp.step_header Resp.Outside text)
    as [|m ms]; [done|].
  rewrite Forall_forall in Hall.
  by apply numbered_starts, clean_text_numbered, Hall.
Qed.


Lemma extract_steps_numbered_witness :
  Resp.starts_numbered (Resp.clean_text "2. Add a source.") = true.
Proof.
  apply (extract_steps_numbered "1. Open Sources. 2. Add a source.").
  - exists EmptyString, "1. Open Sources. 2. Add a source.".
    split; [reflexivity|]. eexists. vm_compute. reflexivity.
  - assert (Resp.extract_steps "1. Open Sources. 2. Add a source."
            = ["1. Open Sources. "; "2. Add a source."]) as ->
      by (vm_compute; reflexivity).
    apply elem_of_cons. right. apply elem_of_cons. left. reflexivity.
Defined.

End Steps.

Section Cleaning.
Import PyStr PyStrPred.


Lemma link_at_chars p s g len :
  Resp.link_at s = Some (g, len) -> all_chars p s = true ->
  all_chars p g = true.
Proof.
  unfold Resp.link_at. destruct s as [|c s1]; [done|].
  destruct (Ascii.eqb_spec c "["%char) as [->|Hne].
  2:{ intros H. exfalso. revert H.
      destruct c as [[] [] [] [] [] [] [] []]; done. }
  destruct (Resp.span _ s1) as [g' r1] eqn:Hg.
  apply span_spec in Hg as [-> _].
  intros H Hall. cbn [all_chars] in Hall.
  apply andb_prop in Hall as [_ Hall]. rewrite all_chars_app in Hall.
  apply andb_prop in Hall as [Hall _].
  assert (g' = g) as <-; [|done].
  clear Hall. revert H.
  destruct g'; [done|]. destruct r1 as [|c1 r1]; [done|].
  destruct c1 as [[] [] [] [] [] [] [] []]; try done.
  destruct r1 as [|c2 r2]; [done|].
  destruct c2 as [[] [] [] [] [] [] [] []]; try done.
  destruct (Resp.span _ r2) as [u r3]. destruct u; [done|].
  destruct r3 as [|c3 r3]; [done|].
  destruct c3 as [[] [] [] [] [] [] [] []]; try done. by intros [= <- _].
Qed.

Lemma all_chars_sub_links p n s :
  all_chars p s = true -> all_chars p (Resp.sub_links_from n s) = true.
Proof.
  revert n. induction s as [|c s IH]; intros n Hall; [done|].
  pose proof Hall as Hall'. cbn [all_chars] in Hall'.
  apply andb_prop in Hall' as [Hc Hs].
  cbn [Resp.sub_links_from]. destruct n as [|n]; [|by apply IH].
  destruct (Resp.link_at (String c s)) as [[g len]|] eqn:Hl.
  - rewrite all_chars_app. rewrite (link_at_chars _ _ _ _ Hl Hall).
    by apply IH.
  - cbn [all_chars]. rewrite Hc. by apply IH.
Qed.

Lemma all_chars_blank_sub_spaces b s :
  all_chars blank_or_visible (sub_spaces_from b s) = true.
Proof.
  revert b. induction s as [|c s IH]; intros b; [done|].
  cbn [sub_spaces_from]. destruct (is_space c) eqn:Hc.
  - destruct b; [apply IH|]. cbn [all_chars]. by rewrite IH.
  - cbn [all_chars]. rewrite IH. unfold blank_or_visible. by rewrite Hc.
Qed.

(** X23. A cleaned text is on one line: the only whitespace left in it is
    the blank. *)
Theorem clean_text_one_line text :
  all_chars blank_or_visible (Resp.clean_text text) = true.
Proof.
  unfold Resp.clean_text, strip, sub_spaces.
  apply all_chars_sub_links, all_chars_rstrip, all_chars_lstrip,
    all_chars_blank_sub_spaces.
Qed.


End Cleaning.

Section ComparisonAnswer.
Import PyStr PyStrPred.

Context (h2t_handle : pyval -> option string) (float_repr : Q -> string).

Lemma add_points_grows key_points response :
  exists added, add_points key_points response = response +:+ added.
Proof.
  revert response. induction key_points as [|point rest IH]; intros response.
  - exists EmptyString. by rewrite ReFacts.app_nil_r.
  - cbn [add_points]. destruct (IH (response +:+ "- " +:+ point +:+ Resp.nl))
      as [added ->].
    eexists. by rewrite ReFacts.app_assoc.
Qed.

Lemma add_products_step feature data h cdp rest response out :
  add_products h2t_handle float_repr feature data h (cdp :: rest) response
    = Done out ->
  exists added,
    add_products h2t_handle float_repr feature data h rest
      (response +:+
       match data !! cdp with
       | Some _ => section_heading cdp
       | None => nothing_found_line feature cdp
       end +:+ added) = Done out.
Proof.
  cbn [add_products]. destruct (data !! cdp) as [rs|].
  - destruct (first_result rs h) as [best|e]; [|done]. cbn [mbind res_bind].
    destruct (content_of h2t_handle best) as [content|e]; [|done].
    cbn [mbind res_bind].
    destruct (clean_text_of content) as [text|e]; [|done].
    cbn [mbind res_bind].
    destruct (url_of best) as [url|e]; [|done]. cbn [mbind res_bind].
    destruct (add_points_grows
                (take 3 (Resp.stripped_non_empty (Resp.split_sentences text)))
                (response +:+ "**" +:+ PyStr2.capitalize cdp +:+ "**:"
                 +:+ Resp.nl)) as [added ->].
    intros Hout. eexists. unfold section_heading.
    rewrite <- Hout. f_equal. rewrite !ReFacts.app_assoc. reflexivity.
  - intros Hout. exists (Resp.nl +:+ Resp.nl). unfold nothing_found_line.
    rewrite <- Hout. f_equal. rewrite !ReFacts.app_assoc. reflexivity.
Qed.

Lemma add_products_grows feature data h cdps response out :
  add_products h2t_handle float_repr feature data h cdps response = Done out ->
  exists added, out = response +:+ added.
Proof.
  revert response. induction cdps as [|cdp rest IH]; intros response.
  - intros [= <-]. exists EmptyString. by rewrite ReFacts.app_nil_r.
  - intros Hout. apply add_products_step in Hout as [added Hout].
    apply IH in Hout as [added' ->]. eexists.
    rewrite !ReFacts.app_assoc. reflexivity.
Qed.

Lemma add_products_sections feature data h cdps response out :
  add_products h2t_handle float_repr feature data h cdps response = Done out ->
  forall cdp, cdp ∈ cdps ->
    contains match data !! cdp with
             | Some _ => section_heading cdp
             | None => nothing_found_line feature cdp
             end out = true.
Proof.
  revert response. induction cdps as [|cdp0 rest IH]; intros response Hout cdp.
  - by intros ?%elem_of_nil.
  - apply add_products_step in Hout as [added Hout].
    intros [->|Hin]%elem_of_cons; [|by eapply IH].
    apply add_products_grows in Hout as [added' ->].
    apply contains_app. exists response, (added +:+ added').
    rewrite !ReFacts.app_assoc. reflexivity.
Qed.

(** X24. The answer to a comparison has a section for every product that
    was compared, in particular for one nothing was found for: that one
    gets the line that says so. The answer ends with the note on the
    documentation. *)
Theorem comparison_response_sections feature cdps data h response :
  format_comparison_response h2t_handle float_repr
    (Comparison feature cdps data) h = Done response ->
  (forall cdp, cdp ∈ cdps ->
     contains match data !! cdp with
              | Some _ => section_heading cdp
              | None => nothing_found_line feature cdp
              end response = true) /\
  exists body, response = body +:+ comparison_note.
Proof.
  cbn [format_comparison_response].
  destruct (add_products _ _ _ _ _ _ _) as [out|e] eqn:Hout; [|done].
  cbn [mbind res_bind]. intros [= <-]. split; [|by eexists].
  intros cdp Hin.
  pose proof (add_products_sections _ _ _ _ _ _ Hout cdp Hin) as Hc.
  apply contains_app in Hc as (pre & post & ->).
  apply contains_app. exists pre, (post +:+ comparison_note).
  rewrite !ReFacts.app_assoc. reflexivity.
Qed.


End ComparisonAnswer.

Lemma comparison_response_sections_witness :
  exists response,
    format_comparison_response no_html no_floats
      (Comparison "audience creation" ["segment"; "zeotap"]
         {[ "segment" := [2%nat] ]}) doc_heap = Done response /\
    PyStr.contains (nothing_found_line "audience creation" "zeotap") response
      = true.
Proof.
  destruct (format_comparison_response no_html no_floats
              (Comparison "audience creation" ["segment"; "zeotap"]
                 {[ "segment" := [2%nat] ]}) doc_heap)
    as [response|e] eqn:Hrun; [|vm_compute in Hrun; discriminate Hrun].
  exists response. split; [reflexivity|].
  destruct (comparison_response_sections _ _ _ _ _ _ _ Hrun) as [Hs _].
  apply (Hs "zeotap"). apply elem_of_cons. right. apply elem_of_cons. left.
  reflexivity.
Defined.

Section Answers.
Import PyStr PyStrPred.

Context (h2t_handle : pyval -> option string) (float_repr : Q -> string).

Lemma formattable_score d v :
  formattable h2t_handle d -> formattable h2t_handle (<["score" := v]> d).
Proof.
  unfold formattable. by rewrite !lookup_insert_ne.
Qed.

Lemma results_formattable_grow h new rs :
  results_formattable h2t_handle h rs ->
  results_formattable h2t_handle (h ++ new) rs.
Proof.
  unfold results_formattable. intros H. eapply Forall_impl; [exact H|].
  intros r (d & Hr & Hd). exists d. split; [|done]. by apply lookup_app_l_Some.
Qed.

Lemma documented_grow h eng new :
  documented h2t_handle h eng -> documented h2t_handle (h ++ new) eng.
Proof.
  intros Hdoc c Hc. destruct (Hdoc c Hc) as (d & Hd & Hf).
  exists d. split; [|done]. by apply lookup_app_l_Some.
Qed.

Lemma search_formattable eng q k f h rs h' :
  chunks_live h eng -> documented h2t_handle h eng ->
  search eng q k f h = (Ok rs, h') ->
  results_formattable h2t_handle h' rs.
Proof.
  intros Hlive Hdoc Hs.
  destruct (search_results _ _ _ _ _ _ _ Hs) as (top & new & _ & -> & Hcp & Hrs).
  pose proof (copies_of_chunks _ _ _ _ Hlive Hcp) as Hnew.
  assert (Forall (formattable h2t_handle) new) as Hall.
  { eapply Forall2_Forall_r; [exact Hnew|]. apply Forall_forall.
    intros hit _ d' (c & d & Hc & Hd & ->).
    apply formattable_score.
    destruct (Hdoc c) as (d0 & Hd0 & Hf); [by eapply list_elem_of_lookup_2|].
    congruence. }
  unfold results_formattable.
  eapply Forall2_Forall_l; [exact Hrs|].
  eapply Forall_impl; [exact Hall|].
  intros d' Hf r [_ Hr]. by exists d'.
Qed.

Lemma format_how_to_ok cdp q rs h :
  rs <> [] -> results_formattable h2t_handle h rs ->
  exists response,
    format_how_to_response h2t_handle float_repr (Results cdp q rs) h
      = Done response.
Proof.
  intros Hne Hrs. destruct rs as [|r rs]; [done|].
  apply Forall_cons in Hrs as [(d & Hr & Hc & [url Hurl]) _].
  unfold format_how_to_response, first_result. cbn [lookup list_lookup].
  rewrite Hr. cbn [mbind res_bind].
  unfold content_of, url_of. rewrite Hurl.
  destruct (d !! "html") as [html|].
  - destruct Hc as [content ->]. cbn [clean_text_of mbind res_bind]. by eexists.
  - destruct Hc as [s ->]. cbn [clean_text_of mbind res_bind]. by eexists.
Qed.

Lemma add_products_ok feature data h cdps response :
  (forall cdp rs, data !! cdp = Some rs ->
     rs <> [] /\ results_formattable h2t_handle h rs) ->
  exists out,
    add_products h2t_handle float_repr feature data h cdps response = Done out.
Proof.
  intros Hdata. revert response.
  induction cdps as [|cdp cdps IH]; intros response; [by eexists|].
  cbn [add_products].
  destruct (data !! cdp) as [rs|] eqn:Hcdp; [|apply IH].
  destruct (Hdata _ _ Hcdp) as [Hne Hrs].
  destruct rs as [|r rs]; [done|].
  apply Forall_cons in Hrs as [(d & Hr & Hc & [url Hurl]) _].
  unfold first_result. cbn [lookup list_lookup].
  rewrite Hr. cbn [mbind res_bind].
  unfold content_of, url_of. rewrite Hurl.
  destruct (d !! "html") as [html|].
  - destruct Hc as [content ->]. cbn [clean_text_of mbind res_bind]. apply IH.
  - destruct Hc as [s ->]. cbn [clean_text_of mbind res_bind]. apply IH.
Qed.

Lemma compare_each_formattable eng feature cdps acc h data h' :
  index_ok h eng -> documented h2t_handle h eng ->
  (forall cdp rs, acc !! cdp = Some rs ->
     rs <> [] /\ results_formattable h2t_handle h rs) ->
  compare_each eng feature cdps acc h = (Ok data, h') ->
  forall cdp rs, data !! cdp = Some rs ->
    rs <> [] /\ results_formattable h2t_handle h' rs.
Proof.
  revert acc h. induction cdps as [|cdp0 cdps IH]; intros acc h Hok Hdoc Hacc.
  - intros [= <- <-]. exact Hacc.
  - cbn [compare_each]. unfold bind at 1.
    destruct (search eng (search_query_for feature cdp0) 2 (Some cdp0) h)
      as [[rs0|e] h1] eqn:Hs; [|done].
    pose proof (search_formattable _ _ _ _ _ _ _ (index_ok_live _ _ Hok) Hdoc Hs)
      as Hrs0.
    pose proof (search_heap _ _ _ _ _ _ _ Hs) as [new ->].
    assert (forall cdp rs, acc !! cdp = Some rs ->
              rs <> [] /\ results_formattable h2t_handle (h ++ new) rs) as Hacc'.
    { intros cdp rs Hcdp. destruct (Hacc _ _ Hcdp).
      split; [done|]. by apply results_formattable_grow. }
    destruct rs0 as [|r0 rs0].
    + apply IH; [by apply index_ok_grow|by apply documented_grow|done].
    + apply IH; [by apply index_ok_grow|by apply documented_grow|].
      intros cdp rs. destruct (decide (cdp = cdp0)) as [->|Hne].
      * rewrite lookup_insert_eq. by intros [= <-].
      * rewrite lookup_insert_ne by done. apply Hacc'.
Qed.


Lemma example_doc_index_ok : index_ok doc_heap example_engine.
Proof.
  split; [done|]. split; [done|].
  intros c Hc. cbn [chunks example_engine] in Hc.
  repeat (apply elem_of_cons in Hc as [->|Hc]);
    [ exists (doc_record "segment" "1. Open Sources. 2. Add a source." "https://segment.example/sources" 0), "segment"
    | exists (doc_record "lytics" "Audiences group users. Build one from a source." "https://lytics.example/audiences" 0), "lytics"
    | exists (doc_record "Segment" "An audience is a list of users." "https://segment.example/audiences" 1), "Segment"
    | exists (doc_record "segment" "See [the guide](https://segment.example/guide) for a source." "https://segment.example/guide" 2), "segment"
    | by apply elem_of_nil in Hc ]; done.
Qed.

Lemma example_documented : documented no_html doc_heap example_engine.
Proof.
  intros c Hc. cbn [chunks example_engine] in Hc.
  repeat (apply elem_of_cons in Hc as [->|Hc]);
    [ exists (doc_record "segment" "1. Open Sources. 2. Add a source." "https://segment.example/sources" 0)
    | exists (doc_record "lytics" "Audiences group users. Build one from a source." "https://lytics.example/audiences" 0)
    | exists (doc_record "Segment" "An audience is a list of users." "https://segment.example/audiences" 1)
    | exists (doc_record "segment" "See [the guide](https://segment.example/guide) for a source." "https://segment.example/guide" 2)
    | by apply elem_of_nil in Hc ];
    (split; [done|]); (split; [by eexists|by eexists]).
Qed.

(** X25. On a well-formed index whose chunks have a text and a link,
    [chat] never raises for a message that is text (or is absent, or is
    falsy): it answers 400 exactly when the message is falsy, and
    otherwise sends an answer. *)
Theorem chat_never_raises eng data h :
  index_ok h eng -> documented h2t_handle h eng ->
  (forall v, data !! "message" = Some v -> truthy_val v = true ->
     exists text, v = PStr text) ->
  exists resp h',
    chat h2t_handle float_repr eng data h = (Done resp, h') /\
    match resp with
    | BadRequest _ =>
        truthy_val (default (PStr EmptyString) (data !! "message")) = false
    | Answer _ _ =>
        truthy_val (default (PStr EmptyString) (data !! "message")) = true
    end.
Proof.
  intros Hok Hdoc Hmsg. unfold chat, chat_result.
  destruct (truthy_val (default (PStr EmptyString) (data !! "message")))
    eqn:Ht; cbn [negb]; [|by eexists _, _].
  assert (exists text, default (PStr EmptyString) (data !! "message") = PStr text)
    as [text Hv].
  { destruct (data !! "message") as [v|] eqn:Hd; [|done].
    apply (Hmsg v); done. }
  rewrite Hv.
  destruct (is_comparison_question text) eqn:Hc.
  - destruct (compare_run_ok eng text h Hok) as (out & h' & Hrun & _ & Hout).
    unfold bind. rewrite Hrun. unfold ret.
    destruct out as [[m|m|cdp q rs|m|feature cdps cmp]|];
      try done; try (by eexists _, _).
    apply compare_cdps_inv in Hrun as (_ & _ & _ & Hce).
    pose proof (compare_each_formattable _ _ _ _ _ _ _ Hok Hdoc
                  ltac:(intros ? ?; by rewrite lookup_empty) Hce) as Hcmp.
    cbn [generate_response format_comparison_response].
    match goal with
    | |- context [add_products _ _ _ _ _ _ ?r] =>
        destruct (add_products_ok feature cmp h' cdps r Hcmp) as [out ->]
    end.
    cbn [mbind res_bind]. by eexists _, _.
  - destruct (is_how_to_question text) eqn:Hq.
    2:{ unfold bind at 1. unfold query. rewrite Hq. cbn [negb]. unfold ret.
        cbn [generate_response format_how_to_response]. by eexists _, _. }
    destruct (query_how_to_run eng text h Hok Hq) as (rs & h' & Hs & Hrun).
    pose proof (search_formattable _ _ _ _ _ _ _ (index_ok_live _ _ Hok) Hdoc Hs)
      as Hrs.
    unfold bind at 1. rewrite Hrun. unfold ret.
    destruct rs as [|r rs].
    + destruct (extract_cdp_name text);
        cbn [generate_response format_how_to_response]; by eexists _, _.
    + cbn [generate_response].
      destruct (format_how_to_ok (extract_cdp_name text) text (r :: rs) h'
                  ltac:(done) Hrs) as [response ->].
      by eexists _, _.
Qed.

(** X26. Whatever the index holds, an outcome that carries a message (no
    how-to question, nothing found, a comparison that cannot be made)
    reaches the user as that message, unchanged. *)
Theorem chat_passes_messages eng data h response out h' message :
  chat h2t_handle float_repr eng data h
    = (Done (Answer response (Some out)), h') ->
  message_of out = Some message ->
  response = message.
Proof.
  unfold chat. destruct (chat_result eng data h) as [[[|result]|e] h1];
    [done| |done].
  destruct (generate_response _ _ _ _ _) as [r|e] eqn:Hg; [|done].
  intros [= -> -> ->] Hm.
  destruct out; simplify_eq/=; done.
Qed.


End Answers.

Lemma chat_never_raises_witness :
  exists resp h',
    chat no_html no_floats example_engine
      {[ "message" := PStr "How do I add a source in Segment?" ]} doc_heap
    = (Done resp, h').
Proof.
  destruct (chat_never_raises no_html no_floats example_engine
              {[ "message" := PStr "How do I add a source in Segment?" ]}
              doc_heap) as (resp & h' & Hrun & _).
  - exact example_doc_index_ok.
  - exact example_documented.
  - intros v. rewrite lookup_singleton_eq. intros [= <-] _. by eexists.
  - exists resp, h'. exact Hrun.
Defined.

Lemma chat_passes_messages_witness :
  chat no_html no_floats example_engine {[ "message" := PStr "hello" ]}
    doc_heap
  = (Done (Answer not_how_to_message (Some (NotHowTo not_how_to_message))),
     doc_heap) /\
  not_how_to_message = not_how_to_message.
Proof.
  assert (chat no_html no_floats example_engine
            {[ "message" := PStr "hello" ]} doc_heap
          = (Done (Answer not_how_to_message
                     (Some (NotHowTo not_how_to_message))), doc_heap)) as Hrun
    by (vm_compute; reflexivity).
  split; [exact Hrun|].
  exact (chat_passes_messages no_html no_floats _ _ _ _ _ _ _ Hrun eq_refl).
Defined.
